(** * Verification of the qmd search and indexing engine

    Shallow embedding of the parts of qmd that the specification talks
    about: the chunker (src/utils/content.ts), the FTS query builder
    (src/database/search/search.ts), reciprocal rank fusion, the reranker,
    vector search, path contexts, collection creation and orphan cleanup. *)

From Stdlib Require Import ZArith List Bool Lia Sorted Permutation.
From Stdlib Require Import QArith Qminmax Qfield.
From Stdlib Require Import Strings.String Strings.Ascii.
From Stdlib Require Import Reals Lra Qreals.
Import ListNotations.

Open Scope Z_scope.

(* ------------------------------------------------------------------ *)
(** ** JavaScript strings

    A JS string is a sequence of UTF-16 code units; [s.length],
    [s[i]] and [s.slice(a, b)] index code units.  We represent a string
    as [list Z] of code units in [0, 0xFFFF]. *)
Module JSString.

Definition jsstr := list Z.

Definition is_high_surrogate (c : Z) : bool := (0xD800 <=? c) && (c <=? 0xDBFF).
Definition is_low_surrogate (c : Z) : bool := (0xDC00 <=? c) && (c <=? 0xDFFF).

(** [new TextEncoder().encode(s[i]).length]: the UTF-8 length of a string
    holding one code unit.  A lone surrogate is encoded as U+FFFD (3 bytes). *)
Definition cu_bytes (c : Z) : Z :=
  if c <? 0x80 then 1 else if c <? 0x800 then 2 else 3.

(** [new TextEncoder().encode(s).length]: a well-formed surrogate pair is
    one scalar of 4 bytes, a lone surrogate becomes U+FFFD. *)
Fixpoint utf8_len (s : jsstr) : Z :=
  match s with
  | [] => 0
  | c :: r =>
      if is_high_surrogate c then
        match r with
        | d :: r' => if is_low_surrogate d then 4 + utf8_len r' else 3 + utf8_len r
        | [] => 3
        end
      else cu_bytes c + utf8_len r
  end.

(** Sum of the per-code-unit byte counts, as the chunker's inner loop adds them. *)
Fixpoint cu_sum (s : jsstr) : Z :=
  match s with
  | [] => 0
  | c :: r => cu_bytes c + cu_sum r
  end.

Fixpoint prefixb (p l : jsstr) : bool :=
  match p, l with
  | [], _ => true
  | a :: p', b :: l' => (a =? b) && prefixb p' l'
  | _ :: _, [] => false
  end.

Fixpoint lio_go (pat l : jsstr) (i acc : Z) : Z :=
  match l with
  | [] => if prefixb pat [] then i else acc
  | _ :: r => lio_go pat r (i + 1) (if prefixb pat l then i else acc)
  end.

(** [s.lastIndexOf(pat)]: the last index where [pat] occurs, or -1. *)
Definition lastIndexOf (s pat : jsstr) : Z := lio_go pat s 0 (-1).

(** [s.slice(a, b)] for [0 <= a <= b]. *)
Definition slice (s : jsstr) (a b : nat) : jsstr := firstn (b - a) (skipn a s).

(** ASCII literals as code units. *)
Definition of_string (s : string) : jsstr :=
  map (fun a => Z.of_nat (nat_of_ascii a)) (list_ascii_of_string s).

End JSString.

Import JSString.

(* ------------------------------------------------------------------ *)
(** ** Chunker: [chunkDocument] of src/utils/content.ts *)
Module Chunker.

Record chunk := mkChunk { text : jsstr; pos : nat }.

(** [CHUNK_BYTE_SIZE] of src/config. *)
Definition MAX_CHUNK_BYTES : Z := 6144.

(** The inner [while (endPos < content.length && byteCount < maxBytes)]
    loop, run on [content.slice(charPos)]: the number of code units it
    advances [endPos] by. *)
Fixpoint fit (maxBytes byteCount : Z) (l : jsstr) : nat :=
  match l with
  | [] => O
  | c :: r =>
      if byteCount <? maxBytes then
        if maxBytes <? byteCount + cu_bytes c then O
        else S (fit maxBytes (byteCount + cu_bytes c) r)
      else O
  end.

Definition nl := 10.
Definition sp := 32.

(** The natural-boundary search on [slice].  [x > slice.length * 0.5] is
    [2 * x > L]; [x > slice.length * 0.3] is [10 * x > 3 * L] (for an integer
    [x] the double product [L * 0.3] compares the same way). *)
Definition break_point (sl : jsstr) : Z :=
  let L := Z.of_nat (List.length sl) in
  let paragraphBreak := lastIndexOf sl [nl; nl] in
  let sentenceEnd :=
    Z.max (lastIndexOf sl [46; sp])
     (Z.max (lastIndexOf sl [46; nl])
      (Z.max (lastIndexOf sl [63; sp])
       (Z.max (lastIndexOf sl [63; nl])
        (Z.max (lastIndexOf sl [33; sp]) (lastIndexOf sl [33; nl]))))) in
  let lineBreak := lastIndexOf sl [nl] in
  let spaceBreak := lastIndexOf sl [sp] in
  if L <? 2 * paragraphBreak then paragraphBreak + 2
  else if L <? 2 * sentenceEnd then sentenceEnd + 2
  else if 3 * L <? 10 * lineBreak then lineBreak + 1
  else if 3 * L <? 10 * spaceBreak then spaceBreak + 1
  else -1.

(** One iteration of the outer loop computes [endPos] from [charPos]. *)
Definition next_end (maxBytes : Z) (content : jsstr) (charPos : nat) : nat :=
  let endPos0 := (charPos + fit maxBytes 0 (skipn charPos content))%nat in
  let endPos1 :=
    if Nat.ltb endPos0 (List.length content) && Nat.ltb charPos endPos0 then
      let bp := break_point (slice content charPos endPos0) in
      if 0 <? bp then (charPos + Z.to_nat bp)%nat else endPos0
    else endPos0 in
  if Nat.leb endPos1 charPos then S charPos else endPos1.

(** The outer [while (charPos < content.length)] loop; [fuel] bounds the
    number of iterations (each one advances [charPos]). *)
Fixpoint chunk_loop (fuel : nat) (maxBytes : Z) (content : jsstr) (charPos : nat)
  : list chunk :=
  match fuel with
  | O => []
  | S f =>
      if Nat.ltb charPos (List.length content) then
        let endPos := next_end maxBytes content charPos in
        mkChunk (slice content charPos endPos) charPos
          :: chunk_loop f maxBytes content endPos
      else []
  end.

Definition chunkDocument (content : jsstr) (maxBytes : Z) : list chunk :=
  if utf8_len content <=? maxBytes then [mkChunk content 0]
  else chunk_loop (List.length content) maxBytes content 0.

End Chunker.

(* ------------------------------------------------------------------ *)
(** ** FTS query building: [SearchRepository] of src/database/search/search.ts

    The regular expressions of [sanitizeFTS5Term] carry the [u] flag and
    work on code points, so here a query is a list of code points.  The
    Unicode property tables ([\p{L}], [\p{N}]) and the case mapping of
    [String.prototype.toLowerCase] are data of the runtime; they are the
    fields of [unicode], with the two facts about U+0022 the proofs use. *)
Module FTS.

Record unicode := {
  isLetter : Z -> bool;            (* \p{L} *)
  isNumber : Z -> bool;            (* \p{N} *)
  lowerCp : Z -> list Z;           (* full lowercase mapping of one code point *)
  quote_not_letter : isLetter 34 = false;
  quote_not_number : isNumber 34 = false;
  lowerCp_quote : forall c, In 34 (lowerCp c) -> c = 34
}.

Section WithUnicode.
Variable u : unicode.

(** [s.toLowerCase()] *)
Definition toLowerCase (s : list Z) : list Z := flat_map (lowerCp u) s.

(** The class [\s] of JS regular expressions (WhiteSpace and LineTerminator). *)
Definition js_is_space (c : Z) : bool :=
  (9 <=? c) && (c <=? 13) || (c =? 32) || (c =? 0xA0) || (c =? 0x1680)
  || (0x2000 <=? c) && (c <=? 0x200A) || (c =? 0x2028) || (c =? 0x2029)
  || (c =? 0x202F) || (c =? 0x205F) || (c =? 0x3000) || (c =? 0xFEFF).

Fixpoint split_go (s cur : list Z) (in_ws : bool) : list (list Z) :=
  match s with
  | [] => [rev cur]
  | c :: r =>
      if js_is_space c then
        if in_ws then split_go r cur true else rev cur :: split_go r [] true
      else split_go r (c :: cur) false
  end.

(** [query.split(/\s+/)]: maximal whitespace runs separate the pieces; a
    leading or trailing run yields an empty piece. *)
Definition split_ws (s : list Z) : list (list Z) := split_go s [] false.

Definition keep (c : Z) : bool := isLetter u c || isNumber u c || (c =? 39).

(** [sanitizeFTS5Term]: [term.replace(/[^\p{L}\p{N}']/gu, "").toLowerCase()]. *)
Definition sanitizeFTS5Term (t : list Z) : list Z := toLowerCase (filter keep t).

Definition quote (t : list Z) : list Z := [34] ++ t ++ [34; 42].

Fixpoint join (sep : list Z) (ts : list (list Z)) : list Z :=
  match ts with
  | [] => []
  | [t] => t
  | t :: r => t ++ sep ++ join sep r
  end.

Definition AND_sep : list Z := of_string " AND ".

Definition fts_terms (query : list Z) : list (list Z) :=
  filter (fun t => Nat.ltb 0 (List.length t)) (map sanitizeFTS5Term (split_ws query)).

(** [buildFTS5Query]: [None] stands for [null]. *)
Definition buildFTS5Query (query : list Z) : option (list Z) :=
  match fts_terms query with
  | [] => None
  | [t] => Some (quote t)
  | terms => Some (join AND_sep (map quote terms))
  end.

(** [searchFTS]: the MATCH strings sent to the database, and the rows
    returned; [db] answers a MATCH string with its rows. *)
Definition searchFTS {Row : Type} (db : list Z -> list Row) (query : list Z)
  : list (list Z) * list Row :=
  match buildFTS5Query query with
  | None => ([], [])
  | Some ftsQuery => ([ftsQuery], db ftsQuery)
  end.

End WithUnicode.

(** A fragment of the Unicode tables, exact on the code points it is used
    at: ASCII letters and digits, U+0130 LATIN CAPITAL LETTER I WITH DOT ABOVE
    (category Lu, lowercase 0069 0307 by SpecialCasing.txt) and U+0307
    COMBINING DOT ABOVE (category Mn, neither letter nor number). *)
Definition sample_isLetter (c : Z) : bool :=
  (65 <=? c) && (c <=? 90) || (97 <=? c) && (c <=? 122) || (c =? 0x130).
Definition sample_isNumber (c : Z) : bool := (48 <=? c) && (c <=? 57).
Definition sample_lowerCp (c : Z) : list Z :=
  if (65 <=? c) && (c <=? 90) then [c + 32]
  else if c =? 0x130 then [0x69; 0x307] else [c].

Lemma sample_lowerCp_quote : forall c, In 34 (sample_lowerCp c) -> c = 34.
Proof.
  intros c. unfold sample_lowerCp.
  destruct ((65 <=? c) && (c <=? 90)) eqn:E.
  - intros [H|[]]. apply andb_true_iff in E as [E _]. apply Z.leb_le in E. lia.
  - destruct (c =? 0x130); simpl; intros H; lia.
Qed.

Definition sample_unicode : unicode :=
  {| isLetter := sample_isLetter; isNumber := sample_isNumber;
     lowerCp := sample_lowerCp;
     quote_not_letter := eq_refl; quote_not_number := eq_refl;
     lowerCp_quote := sample_lowerCp_quote |}.

End FTS.

(* ------------------------------------------------------------------ *)
(** ** The relational store

    Tables are lists of rows in rowid order; a statement is a function from
    the tables to its result and the new tables. *)
Module Store.

(** SQLite's [LIKE] without ESCAPE: [%] matches any run, [_] any one
    character, and ASCII letters compare case-insensitively. *)
Definition ascii_fold (c : Z) : Z := if (65 <=? c) && (c <=? 90) then c + 32 else c.

Fixpoint like (pat s : jsstr) : bool :=
  match pat with
  | [] => match s with [] => true | _ => false end
  | p :: pat' =>
      if p =? 37 then
        (fix any (s : jsstr) : bool :=
           like pat' s || match s with [] => false | _ :: s' => any s' end) s
      else
        match s with
        | [] => false
        | c :: s' => ((p =? 95) || (ascii_fold p =? ascii_fold c)) && like pat' s'
        end
  end.

Fixpoint jsstr_eqb (a b : jsstr) : bool :=
  match a, b with
  | [], [] => true
  | x :: a', y :: b' => (x =? y) && jsstr_eqb a' b'
  | _, _ => false
  end.

(** *** [path_contexts] and [ContextRepository.getContextForPath] (part_014) *)
Record PathContextRow := mkPathContext {
  pc_id : Z; pc_collection_id : Z; path_prefix : jsstr; context : jsstr }.

(** [ORDER BY LENGTH(path_prefix) DESC], stable on the scan order. *)
Fixpoint insert_by_len (r : PathContextRow) (l : list PathContextRow) : list PathContextRow :=
  match l with
  | [] => [r]
  | r' :: l' =>
      if Nat.leb (List.length (path_prefix r')) (List.length (path_prefix r))
      then r :: l else r' :: insert_by_len r l'
  end.

Definition order_by_len_desc (l : list PathContextRow) : list PathContextRow :=
  fold_right insert_by_len [] l.

Definition slash_pct : jsstr := [47; 37].

Definition context_where (collection_id : Z) (path : jsstr) (r : PathContextRow) : bool :=
  (pc_collection_id r =? collection_id) &&
  (like (path_prefix r ++ slash_pct) path || jsstr_eqb path (path_prefix r)
   || jsstr_eqb (path_prefix r) []).

(** [result?.context || null]: an empty context reads as [null] too. *)
Definition getContextForPath (path_contexts : list PathContextRow)
    (collection_id : Z) (path : jsstr) : option jsstr :=
  match order_by_len_desc (filter (context_where collection_id path) path_contexts) with
  | [] => None
  | r :: _ => match context r with [] => None | c => Some c end
  end.

(** *** [collections] and collection creation *)
Record CollectionRow := mkCollection {
  coll_id : Z; name : jsstr; pwd : jsstr; glob_pattern : jsstr }.

Inductive result (A : Type) := Ok (a : A) | Err (msg : jsstr).
Arguments Ok {A} a.
Arguments Err {A} msg.

(** [s.split(sep)] on one code unit. *)
Fixpoint split_on (sep : Z) (s : jsstr) : list jsstr :=
  match s with
  | [] => [[]]
  | c :: r =>
      if c =? sep then [] :: split_on sep r
      else match split_on sep r with
           | w :: ws => (c :: w) :: ws
           | [] => [[c]]
           end
  end.

(** [parts[parts.length - 1] || "root"] after [pwd.split("/").filter(Boolean)]. *)
Definition default_name (pwd : jsstr) : jsstr :=
  match rev (filter (fun w => Nat.ltb 0 (List.length w)) (split_on 47 pwd)) with
  | w :: _ => w
  | [] => of_string "root"
  end.

Definition getByName (cols : list CollectionRow) (n : jsstr) : option CollectionRow :=
  find (fun c => jsstr_eqb (name c) n) cols.

Definition getByPwdAndGlob (cols : list CollectionRow) (p g : jsstr) : option CollectionRow :=
  find (fun c => jsstr_eqb (pwd c) p && jsstr_eqb (glob_pattern c) g) cols.

(** INTEGER PRIMARY KEY AUTOINCREMENT, for a table whose rows were never deleted. *)
Definition next_id (cols : list CollectionRow) : Z :=
  fold_right (fun c m => Z.max (coll_id c) m) 0 cols + 1.

(** [CollectionManager.create] of src/core/collections/collections.ts; an
    absent or empty [name] is [[]]. *)
Definition create (cols : list CollectionRow) (p g : jsstr) (name0 : jsstr)
  : result (CollectionRow * list CollectionRow) :=
  let n := match name0 with [] => default_name p | _ => name0 end in
  match getByName cols n with
  | Some _ => Err (of_string "Collection '" ++ n ++ of_string "' already exists")
  | None =>
      match getByPwdAndGlob cols p g with
      | Some e => Err (of_string "A collection already exists for this path and pattern (name: "
                       ++ name e ++ of_string ")")
      | None =>
          let row := mkCollection (next_id cols) n p g in
          Ok (row, cols ++ [row])
      end
  end.

(** Decimal digits of a number, as template literals print it. *)
Fixpoint digits_go (fuel n : nat) (acc : jsstr) : jsstr :=
  match fuel with
  | O => acc
  | S f =>
      let acc' := (48 + Z.of_nat (n mod 10)) :: acc in
      if Nat.ltb n 10 then acc' else digits_go f (n / 10) acc'
  end.
Definition nat_to_jsstr (n : nat) : jsstr := digits_go (S n) n [].

(** The suffix loop of [getOrCreateCollection]: [fuel] bounds the rounds. *)
Fixpoint suffix_loop (fuel : nat) (taken : list jsstr) (n : jsstr) (suffix : nat) : jsstr :=
  let uniqueName := n ++ [45] ++ nat_to_jsstr suffix in
  match fuel with
  | O => uniqueName
  | S f => if existsb (jsstr_eqb uniqueName) taken
           then suffix_loop f taken n (S suffix) else uniqueName
  end.

(** [getOrCreateCollection] of src/utils (part_000): the id and the table. *)
Definition getOrCreateCollection (cols : list CollectionRow) (p g : jsstr) (name0 : jsstr)
  : Z * list CollectionRow :=
  let n := match name0 with [] => default_name p | _ => name0 end in
  match getByPwdAndGlob cols p g with
  | Some e => (coll_id e, cols)
  | None =>
      match getByName cols n with
      | None => let row := mkCollection (next_id cols) n p g in (coll_id row, cols ++ [row])
      | Some _ =>
          let allCollections :=
            map name (filter (fun c => like (n ++ [37]) (name c)) cols) in
          let uniqueName := suffix_loop (S (List.length allCollections)) allCollections n 2 in
          let row := mkCollection (next_id cols) uniqueName p g in
          (coll_id row, cols ++ [row])
      end
  end.

(** *** [content], [documents] and [DocumentRepository.cleanupOrphanedContent] *)
Record ContentRow := mkContent { c_hash : jsstr; doc : jsstr }.
Record DocumentRow := mkDocument {
  d_id : Z; d_collection_id : Z; d_path : jsstr; d_hash : jsstr; active : Z }.

Record db := mkDb { content : list ContentRow; documents : list DocumentRow }.

Definition active_hashes (docs : list DocumentRow) : list jsstr :=
  map d_hash (filter (fun d => active d =? 1) docs).

Definition referenced (docs : list DocumentRow) (h : jsstr) : bool :=
  existsb (jsstr_eqb h) (active_hashes docs).

(** [DELETE FROM content WHERE hash NOT IN (SELECT DISTINCT hash FROM
    documents WHERE active = 1)]; the foreign key [documents.hash] is
    [ON DELETE CASCADE] ([PRAGMA foreign_keys = ON]), so the documents of a
    deleted hash go too, and each of them fires the trigger [documents_ad]
    ([DELETE FROM documents_fts WHERE rowid = old.id]).  The result is
    [run().changes] of bun:sqlite, the growth of [sqlite3_total_changes]
    over the statement: it counts the deleted [content] rows, the documents
    deleted by the cascade and every row the trigger program changes.  The
    rows the trigger changes for a document (the FTS5 row and the writes to
    its shadow tables) depend on FTS5's storage and are the parameter
    [trigger_changes]. *)
Definition cleanupOrphanedContent (trigger_changes : DocumentRow -> nat) (st : db) : nat * db :=
  let docs := documents st in
  let kept := filter (fun r => referenced docs (c_hash r)) (content st) in
  let deleted := filter (fun r => negb (referenced docs (c_hash r))) (content st) in
  let cascades := fun d => existsb (fun r => jsstr_eqb (c_hash r) (d_hash d)) deleted in
  let cascaded := filter cascades docs in
  let docs' := filter (fun d => negb (cascades d)) docs in
  ((List.length deleted + list_sum (map (fun d => S (trigger_changes d)) cascaded))%nat, mkDb kept docs').

End Store.

(* ------------------------------------------------------------------ *)
(** ** Reranking: [Ollama.rerank] of src/core/llm (part_017)

    Numbers are real numbers and [Math.exp] is [exp].  The answer of the
    model to the prompt built for a document is an input of the model:
    [generate] maps the document to the [GenerateResult] or to [null]
    ([None]).  [toLowerCase] and [trim] of the runtime are parameters. *)
Module Rerank.

Record RerankDocument := mkRerankDocument { file : jsstr; title : jsstr; text : jsstr }.
Record TokenLogProb := mkTokenLogProb { token : jsstr; logprob : R }.
Record GenerateResult := mkGenerateResult {
  g_text : jsstr; g_logprobs : option (list TokenLogProb) }.
Record RerankDocumentResult := mkRerankDocumentResult {
  r_file : jsstr; relevant : bool; confidence : R; score : R;
  rawToken : jsstr; r_logprob : R }.

Section WithRuntime.
Variable toLowerCase : jsstr -> jsstr.
Variable trim : jsstr -> jsstr.
Variable generate : RerankDocument -> option GenerateResult.

Definition startsWith (s p : jsstr) : bool := prefixb p s.

(** [result.logprobs?.[0]?.logprob ?? 0] *)
Definition first_logprob (result : GenerateResult) : R :=
  match g_logprobs result with
  | Some (lp :: _) => logprob lp
  | _ => 0%R
  end.

Definition parseRerankResponse (f : jsstr) (result : GenerateResult) : RerankDocumentResult :=
  let tok := trim (toLowerCase (g_text result)) in
  let lp := first_logprob result in
  let conf := exp lp in
  let '(rel, sc) :=
    if startsWith tok (of_string "yes") then (true, (1/2 + 1/2 * conf)%R)
    else if startsWith tok (of_string "no") then (false, (1/2 * (1 - conf))%R)
    else (false, (3/10)%R) in
  mkRerankDocumentResult f rel conf sc
    (match g_logprobs result with Some (t :: _) => token t | _ => tok end) lp.

Definition rerankSingle (d : RerankDocument) : RerankDocumentResult :=
  match generate d with
  | None => mkRerankDocumentResult (file d) false 0%R 0%R [] 0%R
  | Some result => parseRerankResponse (file d) result
  end.

(** The batch loop of [rerankerLogprobsCheck]: [for (i = 0; i < n; i += batchSize)]. *)
Fixpoint batch_loop (fuel : nat) (batchSize : nat) (docs : list RerankDocument) (i : nat)
  : list RerankDocumentResult :=
  match fuel with
  | O => []
  | S f =>
      if Nat.ltb i (List.length docs) then
        map rerankSingle (firstn batchSize (skipn i docs))
          ++ batch_loop f batchSize docs (i + batchSize)
      else []
  end.

(** [options.batchSize || 5] *)
Definition rerankerLogprobsCheck (docs : list RerankDocument) (batchSize : nat)
  : list RerankDocumentResult :=
  let bs := match batchSize with O => 5%nat | n => n end in
  batch_loop (List.length docs) bs docs 0.

(** [results.sort((a, b) => b.score - a.score)]: a stable sort, descending. *)
Fixpoint insert_desc (x : RerankDocumentResult) (l : list RerankDocumentResult)
  : list RerankDocumentResult :=
  match l with
  | [] => [x]
  | y :: l' => if Rle_dec (score y) (score x) then x :: l else y :: insert_desc x l'
  end.

Definition sort_desc (l : list RerankDocumentResult) : list RerankDocumentResult :=
  fold_right insert_desc [] l.

Definition rerank (docs : list RerankDocument) (batchSize : nat) : list RerankDocumentResult :=
  sort_desc (rerankerLogprobsCheck docs batchSize).

End WithRuntime.
End Rerank.

(* ------------------------------------------------------------------ *)
(** ** Vector search: [SearchService.searchVector] of
    src/database/vectors/vectors.ts

    Distances and scores are rationals.  The database is seen through its
    answers: [knn k] are the rows of [VectorRepository.searchVectors] for the
    query embedding and [k], [info h] is
    [DocumentRepository.getDocumentInfoByHash(h)]. *)
Module Vector.
Open Scope Q_scope.

Record VectorSearchResult := mkVectorSearchResult {
  hash_seq : jsstr; distance : Q; v_hash : jsstr; seq : nat; v_pos : nat }.
Record DocInfo := mkDocInfo {
  path : jsstr; title : jsstr; collection_name : jsstr; doc : jsstr }.
Record SearchResult := mkSearchResult {
  file : jsstr; displayPath : jsstr; s_title : jsstr; body : jsstr;
  score : Q; source : jsstr; chunkPos : option nat }.

(** [`qmd://${doc.collection_name}/${doc.path}`] *)
Definition filepath (d : DocInfo) : jsstr :=
  of_string "qmd://" ++ collection_name d ++ [47%Z] ++ path d.

Section WithDb.
Variable info : jsstr -> option DocInfo.

(** The [seen] map: keys in first-insertion order, values [(result, bestDist)]. *)
Definition seen_map := list (jsstr * (VectorSearchResult * Q)).

Fixpoint map_get (k : jsstr) (m : seen_map) : option (VectorSearchResult * Q) :=
  match m with
  | [] => None
  | (k', v) :: m' => if Store.jsstr_eqb k' k then Some v else map_get k m'
  end.

(** [Map.prototype.set]: update in place, or append a new key. *)
Fixpoint map_set (k : jsstr) (v : VectorSearchResult * Q) (m : seen_map) : seen_map :=
  match m with
  | [] => [(k, v)]
  | (k', v') :: m' => if Store.jsstr_eqb k' k then (k', v) :: m' else (k', v') :: map_set k v m'
  end.

(** One turn of [for (const result of vectorResults)]. *)
Definition dedup_step (seen : seen_map) (result : VectorSearchResult) : seen_map :=
  match info (v_hash result) with
  | None => seen
  | Some d =>
      let fp := filepath d in
      match map_get fp seen with
      | Some (_, bestDist) =>
          if Qle_bool bestDist (distance result) then seen
          else map_set fp (result, distance result) seen
      | None => map_set fp (result, distance result) seen
      end
  end.

Definition dedup (results : list VectorSearchResult) : seen_map :=
  fold_left dedup_step results [].

(** [.sort((a, b) => a.bestDist - b.bestDist)]: stable, ascending. *)
Fixpoint insert_asc (x : VectorSearchResult * Q) (l : list (VectorSearchResult * Q))
  : list (VectorSearchResult * Q) :=
  match l with
  | [] => [x]
  | y :: l' => if Qle_bool (snd x) (snd y) then x :: l else y :: insert_asc x l'
  end.

Definition sort_asc (l : list (VectorSearchResult * Q)) : list (VectorSearchResult * Q) :=
  fold_right insert_asc [] l.

Definition vec_source : jsstr := of_string "vec".

Definition mkHit (d : DocInfo) (r : VectorSearchResult) : SearchResult :=
  mkSearchResult (filepath d) (filepath d) (title d) (doc d)
    (1 / (1 + distance r)) vec_source (Some (v_pos r)).

(** [getDocumentInfoByHash(result.hash)!]: the hash resolved when its row
    was grouped, so the fallback is never taken. *)
Definition toHit (r : VectorSearchResult) : SearchResult :=
  match info (v_hash r) with
  | Some d => mkHit d r
  | None => mkSearchResult [] [] [] [] 0 vec_source (Some (v_pos r))
  end.

(** [searchVector]: [vecTableExists], the query embedding (or [null]), the
    KNN answer and the limit. *)
Definition searchVector {E : Type} (vecTableExists : bool) (embedding : option E)
    (knn : E -> nat -> list VectorSearchResult) (limit : nat) : list SearchResult :=
  if negb vecTableExists then []
  else match embedding with
       | None => []
       | Some e =>
           let vectorResults := knn e (limit * 3)%nat in
           map (fun '(r, _) => toHit r) (firstn limit (sort_asc (map snd (dedup vectorResults))))
       end.

End WithDb.
Close Scope Q_scope.
End Vector.

(* ------------------------------------------------------------------ *)
(** ** Reciprocal rank fusion (src/unnamed/part_009) *)

Module RRF.
Open Scope Q_scope.

Record RankedResult := mkRanked {
  file : jsstr; displayPath : jsstr; title : jsstr; body : jsstr; score : Q }.

(** The value type of the [scores] map. *)
Record Entry := mkEntry {
  e_score : Q; e_displayPath : jsstr; e_title : jsstr; e_body : jsstr; bestRank : nat }.

(** [new Map<string, ...>()]: entries in insertion order; the code mutates
    an existing entry in place, so its position is kept. *)
Definition scores_map := list (jsstr * Entry).

Fixpoint map_get (m : scores_map) (f : jsstr) : option Entry :=
  match m with
  | [] => None
  | (g, e) :: m' => if Store.jsstr_eqb g f then Some e else map_get m' f
  end.

Fixpoint map_set (m : scores_map) (f : jsstr) (e : Entry) : scores_map :=
  match m with
  | [] => [(f, e)]
  | (g, x) :: m' => if Store.jsstr_eqb g f then (g, e) :: m' else (g, x) :: map_set m' f e
  end.

Definition Q_of_nat (n : nat) : Q := inject_Z (Z.of_nat n).

(** [weights[listIdx] ?? 1.0] *)
Definition weight_at (weights : list Q) (listIdx : nat) : Q :=
  match nth_error weights listIdx with Some w => w | None => 1 end.

(** The inner [for (let rank = 0; ...)] loop over one result list. *)
Fixpoint ranks_loop (k weight : Q) (rank : nat) (results : list RankedResult) (scores : scores_map)
  : scores_map :=
  match results with
  | [] => scores
  | doc :: rest =>
      let rrfScore := weight / (k + Q_of_nat rank + 1) in
      let scores' :=
        match map_get scores (file doc) with
        | Some existing =>
            map_set scores (file doc)
              (mkEntry (e_score existing + rrfScore) (e_displayPath existing) (e_title existing)
                 (e_body existing) (Nat.min (bestRank existing) rank))
        | None =>
            map_set scores (file doc) (mkEntry rrfScore (displayPath doc) (title doc) (body doc) rank)
        end in
      ranks_loop k weight (S rank) rest scores'
  end.

(** The outer [for (let listIdx = 0; ...)] loop. *)
Fixpoint lists_loop (k : Q) (weights : list Q) (listIdx : nat) (resultLists : list (list RankedResult))
    (scores : scores_map) : scores_map :=
  match resultLists with
  | [] => scores
  | results :: rest =>
      lists_loop k weights (S listIdx) rest (ranks_loop k (weight_at weights listIdx) 0 results scores)
  end.

Definition bonus_of (bestRank : nat) : Q :=
  if Nat.eqb bestRank 0 then 5 # 100 else if Nat.leb bestRank 2 then 2 # 100 else 0.

Definition finish (p : jsstr * Entry) : RankedResult :=
  let '(f, e) := p in
  mkRanked f (e_displayPath e) (e_title e) (e_body e) (e_score e + bonus_of (bestRank e)).

(** [.sort((a, b) => b.score - a.score)]: stable, descending. *)
Fixpoint insert_desc (x : RankedResult) (l : list RankedResult) : list RankedResult :=
  match l with
  | [] => [x]
  | y :: l' => if Qle_bool (score y) (score x) then x :: l else y :: insert_desc x l'
  end.

Fixpoint sort_desc (l : list RankedResult) : list RankedResult :=
  match l with
  | [] => []
  | x :: l' => insert_desc x (sort_desc l')
  end.

Definition reciprocalRankFusion (resultLists : list (list RankedResult)) (weights : list Q) (k : Q)
  : list RankedResult :=
  sort_desc (map finish (lists_loop k weights 0 resultLists [])).

(** The default arguments: [weights = []], [k = 60]. *)
Definition reciprocalRankFusion_default (resultLists : list (list RankedResult)) : list RankedResult :=
  reciprocalRankFusion resultLists [] 60.

(** The formula of the specification, for comparison with the code:
    0-based rank of [d] in a list, the weighted sum over the lists and the
    best-rank bonus. *)
Fixpoint rank_in (d : jsstr) (l : list RankedResult) : option nat :=
  match l with
  | [] => None
  | r :: l' => if Store.jsstr_eqb (file r) d then Some 0%nat else option_map S (rank_in d l')
  end.

Fixpoint rrf_sum (k : Q) (weights : list Q) (i : nat) (lists : list (list RankedResult)) (d : jsstr) : Q :=
  match lists with
  | [] => 0
  | l :: ls =>
      (match rank_in d l with
       | Some r => nth i weights 1 / (k + Q_of_nat r + 1)
       | None => 0
       end) + rrf_sum k weights (S i) ls d
  end.

Definition min_opt (a b : option nat) : option nat :=
  match a, b with
  | None, _ => b
  | _, None => a
  | Some x, Some y => Some (Nat.min x y)
  end.

Fixpoint best_rank (lists : list (list RankedResult)) (d : jsstr) : option nat :=
  match lists with
  | [] => None
  | l :: ls => min_opt (rank_in d l) (best_rank ls d)
  end.

Definition spec_bonus (b : option nat) : Q :=
  match b with
  | Some 0%nat => 5 # 100
  | Some 1%nat | Some 2%nat => 2 # 100
  | _ => 0
  end.

Close Scope Q_scope.
End RRF.

(* ------------------------------------------------------------------ *)
(** ** More of the JavaScript string API *)
Module JSMore.

(** [s.slice(a, b)] with JavaScript's treatment of negative and
    out-of-range indices. *)
Definition js_index (len a : Z) : Z :=
  if a <? 0 then Z.max 0 (len + a) else Z.min a len.

Definition js_slice (s : jsstr) (a b : Z) : jsstr :=
  let len := Z.of_nat (List.length s) in
  let from := js_index len a in
  let to := js_index len b in
  if from <? to then firstn (Z.to_nat (to - from)) (skipn (Z.to_nat from) s) else [].

Fixpoint io_go (pat s : jsstr) (i : Z) : Z :=
  if prefixb pat s then i
  else match s with
       | [] => -1
       | _ :: s' => io_go pat s' (i + 1)
       end.

(** [s.indexOf(pat)]: the first index where [pat] occurs, or -1. *)
Definition indexOf (s pat : jsstr) : Z := io_go pat s 0.

(** [s.includes(pat)] *)
Definition includes (s pat : jsstr) : bool := negb (indexOf s pat =? -1).

(** [s.startsWith(p)] *)
Definition startsWith (s p : jsstr) : bool := prefixb p s.

Fixpoint trimStart (s : jsstr) : jsstr :=
  match s with
  | [] => []
  | c :: s' => if FTS.js_is_space c then trimStart s' else s
  end.

(** [s.trim()]: strips WhiteSpace and LineTerminator code units, the class
    [\s] of [FTS.js_is_space], at both ends. *)
Definition trim (s : jsstr) : jsstr := rev (trimStart (rev (trimStart s))).

Definition len (s : jsstr) : Z := Z.of_nat (List.length s).

End JSMore.
Import JSMore.

(* ------------------------------------------------------------------ *)
(** ** Score normalisation and snippets (src/commands/search/utils, part_009)

    Numbers are rationals; [===] on numbers compares values. *)
Module SearchUtils.
Open Scope Q_scope.

(** [Math.min(...s)] and [Math.max(...s)] of a non-empty list. *)
Definition list_min (s0 : Q) (rest : list Q) : Q := fold_left Qmin rest s0.
Definition list_max (s0 : Q) (rest : list Q) : Q := fold_left Qmax rest s0.

(** [normalizeBM25] *)
Definition normalizeBM25 (scores : list Q) : list Q :=
  match scores with
  | [] => []
  | s0 :: rest =>
      let min := list_min s0 rest in
      let max := list_max s0 rest in
      if Qeq_bool max min then map (fun _ => 1) scores
      else map (fun s => (s - min) / (max - min)) scores
  end.

(** [normalizeScores], at the result type of reciprocal rank fusion. *)
Definition normalizeScores (results : list RRF.RankedResult) : list RRF.RankedResult :=
  match map RRF.score results with
  | [] => results
  | s0 :: rest =>
      let maxScore := list_max s0 rest in
      let minScore := list_min s0 rest in
      let range := if Qeq_bool (maxScore - minScore) 0 then 1 else maxScore - minScore in
      map (fun r => RRF.mkRanked (RRF.file r) (RRF.displayPath r) (RRF.title r) (RRF.body r)
                      ((RRF.score r - minScore) / range)) results
  end.

Close Scope Q_scope.

Section WithLower.
(** [String.prototype.toLowerCase] of the runtime. *)
Variable toLowerCase : jsstr -> jsstr.

Definition ellipsis : jsstr := of_string "...".

(** The best-match scan: [(bestPos, bestScore)]. *)
Definition best_step (contentLower : jsstr) (acc : Z * Z) (term : jsstr) : Z * Z :=
  let '(bestPos, bestScore) := acc in
  let pos := indexOf contentLower term in
  if negb (pos =? -1) then
    let score := 1000 - pos + len term * 10 in
    if score >? bestScore then (pos, score) else (bestPos, bestScore)
  else (bestPos, bestScore).

Definition head_snippet (content : jsstr) (maxLength : Z) : jsstr :=
  js_slice content 0 maxLength ++ (if len content >? maxLength then ellipsis else []).

(** [extractSnippetWithContext] *)
Definition extractSnippetWithContext (content query : jsstr) (maxLength : Z) : jsstr :=
  match content, query with
  | [], _ | _, [] => []
  | _, _ =>
      let contentLower := toLowerCase content in
      let queryLower := toLowerCase query in
      let terms := filter (fun t => Nat.leb 3 (List.length t)) (FTS.split_ws queryLower) in
      match terms with
      | [] => head_snippet content maxLength
      | _ =>
          let '(bestPos, _) := fold_left (best_step contentLower) terms (-1, 0) in
          if bestPos =? -1 then head_snippet content maxLength
          else
            let contextBefore := 50 in
            let start := Z.max 0 (bestPos - contextBefore) in
            let end_ := Z.min (len content) (start + maxLength) in
            let snippet := js_slice content start end_ in
            let snippet := if start >? 0 then ellipsis ++ snippet else snippet in
            let snippet := if end_ <? len content then snippet ++ ellipsis else snippet in
            trim snippet
      end
  end.

End WithLower.
End SearchUtils.

(* ------------------------------------------------------------------ *)
(** ** Virtual paths [qmd://collection/path] (src/utils/virtual-path, part_017) *)
Module VPath.

Record VirtualPath := mkVirtualPath { collectionName : jsstr; path : jsstr }.

Definition qmd_scheme : jsstr := of_string "qmd://".

(** The code units that [.] does not match: LineTerminator. *)
Definition is_line_terminator (c : Z) : bool :=
  (c =? 10) || (c =? 13) || (c =? 0x2028) || (c =? 0x2029).

(** The longest prefix without [/] and the rest. *)
Fixpoint take_name (s : jsstr) : jsstr * jsstr :=
  match s with
  | [] => ([], [])
  | c :: r => if c =? 47 then ([], s) else let '(a, b) := take_name r in (c :: a, b)
  end.

(** [virtualPath.match(/^qmd:\/\/([^\/]+)\/(.+)$/)].  The group [[^\/]+]
    is greedy and must be followed by [/], so it is the longest run of
    non-[/] code units after the scheme (a shorter one is followed by a
    non-[/] unit); [(.+)$] then takes the non-empty rest, which must hold no
    line terminator ([$] without the [m] flag is the end of input). *)
Definition parseVirtualPath (virtualPath : jsstr) : option VirtualPath :=
  if prefixb qmd_scheme virtualPath then
    match take_name (skipn 6 virtualPath) with
    | (c :: cs, 47 :: ((_ :: _) as p)) =>
        if forallb (fun u => negb (is_line_terminator u)) p then Some (mkVirtualPath (c :: cs) p)
        else None
    | _ => None
    end
  else None.

(** [buildVirtualPath]: [`qmd://${collectionName}/${path}`]. *)
Definition buildVirtualPath (collectionName path : jsstr) : jsstr :=
  qmd_scheme ++ collectionName ++ [47] ++ path.

(** [isVirtualPath]: [path.startsWith("qmd://")]. *)
Definition isVirtualPath (path : jsstr) : bool := prefixb qmd_scheme path.

End VPath.

(* ------------------------------------------------------------------ *)
(** ** The [ollama_cache] table: [CacheRepository] of src/database/cache

    [hash] is the primary key; [created_at] is the ISO time string of the
    write. *)
Module Cache.

Record CacheRow := mkCacheRow { hash : jsstr; result : jsstr; created_at : jsstr }.
Definition cache := list CacheRow.

(** [get]: [SELECT result FROM ollama_cache WHERE hash = ?], then
    [row?.result || null]: an empty result reads as [null]. *)
Definition get (c : cache) (cacheKey : jsstr) : option jsstr :=
  match find (fun r => Store.jsstr_eqb (hash r) cacheKey) c with
  | Some r => match result r with [] => None | s => Some s end
  | None => None
  end.

(** [set]: [INSERT OR REPLACE INTO ollama_cache (hash, result, created_at)];
    the row holding the same key is replaced. *)
Definition set (c : cache) (cacheKey res now : jsstr) : cache :=
  filter (fun r => negb (Store.jsstr_eqb (hash r) cacheKey)) c ++ [mkCacheRow cacheKey res now].

(** [exists]: the row count [WHERE hash = ?], then [count > 0]. *)
Definition cache_exists (c : cache) (cacheKey : jsstr) : bool :=
  Nat.ltb 0 (List.length (filter (fun r => Store.jsstr_eqb (hash r) cacheKey) c)).

(** [delete]: [DELETE FROM ollama_cache WHERE hash = ?]. *)
Definition delete (c : cache) (cacheKey : jsstr) : cache :=
  filter (fun r => negb (Store.jsstr_eqb (hash r) cacheKey)) c.

(** [count]: the number of rows of [ollama_cache]. *)
Definition count (c : cache) : nat := List.length c.

Section Cleanup.
(** [limitSize(maxSize)]: the [DELETE] keeping the [maxSize] most recent
    rows; SQLite leaves the order of rows with equal [created_at]
    unspecified, so the statement is a parameter. *)
Variable limitSize : Z -> cache -> cache.

(** [setWithAutoCleanup(cacheKey, result)] with [maxSize = 1000]; [roll]
    is the outcome of [Math.random() < 0.01]. *)
Definition setWithAutoCleanup (c : cache) (cacheKey res now : jsstr) (roll : bool) : cache :=
  let c' := set c cacheKey res now in
  if roll then limitSize 1000 c' else c'.

End Cleanup.
End Cache.

(* ------------------------------------------------------------------ *)
(** ** Query expansion: [Ollama.expandQuery] of src/core/llm (part_017)
    and [SearchService.expandQuery] of src/database/vectors *)
Module Expand.
Import Cache.

Definition think_open : jsstr := of_string "<think>".
Definition think_close : jsstr := of_string "</think>".

(** The rest of [s] after the first [</think>] in it. *)
Fixpoint after_close (s : jsstr) : option jsstr :=
  if prefixb think_close s then Some (skipn 8 s)
  else match s with
       | [] => None
       | _ :: r => after_close r
       end.

(** [text.replace(/<think>[\s\S]*?<\/think>/g, "")]: scanning from the
    left, a match starts at a [<think>] followed later by a [</think>] and
    ends with the first such [</think>] (the lazy [*?]); the scan resumes
    after it.  Every round consumes a code unit, [fuel] bounds them. *)
Fixpoint strip_think (fuel : nat) (s : jsstr) : jsstr :=
  match fuel with
  | O => s
  | S f =>
      match s with
      | [] => []
      | c :: r =>
          if prefixb think_open s then
            match after_close (skipn 7 s) with
            | Some rest => strip_think f rest
            | None => c :: strip_think f r
            end
          else c :: strip_think f r
      end
  end.

Definition remove_think (s : jsstr) : jsstr := strip_think (S (List.length s)) s.

(** [.filter((l) => l.length > 2 && l.length < 100 && !l.startsWith("<"))] *)
Definition line_ok (l : jsstr) : bool :=
  (2 <? len l) && (len l <? 100) && negb (startsWith l (of_string "<")).

(** The parsing of the response text in [Ollama.expandQuery]. *)
Definition parse_expansions (text : jsstr) : list jsstr :=
  filter line_ok (map trim (Store.split_on 10 (trim (remove_think text)))).

(** [Ollama.expandQuery(query, model, numVariations)] after the call to
    [generate], whose result ([null] is [None]) is the argument [res]; a
    count is a non-negative integer. *)
Definition ollama_expandQuery (query : jsstr) (numVariations : nat)
    (res : option Rerank.GenerateResult) : list jsstr :=
  match res with
  | None => [query]
  | Some r => query :: firstn numVariations (parse_expansions (Rerank.g_text r))
  end.

(** [cached.split("\n").map((l) => l.trim()).filter((l) => l.length > 0)] *)
Definition cached_lines (cached : jsstr) : list jsstr :=
  filter (fun l => 0 <? len l) (map trim (Store.split_on 10 cached)).

Section Service.
(** [cacheRepo.generateKey("expandQuery", { query, model })], a SHA-256 digest. *)
Variable generateKey : jsstr -> jsstr -> jsstr.
Variable limitSize : Z -> cache -> cache.
(** The [generate] call of [Ollama.expandQuery] for a query, model and
    count: it may read and write the cache itself. *)
Variable generate : jsstr -> jsstr -> nat -> cache -> option Rerank.GenerateResult * cache.

(** [SearchService.expandQuery(query, model, count)] on the cache [c];
    [now] is the time string of the write, [roll] the random draw of
    [setWithAutoCleanup]. *)
Definition expandQuery (c : cache) (query model : jsstr) (count : nat) (now : jsstr) (roll : bool)
  : list jsstr * cache :=
  let cacheKey := generateKey query model in
  match get c cacheKey with
  | Some cached => (query :: firstn count (cached_lines cached), c)
  | None =>
      let '(res, c1) := generate query model count c in
      let results := ollama_expandQuery query count res in
      if Nat.ltb 1 (List.length results) then
        (results, setWithAutoCleanup limitSize c1 cacheKey (FTS.join [10] (tl results)) now roll)
      else (results, c1)
  end.

End Service.
End Expand.

(* ------------------------------------------------------------------ *)
(** ** [SearchService]: [extractSnippet], [rerank] and [searchHybrid] of
    src/database/vectors

    One JavaScript number type: the scores of this part are real numbers,
    the rational scores of the fusion enter through [Q2R]. *)
Module Service.

(** [arr.slice(a, b)] on an array. *)
Definition arr_slice {A : Type} (l : list A) (a b : Z) : list A :=
  let n := Z.of_nat (List.length l) in
  let from := js_index n a in
  let to := js_index n b in
  if from <? to then firstn (Z.to_nat (to - from)) (skipn (Z.to_nat from) l) else [].

Record SearchResult := mkSearchResult {
  file : jsstr; displayPath : jsstr; title : jsstr; body : jsstr;
  score : R; source : jsstr; chunkPos : option nat }.

Section WithRuntime.
Variable toLowerCase : jsstr -> jsstr.
Variable trim : jsstr -> jsstr.
(** The model's answer for a document, as in [Rerank]. *)
Variable generate : Rerank.RerankDocument -> option Rerank.GenerateResult.

(** The index of the first line whose lowercase form contains [q]. *)
Fixpoint find_line (q : jsstr) (lines : list jsstr) (i : nat) : option nat :=
  match lines with
  | [] => None
  | l :: r => if includes (toLowerCase l) q then Some i else find_line q r (S i)
  end.

(** [extractSnippet(body, query, maxLength)]: [(line, snippet)]. *)
Definition extractSnippet (body query : jsstr) (maxLength : Z) : Z * jsstr :=
  let queryLower := toLowerCase query in
  let lines := Store.split_on 10 body in
  match find_line queryLower lines 0 with
  | None => (1, js_slice (FTS.join [32] (arr_slice lines 0 3)) 0 maxLength)
  | Some matchLine =>
      let start := Z.max 0 (Z.of_nat matchLine - 1) in
      let end_ := Z.min (Z.of_nat (List.length lines)) (Z.of_nat matchLine + 2) in
      (Z.of_nat matchLine + 1, js_slice (FTS.join [32] (arr_slice lines start end_)) 0 maxLength)
  end.

Definition toRerankDoc (r : SearchResult) : Rerank.RerankDocument :=
  Rerank.mkRerankDocument (file r) (title r) (body r).

(** [new Map<string, number>()]: [set] replaces the value of a present key. *)
Fixpoint smap_set (m : list (jsstr * R)) (k : jsstr) (v : R) : list (jsstr * R) :=
  match m with
  | [] => [(k, v)]
  | (g, x) :: m' => if Store.jsstr_eqb g k then (g, v) :: m' else (g, x) :: smap_set m' k v
  end.

Fixpoint smap_get (m : list (jsstr * R)) (k : jsstr) : option R :=
  match m with
  | [] => None
  | (g, x) :: m' => if Store.jsstr_eqb g k then Some x else smap_get m' k
  end.

Definition scoreMap (rs : list Rerank.RerankDocumentResult) : list (jsstr * R) :=
  fold_left (fun m r => smap_set m (Rerank.r_file r) (Rerank.score r)) rs [].

(** [scoreMap.get(r.file) || 0] *)
Definition score_or_0 (o : option R) : R := match o with Some s => s | None => 0%R end.

Definition with_score (r : SearchResult) (s : R) : SearchResult :=
  mkSearchResult (file r) (displayPath r) (title r) (body r) s (source r) (chunkPos r).

(** [.sort((a, b) => b.score - a.score)]: stable, descending. *)
Fixpoint insert_desc (x : SearchResult) (l : list SearchResult) : list SearchResult :=
  match l with
  | [] => [x]
  | y :: l' => if Rle_dec (score y) (score x) then x :: l else y :: insert_desc x l'
  end.

Definition sort_desc (l : list SearchResult) : list SearchResult := fold_right insert_desc [] l.

(** [SearchService.rerank(query, results, model)]: [llm.rerank] with
    [batchSize: 5]. *)
Definition rerank (results : list SearchResult) : list SearchResult :=
  let rerankResult := Rerank.rerank toLowerCase trim generate (map toRerankDoc results) 5 in
  let m := scoreMap rerankResult in
  sort_desc (map (fun r => with_score r (score_or_0 (smap_get m (file r)))) results).

Definition fts_source : jsstr := of_string "fts".

(** [{ ...r, source: "fts", chunkPos: undefined }] *)
Definition of_ranked (r : RRF.RankedResult) : SearchResult :=
  mkSearchResult (RRF.file r) (RRF.displayPath r) (RRF.title r) (RRF.body r)
    (Q2R (RRF.score r)) fts_source None.

(** [searchHybrid(query, { limit, hybridWeight, useRerank })] once the two
    searches have returned [ftsResults] and [vecResults]; the limit is a
    non-negative integer. *)
Definition searchHybrid (ftsResults vecResults : list RRF.RankedResult) (limit : nat)
    (hybridWeight : Q) (useRerank : bool) : list SearchResult :=
  let fusedResults := RRF.reciprocalRankFusion [ftsResults; vecResults]
                        [(1 - hybridWeight)%Q; hybridWeight] 60 in
  let searchResults := map of_ranked fusedResults in
  if useRerank && Nat.ltb 0 (List.length searchResults) then rerank searchResults
  else firstn limit searchResults.

End WithRuntime.
End Service.

(* ------------------------------------------------------------------ *)
(** ** Display paths: [computeDisplayPath] of src/utils (part_000)

    A [Set<string>] is the list of its elements. *)
Module DisplayPath.

(** [s.replace(/\/$/, "")]: one trailing [/] is dropped. *)
Definition strip_trailing_slash (s : jsstr) : jsstr :=
  match rev s with
  | 47 :: r => rev r
  | _ => s
  end.

Definition has (existingPaths : list jsstr) (p : jsstr) : bool :=
  existsb (Store.jsstr_eqb p) existingPaths.

(** The path parts of [computeDisplayPath]: the collection directory name
    and the path below it when [filepath] lies under [collectionPath], the
    whole [filepath] otherwise, split on [/] without empty parts. *)
Definition display_parts (filepath collectionPath : jsstr) : list jsstr :=
  let collectionDir := strip_trailing_slash collectionPath in
  let collectionName := last (Store.split_on 47 collectionDir) [] in
  let relativePath :=
    if prefixb (collectionDir ++ [47]) filepath
    then collectionName ++ skipn (List.length collectionDir) filepath
    else filepath in
  filter (fun p => Nat.ltb 0 (List.length p)) (Store.split_on 47 relativePath).

(** [for (let i = parts.length - minParts; i >= 0; i--)]: the first
    candidate [parts.slice(i).join("/")] not in the set. *)
Fixpoint candidates_loop (parts existingPaths : list jsstr) (i : nat) : option jsstr :=
  let candidate := FTS.join [47] (skipn i parts) in
  if negb (has existingPaths candidate) then Some candidate
  else match i with
       | O => None
       | S j => candidates_loop parts existingPaths j
       end.

Definition computeDisplayPath (filepath collectionPath : jsstr) (existingPaths : list jsstr) : jsstr :=
  let parts := display_parts filepath collectionPath in
  let minParts := Nat.min 2 (List.length parts) in
  match candidates_loop parts existingPaths (List.length parts - minParts) with
  | Some candidate => candidate
  | None => filepath
  end.

End DisplayPath.

(* ------------------------------------------------------------------ *)
(** ** [CollectionManager] of src/core/collections: [getOrCreate],
    [rename] and [remove]

    Rows are those of [Store]; the timestamp columns are not modelled. *)
Module Collections.
Import Store.

(** [getOrCreate(pwd, glob_pattern, name)] *)
Definition getOrCreate (cols : list CollectionRow) (p g : jsstr) (name0 : jsstr)
  : result (CollectionRow * list CollectionRow) :=
  match getByPwdAndGlob cols p g with
  | Some e => Ok (e, cols)
  | None => create cols p g name0
  end.

(** [CollectionRepository.rename(id, newName)]:
    [UPDATE collections SET name = ?, updated_at = ? WHERE id = ?]. *)
Definition repo_rename (cols : list CollectionRow) (id : Z) (newName : jsstr) : list CollectionRow :=
  map (fun c => if coll_id c =? id then mkCollection (coll_id c) newName (pwd c) (glob_pattern c) else c)
      cols.

(** [rename(oldName, newName)] *)
Definition rename (cols : list CollectionRow) (oldName newName : jsstr) : result (list CollectionRow) :=
  match getByName cols oldName with
  | None => Err (of_string "Collection not found: " ++ oldName)
  | Some coll =>
      match getByName cols newName with
      | Some _ => Err (of_string "Collection name already exists: " ++ newName)
      | None => Ok (repo_rename cols (coll_id coll) newName)
      end
  end.

(** The tables [remove] touches. *)
Record tables := mkTables {
  t_collections : list CollectionRow; t_documents : list DocumentRow;
  t_content : list ContentRow; t_path_contexts : list PathContextRow }.

(** [countDocuments(id)]:
    [SELECT COUNT] of the rows [WHERE collection_id = ? AND active = 1]. *)
Definition countDocuments (docs : list DocumentRow) (id : Z) : nat :=
  List.length (filter (fun d => (d_collection_id d =? id) && (active d =? 1)) docs).

(** [remove(name)]: [deleteByCollection] ([DELETE FROM documents WHERE
    collection_id = ?]), [delete] ([DELETE FROM collections WHERE id = ?],
    which cascades to [path_contexts]; no document of the collection is left
    to cascade to), then [cleanupOrphanedContent]; the result is
    [{deletedDocs, cleanedHashes}] and the new tables. *)
Definition remove (trigger_changes : DocumentRow -> nat) (st : tables) (name : jsstr)
  : result (nat * nat * tables) :=
  match getByName (t_collections st) name with
  | None => Err (of_string "Collection not found: " ++ name)
  | Some coll =>
      let id := coll_id coll in
      let docCount := countDocuments (t_documents st) id in
      let docs1 := filter (fun d => negb (d_collection_id d =? id)) (t_documents st) in
      let cols1 := filter (fun c => negb (coll_id c =? id)) (t_collections st) in
      let ctxs1 := filter (fun r => negb (pc_collection_id r =? id)) (t_path_contexts st) in
      let '(cleanedHashes, st2) := cleanupOrphanedContent trigger_changes (mkDb (t_content st) docs1) in
      Ok (docCount, cleanedHashes, mkTables cols1 (documents st2) (content st2) ctxs1)
  end.

End Collections.

(* ------------------------------------------------------------------ *)
(** ** [ContextRepository] (part_014) and [ContextService] of
    src/core/context: setting, deleting and reading path contexts

    [path_contexts] has [UNIQUE(collection_id, path_prefix)]; rows are those of
    [Store]. *)
Module Contexts.
Import Store.

Definition key_is (cid : Z) (p : jsstr) (r : PathContextRow) : bool :=
  (pc_collection_id r =? cid) && jsstr_eqb (path_prefix r) p.

(** [getByCollectionAndPrefix]:
    [SELECT * FROM path_contexts WHERE collection_id = ? AND path_prefix = ?]. *)
Definition getByCollectionAndPrefix (ctxs : list PathContextRow) (cid : Z) (p : jsstr)
  : option PathContextRow :=
  find (key_is cid p) ctxs.

(** [upsert]: [INSERT ... ON CONFLICT(collection_id, path_prefix) DO UPDATE SET
    context = excluded.context]; [newId] is the id [AUTOINCREMENT] gives an
    inserted row. *)
Definition upsert (ctxs : list PathContextRow) (newId cid : Z) (p ctx : jsstr)
  : list PathContextRow :=
  match getByCollectionAndPrefix ctxs cid p with
  | Some _ =>
      map (fun r => if key_is cid p r
                    then mkPathContext (pc_id r) (pc_collection_id r) (path_prefix r) ctx
                    else r) ctxs
  | None => ctxs ++ [mkPathContext newId cid p ctx]
  end.

(** [deleteByCollectionAndPrefix]:
    [DELETE FROM path_contexts WHERE collection_id = ? AND path_prefix = ?]. *)
Definition deleteByCollectionAndPrefix (ctxs : list PathContextRow) (cid : Z) (p : jsstr)
  : list PathContextRow :=
  filter (fun r => negb (key_is cid p r)) ctxs.

Module ContextService.

(** [getContextForPath(collectionName, path)] *)
Definition getContextForPath (cols : list CollectionRow) (ctxs : list PathContextRow)
    (collectionName path : jsstr) : option jsstr :=
  match getByName cols collectionName with
  | None => None
  | Some collection => Store.getContextForPath ctxs (coll_id collection) path
  end.

(** [setContext(collectionName, pathPrefix, context)] *)
Definition setContext (cols : list CollectionRow) (ctxs : list PathContextRow) (newId : Z)
    (collectionName pathPrefix context : jsstr) : result (list PathContextRow) :=
  match getByName cols collectionName with
  | None => Err (of_string "Collection not found: " ++ collectionName)
  | Some collection => Ok (upsert ctxs newId (coll_id collection) pathPrefix context)
  end.

(** [deleteContext(collectionName, pathPrefix)] *)
Definition deleteContext (cols : list CollectionRow) (ctxs : list PathContextRow)
    (collectionName pathPrefix : jsstr) : result (list PathContextRow) :=
  match getByName cols collectionName with
  | None => Err (of_string "Collection not found: " ++ collectionName)
  | Some collection => Ok (deleteByCollectionAndPrefix ctxs (coll_id collection) pathPrefix)
  end.

End ContextService.
End Contexts.

(* ------------------------------------------------------------------ *)
(** ** [extractTitle] of src/utils/content.ts

    The two regular expressions are matched as ECMAScript does: the first
    match position wins, and at that position the quantifiers backtrack
    greedily.  Without the [u] flag, [.] matches any code unit but a
    LineTerminator, and [\s] is [FTS.js_is_space]; with the [m] flag, [^]
    holds at the start and after a LineTerminator, and [$] at the end and
    before one. *)
Module Title.
Import Store JSMore.

Definition is_line_terminator (c : Z) : bool :=
  (c =? 10) || (c =? 13) || (c =? 0x2028) || (c =? 0x2029).

(** The longest run of [.] at the front. *)
Fixpoint dot_run (s : jsstr) : jsstr :=
  match s with
  | c :: s' => if is_line_terminator c then [] else c :: dot_run s'
  | [] => []
  end.

(** [(.+)$]: greedy [.+] takes the longest run, and [$] holds right after it. *)
Definition dotplus_eol (s : jsstr) : option jsstr :=
  match dot_run s with [] => None | r => Some r end.

(** [\s*(.+)$]: one more [\s] is tried before stopping. *)
Fixpoint ws_star_dot (s : jsstr) : option jsstr :=
  match s with
  | c :: s' =>
      if FTS.js_is_space c then
        match ws_star_dot s' with Some r => Some r | None => dotplus_eol s end
      else dotplus_eol s
  | [] => dotplus_eol []
  end.

(** [\s+(.+)$] *)
Definition ws_plus_dot (s : jsstr) : option jsstr :=
  match s with
  | c :: s' => if FTS.js_is_space c then ws_star_dot s' else None
  | [] => None
  end.

(** [##?\s+(.+)$] at a position: [#?] first tries to take a [#]. *)
Definition heading12 (s : jsstr) : option jsstr :=
  match s with
  | c :: s1 =>
      if c =? 35 then
        match match s1 with
              | c2 :: s2 => if c2 =? 35 then ws_plus_dot s2 else None
              | [] => None
              end with
        | Some r => Some r
        | None => ws_plus_dot s1
        end
      else None
  | [] => None
  end.

(** [##\s+(.+)$] at a position. *)
Definition heading2 (s : jsstr) : option jsstr :=
  match s with
  | c1 :: c2 :: s2 => if (c1 =? 35) && (c2 =? 35) then ws_plus_dot s2 else None
  | _ => None
  end.

(** The first position where [^] holds and the rest of the pattern matches;
    the result is the capture [match[1]]. *)
Fixpoint search_lines (m : jsstr -> option jsstr) (s : jsstr) (bol : bool) : option jsstr :=
  match (if bol then m s else None) with
  | Some r => Some r
  | None => match s with [] => None | c :: s' => search_lines m s' (is_line_terminator c) end
  end.

Definition match_m (m : jsstr -> option jsstr) (s : jsstr) : option jsstr := search_lines m s true.

(** [filename.replace(/\.md$/, "")]: without the [m] flag, [$] is the end. *)
Definition strip_md (f : jsstr) : jsstr :=
  if prefixb (rev (of_string ".md")) (rev f) then rev (skipn 3 (rev f)) else f.

(** The memo emoji U+1F4DD, the surrogate pair D83D DCDD, then " Notes". *)
Definition notes_emoji : jsstr := [0xD83D; 0xDCDD] ++ of_string " Notes".

Definition extractTitle (content filename : jsstr) : jsstr :=
  match match_m heading12 content with
  | Some cap =>
      let title := trim cap in
      if jsstr_eqb title notes_emoji || jsstr_eqb title (of_string "Notes") then
        match match_m heading2 content with
        | Some cap2 => trim cap2
        | None => title
        end
      else title
  | None =>
      match last (split_on 47 (strip_md filename)) [] with
      | [] => filename
      | base => base
      end
  end.

End Title.

(* ================================================================== *)
(** * Properties *)

(* ------------------------------------------------------------------ *)
(** ** Chunker lemmas *)
Module ChunkerFacts.
Import Chunker.

Lemma prefixb_length : forall p l, prefixb p l = true -> (List.length p <= List.length l)%nat.
Proof.
  induction p as [|a p IH]; intros [|b l] H; simpl in *; try lia; try discriminate.
  apply andb_true_iff in H as [_ H]. apply IH in H. lia.
Qed.

Lemma lio_go_bound : forall pat l i acc,
  lio_go pat l i acc = acc \/
  (i <= lio_go pat l i acc /\
   lio_go pat l i acc + Z.of_nat (List.length pat) <= i + Z.of_nat (List.length l)).
Proof.
  intros pat l; induction l as [|c r IH]; intros i acc; simpl.
  - destruct (prefixb pat []) eqn:E; [|now left].
    apply prefixb_length in E. simpl in E. right. lia.
  - destruct (IH (i + 1) (if prefixb pat (c :: r) then i else acc)) as [H|H].
    + rewrite H. destruct (prefixb pat (c :: r)) eqn:E; [|now left].
      apply prefixb_length in E. simpl in E. right. lia.
    + right. lia.
Qed.

(** Every [lastIndexOf] result is -1 or leaves room for the pattern. *)
Lemma lastIndexOf_bound : forall s pat,
  lastIndexOf s pat = -1 \/
  (0 <= lastIndexOf s pat /\
   lastIndexOf s pat + Z.of_nat (List.length pat) <= Z.of_nat (List.length s)).
Proof.
  intros s pat. unfold lastIndexOf.
  destruct (lio_go_bound pat s 0 (-1)) as [H|H]; [now left|right; lia].
Qed.

Lemma lastIndexOf_le2 : forall s a b,
  lastIndexOf s [a; b] <= Z.max (-1) (Z.of_nat (List.length s) - 2).
Proof.
  intros s a b. destruct (lastIndexOf_bound s [a; b]) as [H|H]; simpl in H; lia.
Qed.

Lemma break_point_le : forall sl, break_point sl <= Z.of_nat (List.length sl).
Proof.
  intros sl. unfold break_point.
  pose proof (lastIndexOf_le2 sl nl nl) as Hp.
  pose proof (lastIndexOf_le2 sl 46 sp). pose proof (lastIndexOf_le2 sl 46 nl).
  pose proof (lastIndexOf_le2 sl 63 sp). pose proof (lastIndexOf_le2 sl 63 nl).
  pose proof (lastIndexOf_le2 sl 33 sp). pose proof (lastIndexOf_le2 sl 33 nl).
  destruct (lastIndexOf_bound sl [nl]) as [Hl|Hl];
  destruct (lastIndexOf_bound sl [sp]) as [Hs|Hs]; simpl in Hl, Hs;
  repeat match goal with |- context [if ?c then _ else _] => destruct c eqn:? end;
  rewrite ?Z.ltb_lt, ?Z.ltb_ge in *; lia.
Qed.

Lemma fit_le : forall m bc l, (fit m bc l <= List.length l)%nat.
Proof.
  intros m bc l; revert bc; induction l as [|c r IH]; intros bc; simpl; [lia|].
  destruct (bc <? m); [|lia]. destruct (m <? bc + cu_bytes c); [lia|].
  specialize (IH (bc + cu_bytes c)). lia.
Qed.

Lemma slice_length : forall (s : jsstr) a b,
  List.length (slice s a b) = Nat.min (b - a) (List.length s - a).
Proof. intros. unfold JSString.slice. rewrite length_firstn, length_skipn. reflexivity. Qed.

(** [next_end] either takes the zero-advance guard or cuts inside what
    the inner loop took. *)
Lemma next_end_cases : forall m content cp,
  next_end m content cp = S cp \/
  (cp < next_end m content cp <= cp + fit m 0 (skipn cp content))%nat.
Proof.
  intros m content cp. unfold next_end.
  set (e0 := (cp + fit m 0 (skipn cp content))%nat).
  set (e1 := if Nat.ltb e0 (List.length content) && Nat.ltb cp e0 then
      let bp := break_point (slice content cp e0) in
      if 0 <? bp then (cp + Z.to_nat bp)%nat else e0 else e0).
  assert (H1 : (e1 <= e0)%nat).
  { unfold e1. destruct (Nat.ltb e0 (List.length content) && Nat.ltb cp e0) eqn:E; [|lia].
    apply andb_true_iff in E as [_ E]. apply Nat.ltb_lt in E. simpl.
    pose proof (break_point_le (slice content cp e0)) as Hb.
    rewrite slice_length in Hb.
    destruct (0 <? break_point _) eqn:Ez; [|lia]. apply Z.ltb_lt in Ez. lia. }
  destruct (Nat.leb e1 cp) eqn:E; [now left|].
  apply Nat.leb_gt in E. right. lia.
Qed.

(** [next_end] always advances and never passes the end of the body. *)
Lemma next_end_range : forall m content cp,
  (cp < List.length content)%nat ->
  (cp < next_end m content cp <= List.length content)%nat.
Proof.
  intros m content cp Hcp.
  pose proof (fit_le m 0 (skipn cp content)) as Hf. rewrite length_skipn in Hf.
  destruct (next_end_cases m content cp) as [H|H]; lia.
Qed.

Lemma firstn_skipn_add : forall (l : jsstr) a k,
  firstn k (skipn a l) ++ skipn (a + k) l = skipn a l.
Proof.
  intros l a k. transitivity (firstn k (skipn a l) ++ skipn k (skipn a l)).
  - f_equal. rewrite skipn_skipn. f_equal. lia.
  - apply firstn_skipn.
Qed.

(** The loop from [charPos] covers exactly [content.slice(charPos)], each
    chunk being the slice of the body at its own position. *)
Lemma chunk_loop_partition : forall m content fuel cp,
  (List.length content - cp <= fuel)%nat ->
  List.concat (map text (chunk_loop fuel m content cp)) = skipn cp content /\
  Forall (fun c => slice content (pos c) (pos c + List.length (text c)) = text c)
         (chunk_loop fuel m content cp).
Proof.
  intros m content fuel. induction fuel as [|f IH]; intros cp Hf; simpl.
  - split; [|constructor]. symmetry. apply skipn_all2. lia.
  - destruct (Nat.ltb cp (List.length content)) eqn:Hlt.
    + apply Nat.ltb_lt in Hlt.
      pose proof (next_end_range m content cp Hlt) as [Ha Hb].
      destruct (IH (next_end m content cp)) as [IHc IHf]; [lia|].
      split.
      * simpl. rewrite IHc. unfold JSString.slice.
        replace (next_end m content cp) with (cp + (next_end m content cp - cp))%nat at 2 by lia.
        apply firstn_skipn_add.
      * constructor; [|exact IHf]. simpl. rewrite slice_length.
        unfold JSString.slice. f_equal. lia.
    + apply Nat.ltb_ge in Hlt. split; [|constructor].
      symmetry. apply skipn_all2. lia.
Qed.

Lemma cu_bytes_range : forall c, 1 <= cu_bytes c <= 3.
Proof. intros c. unfold cu_bytes. destruct (c <? 0x80); [lia|]. destruct (c <? 0x800); lia. Qed.

Lemma cu_sum_nonneg : forall s, 0 <= cu_sum s.
Proof. induction s; simpl; [lia|]. pose proof (cu_bytes_range a). lia. Qed.

(** The byte count of the inner loop never underestimates the encoder's. *)
Lemma utf8_len_le_cu_sum : forall s, utf8_len s <= cu_sum s.
Proof.
  intros s. remember (List.length s) as n eqn:Hn.
  revert s Hn. induction n as [n IH] using (well_founded_induction lt_wf).
  intros [|c r] Hn; cbn [utf8_len cu_sum]; [lia|].
  destruct (is_high_surrogate c) eqn:Hh.
  - assert (Hc : cu_bytes c = 3).
    { unfold is_high_surrogate in Hh. apply andb_true_iff in Hh as [Hh _].
      apply Z.leb_le in Hh. unfold cu_bytes.
      destruct (c <? 0x80) eqn:E1; [apply Z.ltb_lt in E1; lia|].
      destruct (c <? 0x800) eqn:E2; [apply Z.ltb_lt in E2; lia|reflexivity]. }
    rewrite Hc. destruct r as [|d r']; [cbn [cu_sum]; lia|].
    cbn [cu_sum]. pose proof (cu_bytes_range d).
    destruct (is_low_surrogate d).
    + assert (utf8_len r' <= cu_sum r') by (refine (IH _ _ _ eq_refl); cbn [List.length] in *; lia). lia.
    + assert (utf8_len (d :: r') <= cu_sum (d :: r')) by (refine (IH _ _ _ eq_refl); cbn [List.length] in *; lia).
      cbn [cu_sum utf8_len] in *. lia.
  - assert (utf8_len r <= cu_sum r) by (refine (IH _ _ _ eq_refl); cbn [List.length] in *; lia). lia.
Qed.

Lemma cu_sum_firstn_mono : forall s k k', (k <= k')%nat ->
  cu_sum (firstn k s) <= cu_sum (firstn k' s).
Proof.
  induction s as [|c r IH]; intros k k' H; destruct k, k'; simpl; try lia.
  - pose proof (cu_sum_nonneg (firstn k' r)). pose proof (cu_bytes_range c). lia.
  - specialize (IH k k'). lia.
Qed.

(** What the inner loop takes stays within the budget. *)
Lemma fit_cu_sum : forall m bc l, bc <= m ->
  bc + cu_sum (firstn (fit m bc l) l) <= m.
Proof.
  intros m bc l; revert bc; induction l as [|c r IH]; intros bc Hbc; simpl; [lia|].
  destruct (bc <? m); [|simpl; lia].
  destruct (m <? bc + cu_bytes c) eqn:E; [simpl; lia|].
  apply Z.ltb_ge in E. simpl. specialize (IH (bc + cu_bytes c) E). lia.
Qed.

Lemma utf8_len_single : forall c, utf8_len [c] <= 3.
Proof.
  intros c. simpl. destruct (is_high_surrogate c); [lia|].
  pose proof (cu_bytes_range c). lia.
Qed.

(** A chunk of the loop either fits in [maxBytes] or is one code unit. *)
Lemma chunk_loop_size : forall m content fuel cp, 0 <= m ->
  Forall (fun c => utf8_len (text c) <= m \/ List.length (text c) = 1%nat)
         (chunk_loop fuel m content cp).
Proof.
  intros m content fuel. induction fuel as [|f IH]; intros cp Hm; simpl; [constructor|].
  destruct (Nat.ltb cp (List.length content)) eqn:Hlt; [|constructor].
  apply Nat.ltb_lt in Hlt. constructor; [|apply IH; exact Hm]. simpl.
  pose proof (fit_le m 0 (skipn cp content)) as Hf. rewrite length_skipn in Hf.
  pose proof (fit_cu_sum m 0 (skipn cp content) Hm) as Hs.
  destruct (next_end_cases m content cp) as [E|E]; rewrite ?E.
  - right. rewrite slice_length. lia.
  - left. unfold JSString.slice. eapply Z.le_trans; [apply utf8_len_le_cu_sum|].
    eapply Z.le_trans; [apply (cu_sum_firstn_mono _ _ (fit m 0 (skipn cp content)))|].
    + lia.
    + lia.
Qed.

End ChunkerFacts.

(* ------------------------------------------------------------------ *)
(** ** Claims about the chunker *)
Module ChunkerClaims.
Import Chunker ChunkerFacts.

(** C1: for every body and every positive byte limit, the chunk texts of
    [chunkDocument] concatenate back to the body, and every chunk [c] is the
    slice of the body of length [c.text.length] starting at index [c.pos]. *)
Theorem chunkDocument_partition (body : jsstr) (maxBytes : Z) (Hm : 0 < maxBytes) :
  List.concat (map text (chunkDocument body maxBytes)) = body /\
  Forall (fun c => slice body (pos c) (pos c + List.length (text c)) = text c)
         (chunkDocument body maxBytes).
Proof.
  unfold chunkDocument. destruct (utf8_len body <=? maxBytes).
  - simpl. rewrite app_nil_r. split; [reflexivity|].
    constructor; [|constructor]. simpl. unfold JSString.slice.
    rewrite Nat.sub_0_r. apply firstn_all.
  - destruct (chunk_loop_partition maxBytes body (List.length body) 0) as [H1 H2]; [lia|].
    split; [exact H1|exact H2].
Qed.

Lemma chunkDocument_partition_witness :
  0 < 8 /\
  List.concat (map text (chunkDocument (of_string "hello world. foo bar baz") 8))
    = of_string "hello world. foo bar baz".
Proof.
  split; [lia|]. apply (chunkDocument_partition (of_string "hello world. foo bar baz") 8). lia.
Defined.

(** C6 (as stated): every chunk fits in the byte limit.  With limit 1 and
    the body "éé" (two code units U+00E9, two UTF-8 bytes each), the
    zero-advance guard emits the chunk "é" of 2 bytes. *)
Lemma chunkDocument_size_counterexample :
  ~ (forall c, In c (chunkDocument [233; 233] 1) -> utf8_len (text c) <= 1).
Proof.
  intros H. specialize (H (mkChunk [233] 0)).
  assert (Hc : utf8_len [233] <= 1) by (apply H; vm_compute; left; reflexivity).
  vm_compute in Hc. apply Hc. reflexivity.
Qed.

(** C6 (amended): for a non-negative limit every chunk fits in the limit
    unless it is a single UTF-16 code unit (the zero-advance guard); with a
    limit of at least 3 bytes, in particular the default [MAX_CHUNK_BYTES],
    every chunk fits; and a body of at most [maxBytes] UTF-8 bytes is
    returned as the single chunk [(0, body)]. *)
Theorem chunkDocument_size (body : jsstr) (maxBytes : Z) (Hm : 0 <= maxBytes) :
  Forall (fun c => utf8_len (text c) <= maxBytes \/ List.length (text c) = 1%nat)
         (chunkDocument body maxBytes) /\
  (3 <= maxBytes -> Forall (fun c => utf8_len (text c) <= maxBytes)
                           (chunkDocument body maxBytes)) /\
  (utf8_len body <= maxBytes -> chunkDocument body maxBytes = [mkChunk body 0]).
Proof.
  assert (Hall : Forall (fun c => utf8_len (text c) <= maxBytes \/ List.length (text c) = 1%nat)
                        (chunkDocument body maxBytes)).
  { unfold chunkDocument. destruct (utf8_len body <=? maxBytes) eqn:E.
    - constructor; [|constructor]. left. apply Z.leb_le in E. exact E.
    - apply chunk_loop_size. exact Hm. }
  split; [exact Hall|split].
  - intros H3. eapply Forall_impl; [|exact Hall]. intros [t p] [Hc|Hc]; [exact Hc|].
    simpl in *. destruct t as [|c [|d t]]; simpl in Hc; try discriminate.
    pose proof (utf8_len_single c). lia.
  - intros H. unfold chunkDocument. apply Z.leb_le in H. rewrite H. reflexivity.
Qed.

Lemma chunkDocument_size_witness :
  0 <= MAX_CHUNK_BYTES /\
  chunkDocument (of_string "short body") MAX_CHUNK_BYTES = [mkChunk (of_string "short body") 0].
Proof.
  split; [unfold MAX_CHUNK_BYTES; lia|].
  apply (chunkDocument_size (of_string "short body") MAX_CHUNK_BYTES).
  - unfold MAX_CHUNK_BYTES; lia.
  - vm_compute. discriminate.
Defined.

End ChunkerClaims.

(* ------------------------------------------------------------------ *)
(** ** FTS query lemmas and claims *)
Module FTSClaims.
Import FTS.

Lemma split_go_pieces : forall s cur b,
  Forall (fun c => js_is_space c = false) cur ->
  Forall (fun t => Forall (fun c => js_is_space c = false) t) (split_go s cur b) /\
  List.concat (split_go s cur b) = rev cur ++ filter (fun c => negb (js_is_space c)) s.
Proof.
  induction s as [|c r IH]; intros cur b Hcur; simpl.
  - split; [constructor; [apply Forall_rev; exact Hcur|constructor]|].
    rewrite !app_nil_r. reflexivity.
  - destruct (js_is_space c) eqn:Hc; simpl.
    + destruct b.
      * apply IH. exact Hcur.
      * destruct (IH [] true (Forall_nil _)) as [H1 H2]. split.
        -- constructor; [apply Forall_rev; exact Hcur|exact H1].
        -- simpl. rewrite H2. reflexivity.
    + destruct (IH (c :: cur) false) as [H1 H2]; [constructor; assumption|].
      split; [exact H1|]. rewrite H2. simpl. rewrite <- app_assoc. reflexivity.
Qed.

Lemma split_ws_pieces : forall q,
  Forall (fun t => Forall (fun c => js_is_space c = false) t) (split_ws q) /\
  List.concat (split_ws q) = filter (fun c => negb (js_is_space c)) q.
Proof. intros q. apply (split_go_pieces q [] false (Forall_nil _)). Qed.

(** C5: the query is cut at whitespace runs (no piece holds whitespace and
    the pieces hold exactly the non-whitespace characters, in order); each
    piece is sanitized by removing what is not a letter, a number or an
    apostrophe and lowercasing; with no non-empty term left (e.g. the input
    "  ") no MATCH query is run and the result is empty; one term T gives
    the query ["T"*]; several give the quoted prefix terms joined by
    [" AND "]. *)
Theorem buildFTS5Query_shape (u : unicode) {Row : Type} (db : list Z -> list Row) (q : list Z) :
  (Forall (fun t => Forall (fun c => js_is_space c = false) t) (split_ws q) /\
   List.concat (split_ws q) = filter (fun c => negb (js_is_space c)) q) /\
  fts_terms u q =
    filter (fun t => Nat.ltb 0 (List.length t))
      (map (fun w => toLowerCase u
              (filter (fun c => isLetter u c || isNumber u c || (c =? 39)) w))
           (split_ws q)) /\
  (fst (searchFTS u db q) = [] <-> fts_terms u q = []) /\
  (fts_terms u q = [] -> snd (searchFTS u db q) = []) /\
  (forall T, fts_terms u q = [T] -> buildFTS5Query u q = Some ([34] ++ T ++ [34; 42])) /\
  (forall T1 T2 rest, fts_terms u q = T1 :: T2 :: rest ->
     buildFTS5Query u q =
       Some (join AND_sep (map (fun t => [34] ++ t ++ [34; 42]) (T1 :: T2 :: rest)))) /\
  searchFTS u db (of_string "  ") = ([], []).
Proof.
  split; [apply split_ws_pieces|]. split; [reflexivity|].
  unfold searchFTS, buildFTS5Query.
  split; [|split; [|split; [|split]]].
  - destruct (fts_terms u q) as [|t [|t' r]]; simpl; split; congruence.
  - intros H. rewrite H. reflexivity.
  - intros T H. rewrite H. reflexivity.
  - intros T1 T2 rest H. rewrite H. reflexivity.
  - reflexivity.
Qed.

Lemma flat_map_lower_no_quote : forall (u : unicode) s,
  Forall (fun c => keep u c = true) s -> ~ In 34 (toLowerCase u s).
Proof.
  intros u s Hs Hin. unfold toLowerCase in Hin. apply in_flat_map in Hin as [c [Hc H34]].
  apply (lowerCp_quote u) in H34. subst c.
  rewrite Forall_forall in Hs. specialize (Hs 34 Hc).
  unfold keep in Hs. rewrite (quote_not_letter u), (quote_not_number u) in Hs. discriminate.
Qed.

Lemma join_single : forall sep t, join sep [t] = t.
Proof. reflexivity. Qed.

(** C10 (as stated): every term of the MATCH string consists of letters,
    digits and apostrophes only.  For the query "İ" (U+0130, a letter), the
    term is stripped first and lowercased afterwards, giving "i" followed by
    U+0307 COMBINING DOT ABOVE, which is neither. *)
Lemma buildFTS5Query_charset_counterexample :
  buildFTS5Query sample_unicode [0x130] = Some (quote [0x69; 0x307]) /\
  keep sample_unicode 0x307 = false /\
  ~ Forall (fun t => Forall (fun c => keep sample_unicode c = true) t)
      (fts_terms sample_unicode [0x130]).
Proof.
  split; [vm_compute; reflexivity|]. split; [vm_compute; reflexivity|].
  vm_compute. intros H. inversion H as [|x l Hx _]. inversion Hx as [|y l' _ Hy].
  inversion Hy as [|z l'' Hz _]. discriminate Hz.
Qed.

(** C10 (amended): the MATCH string is [null] (no query is run) or the
    [" AND "]-join of one or more double-quoted prefix terms; each term is
    non-empty, is the lowercase form of the letters, digits and apostrophes
    of one whitespace-free piece of the input, and contains no double quote;
    so every character from the input stays inside the quoting. *)
Theorem buildFTS5Query_quoting (u : unicode) (q : list Z) :
  buildFTS5Query u q = None \/
  exists ts, ts <> [] /\
    buildFTS5Query u q = Some (join AND_sep (map quote ts)) /\
    Forall (fun t => t <> [] /\ ~ In 34 t /\
              exists w, In w (split_ws q) /\
                t = toLowerCase u (filter (keep u) w) /\
                Forall (fun c => keep u c = true) (filter (keep u) w)) ts.
Proof.
  assert (Hts : Forall (fun t => t <> [] /\ ~ In 34 t /\
              exists w, In w (split_ws q) /\
                t = toLowerCase u (filter (keep u) w) /\
                Forall (fun c => keep u c = true) (filter (keep u) w)) (fts_terms u q)).
  { apply Forall_forall. intros t Ht. unfold fts_terms in Ht.
    apply filter_In in Ht as [Ht Hlen]. apply in_map_iff in Ht as [w [Hw Hin]].
    assert (Hk : Forall (fun c => keep u c = true) (filter (keep u) w)).
    { apply Forall_forall. intros c Hc. apply filter_In in Hc. apply Hc. }
    split; [|split].
    - intros ->. discriminate Hlen.
    - subst t. apply flat_map_lower_no_quote. exact Hk.
    - exists w. split; [exact Hin|split; [symmetry; exact Hw|exact Hk]]. }
  unfold buildFTS5Query. destruct (fts_terms u q) as [|t [|t' r]] eqn:E.
  - left. reflexivity.
  - right. exists [t]. split; [discriminate|split; [reflexivity|exact Hts]].
  - right. exists (t :: t' :: r). split; [discriminate|split; [reflexivity|exact Hts]].
Qed.

End FTSClaims.

(* ------------------------------------------------------------------ *)
(** ** Store lemmas and claims *)
Module StoreClaims.
Import Store.

Lemma jsstr_eqb_eq : forall a b, jsstr_eqb a b = true <-> a = b.
Proof.
  induction a as [|x a IH]; intros [|y b]; simpl; split; intros H;
    try discriminate; try reflexivity.
  - apply andb_true_iff in H as [H1 H2]. apply Z.eqb_eq in H1. apply IH in H2. congruence.
  - injection H as -> ->. apply andb_true_iff. split; [apply Z.eqb_refl|apply IH; reflexivity].
Qed.

Lemma jsstr_eqb_refl : forall a, jsstr_eqb a a = true.
Proof. intros a. apply jsstr_eqb_eq. reflexivity. Qed.

(** Scenario 6 of the specification: the root context and a sub-directory one. *)
Example getContextForPath_inheritance :
  let ctxs := [mkPathContext 1 7 [] (of_string "root"); mkPathContext 2 7 (of_string "docs") (of_string "sub")] in
  getContextForPath ctxs 7 (of_string "docs/intro.md") = Some (of_string "sub") /\
  getContextForPath ctxs 7 (of_string "README.md") = Some (of_string "root").
Proof. vm_compute. split; reflexivity. Qed.

(** C7 (code bug): the prefix test is [path LIKE path_prefix || '/%'] with
    the stored prefix used as a LIKE pattern.  The only stored prefix "d_cs"
    is neither equal to "docs/intro.md" nor followed by "/" at its start, so
    the claim asks for [null]; the code returns its context, because [_]
    matches any character. *)
Theorem getContextForPath_like_pattern :
  let ctxs := [mkPathContext 1 7 (of_string "d_cs") (of_string "sub")] in
  let path := of_string "docs/intro.md" in
  getContextForPath ctxs 7 path = Some (of_string "sub") /\
  Forall (fun r => path <> path_prefix r /\
                   ~ (exists rest, path = path_prefix r ++ [47] ++ rest) /\
                   path_prefix r <> []) ctxs.
Proof.
  split; [vm_compute; reflexivity|].
  constructor; [|constructor]. simpl. split; [|split].
  - discriminate.
  - intros [rest H]. discriminate H.
  - discriminate.
Qed.

(** C8 (code bug): [CollectionManager.create] for "/b/notes" with no name
    generates "notes", finds the existing collection "notes" and throws;
    [getOrCreateCollection] on the same table appends "-2". *)
Theorem create_generated_name_collision :
  let cols := [mkCollection 1 (of_string "notes") (of_string "/a/notes") (of_string "**/*.md")] in
  default_name (of_string "/b/notes") = of_string "notes" /\
  create cols (of_string "/b/notes") (of_string "**/*.md") [] =
    Err (of_string "Collection 'notes' already exists") /\
  getOrCreateCollection cols (of_string "/b/notes") (of_string "**/*.md") [] =
    (2, cols ++ [mkCollection 2 (of_string "notes-2") (of_string "/b/notes") (of_string "**/*.md")]).
Proof. vm_compute. split; [reflexivity|split; reflexivity]. Qed.

Lemma filter_filter_comm {A} (f g : A -> bool) (l : list A) :
  filter f (filter g l) = filter (fun x => f x && g x) l.
Proof.
  induction l as [|x l IH]; simpl; [reflexivity|].
  destruct (g x) eqn:Eg; simpl; destruct (f x) eqn:Ef; simpl; rewrite ?IH; reflexivity.
Qed.

(** Cleanup keeps every active document. *)
Lemma cleanup_active_docs : forall tc st,
  filter (fun d => active d =? 1) (documents (snd (cleanupOrphanedContent tc st))) =
  filter (fun d => active d =? 1) (documents st).
Proof.
  intros tc [cs ds]. simpl. rewrite filter_filter_comm.
  apply filter_ext_in. intros d Hd.
  destruct (active d =? 1) eqn:Ea; [|reflexivity]. simpl.
  destruct (existsb _ _) eqn:Ex; [|reflexivity]. exfalso.
  apply existsb_exists in Ex as [r [Hr Heq]].
  apply filter_In in Hr as [_ Hr]. apply jsstr_eqb_eq in Heq.
  unfold referenced in Hr. rewrite Heq in Hr.
  assert (Hin : existsb (jsstr_eqb (d_hash d)) (active_hashes ds) = true).
  { apply existsb_exists. exists (d_hash d). split; [|apply jsstr_eqb_refl].
    unfold active_hashes. apply in_map. apply filter_In. split; assumption. }
  rewrite Hin in Hr. discriminate.
Qed.

(** A document on the hash of a deleted content row is inactive. *)
Lemma cleanup_cascaded_inactive : forall st d,
  In d (documents st) ->
  existsb (fun r => jsstr_eqb (c_hash r) (d_hash d))
    (filter (fun r => negb (referenced (documents st) (c_hash r))) (content st)) = true ->
  active d <> 1.
Proof.
  intros st d Hd Hx Ha. apply existsb_exists in Hx as [r [Hr Heq]].
  apply filter_In in Hr as [_ Hr]. apply jsstr_eqb_eq in Heq.
  rewrite Heq in Hr. unfold referenced in Hr.
  assert (Hin : existsb (jsstr_eqb (d_hash d)) (active_hashes (documents st)) = true).
  { apply existsb_exists. exists (d_hash d). split; [|apply jsstr_eqb_refl].
    unfold active_hashes. apply in_map. apply filter_In. split; [exact Hd|]. rewrite Ha. reflexivity. }
  rewrite Hin in Hr. discriminate.
Qed.

Lemma list_sum_map_S_zero {A} (f : A -> nat) : forall l,
  list_sum (map (fun x => S (f x)) l) = 0%nat <-> l = [].
Proof. intros [|x l]; simpl; split; intros H; try reflexivity; discriminate. Qed.



End StoreClaims.

(* ------------------------------------------------------------------ *)
(** ** Rerank lemmas and claims *)
Module RerankClaims.
Import Rerank.

Section Runtime.
Variable toLowerCase : jsstr -> jsstr.
Variable trim : jsstr -> jsstr.
Variable generate : RerankDocument -> option GenerateResult.

Lemma batch_loop_map : forall docs bs fuel i, (0 < bs)%nat ->
  (List.length docs - i <= fuel)%nat ->
  batch_loop toLowerCase trim generate fuel bs docs i =
  map (rerankSingle toLowerCase trim generate) (skipn i docs).
Proof.
  intros docs bs fuel. induction fuel as [|f IH]; intros i Hbs Hf; simpl.
  - rewrite skipn_all2 by lia. reflexivity.
  - destruct (Nat.ltb i (List.length docs)) eqn:Hi.
    + apply Nat.ltb_lt in Hi. rewrite IH by lia.
      rewrite <- map_app. f_equal.
      rewrite <- (firstn_skipn bs (skipn i docs)) at 2. f_equal.
      rewrite skipn_skipn. f_equal. lia.
    + apply Nat.ltb_ge in Hi. rewrite skipn_all2 by lia. reflexivity.
Qed.

Lemma rerankerLogprobsCheck_map : forall docs bs,
  rerankerLogprobsCheck toLowerCase trim generate docs bs =
  map (rerankSingle toLowerCase trim generate) docs.
Proof.
  intros docs bs. unfold rerankerLogprobsCheck.
  rewrite batch_loop_map; [reflexivity| |lia]. destruct bs; lia.
Qed.

Lemma insert_desc_perm : forall x l, Permutation (insert_desc x l) (x :: l).
Proof.
  intros x l. induction l as [|y l IH]; simpl; [reflexivity|].
  destruct (Rle_dec (score y) (score x)); [reflexivity|].
  rewrite IH. apply perm_swap.
Qed.

Lemma sort_desc_perm : forall l, Permutation (sort_desc l) l.
Proof.
  induction l as [|x l IH]; simpl; [reflexivity|].
  rewrite insert_desc_perm. apply perm_skip. exact IH.
Qed.

Definition desc (a b : RerankDocumentResult) : Prop := (score b <= score a)%R.

Lemma insert_desc_sorted : forall x l, Sorted desc l -> Sorted desc (insert_desc x l).
Proof.
  intros x l Hl. induction Hl as [|y l Hl IH Hhd]; simpl.
  - repeat constructor.
  - destruct (Rle_dec (score y) (score x)) as [Hle|Hgt].
    + constructor; [constructor; assumption|constructor; exact Hle].
    + constructor; [exact IH|].
      destruct l as [|z l]; simpl.
      * constructor. unfold desc. lra.
      * destruct (Rle_dec (score z) (score x)).
        -- constructor. unfold desc. lra.
        -- inversion Hhd. constructor. assumption.
Qed.

Lemma sort_desc_sorted : forall l, Sorted desc (sort_desc l).
Proof.
  induction l as [|x l IH]; simpl; [constructor|]. apply insert_desc_sorted. exact IH.
Qed.

(** The score the specification assigns to a single-token answer. *)
Definition token_score (tok : jsstr) (conf : R) : R :=
  if startsWith tok (of_string "yes") then (1/2 + 1/2 * conf)%R
  else if startsWith tok (of_string "no") then (1/2 * (1 - conf))%R
  else (3/10)%R.

(** C3 (amended): the result of a document answered by the model has
    confidence [exp(logprob)] (the logprob of the first token, 0 when absent)
    and the score [0.5 + 0.5 confidence] for an answer (lowercased, trimmed)
    starting with "yes", [0.5 (1 - confidence)] for "no" and 0.3 otherwise; a
    failed call ([null]) gives [relevant = false], confidence 0 and score 0,
    without raising; the rerank result is a permutation of the per-document
    results, sorted by descending score. *)
Theorem rerank_scores (docs : list RerankDocument) (batchSize : nat) :
  Permutation (rerank toLowerCase trim generate docs batchSize)
              (map (rerankSingle toLowerCase trim generate) docs) /\
  Sorted desc (rerank toLowerCase trim generate docs batchSize) /\
  (forall d, generate d = None ->
     relevant (rerankSingle toLowerCase trim generate d) = false /\
     confidence (rerankSingle toLowerCase trim generate d) = 0%R /\
     score (rerankSingle toLowerCase trim generate d) = 0%R) /\
  (forall d g, generate d = Some g ->
     confidence (rerankSingle toLowerCase trim generate d) = exp (first_logprob g) /\
     score (rerankSingle toLowerCase trim generate d) =
       token_score (trim (toLowerCase (g_text g))) (exp (first_logprob g))).
Proof.
  split; [|split; [|split]].
  - unfold rerank. rewrite sort_desc_perm. rewrite rerankerLogprobsCheck_map. reflexivity.
  - apply sort_desc_sorted.
  - intros d Hd. unfold rerankSingle. rewrite Hd. simpl. split; [reflexivity|split; reflexivity].
  - intros d g Hd. unfold rerankSingle. rewrite Hd. unfold parseRerankResponse, token_score.
    destruct (startsWith _ (of_string "yes")); [simpl; split; reflexivity|].
    destruct (startsWith _ (of_string "no")); simpl; split; reflexivity.
Qed.

End Runtime.

(** C3 (as stated): a failed call contributes a neutral score.  The code
    calls 0.3 the neutral score (the unknown-token branch); a failed call
    gets 0, the score of a confident "no". *)
Lemma rerank_failed_call_counterexample :
  let d := mkRerankDocument (of_string "qmd://notes/a.md") [] (of_string "body") in
  score (rerankSingle (fun s => s) (fun s => s) (fun _ => None) d) = 0%R /\
  score (rerankSingle (fun s => s) (fun s => s)
           (fun _ => Some (mkGenerateResult (of_string "maybe") None)) d) = (3/10)%R /\
  (0 <> 3/10)%R.
Proof.
  simpl. split; [reflexivity|split; [|lra]].
  unfold rerankSingle, parseRerankResponse. vm_compute. reflexivity.
Qed.

End RerankClaims.

(* ------------------------------------------------------------------ *)
(** ** Vector search lemmas and claim *)
Module VectorClaims.
Import Vector.
Open Scope Q_scope.

Section WithDb.
Variable info : jsstr -> option DocInfo.

(** The grouping key of a KNN row: its addressable document, if any. *)
Definition key (r : VectorSearchResult) : option jsstr := option_map filepath (info (v_hash r)).

Lemma map_get_some : forall k m v, map_get k m = Some v -> In (k, v) m.
Proof.
  intros k m v. induction m as [|[k' v'] m IH]; simpl; [discriminate|].
  destruct (Store.jsstr_eqb k' k) eqn:E.
  - intros H. injection H as <-. apply StoreClaims.jsstr_eqb_eq in E. subst. left. reflexivity.
  - intros H. right. apply IH. exact H.
Qed.

Lemma map_get_none : forall k m, map_get k m = None -> ~ In k (map fst m).
Proof.
  intros k m. induction m as [|[k' v'] m IH]; simpl; [auto|].
  destruct (Store.jsstr_eqb k' k) eqn:E; [discriminate|].
  intros H [H'|H'].
  - subst. rewrite StoreClaims.jsstr_eqb_refl in E. discriminate.
  - exact (IH H H').
Qed.

Lemma map_set_keys_in : forall k v m, In k (map fst m) -> map fst (map_set k v m) = map fst m.
Proof.
  intros k v m. induction m as [|[k' v'] m IH]; simpl; [intros []|].
  destruct (Store.jsstr_eqb k' k) eqn:E; simpl; [reflexivity|].
  intros [H|H].
  - subst. rewrite StoreClaims.jsstr_eqb_refl in E. discriminate.
  - rewrite IH by exact H. reflexivity.
Qed.

Lemma map_set_keys_notin : forall k v m, ~ In k (map fst m) -> map fst (map_set k v m) = map fst m ++ [k].
Proof.
  intros k v m. induction m as [|[k' v'] m IH]; simpl; [reflexivity|].
  intros H. destruct (Store.jsstr_eqb k' k) eqn:E.
  - apply StoreClaims.jsstr_eqb_eq in E. subst. exfalso. apply H. left. reflexivity.
  - simpl. rewrite IH; [reflexivity|]. intros H'. apply H. right. exact H'.
Qed.

Lemma in_map_fst_unique : forall (k : jsstr) (v1 v2 : VectorSearchResult * Q) (m : seen_map),
  NoDup (map fst m) -> In (k, v1) m -> In (k, v2) m -> v1 = v2.
Proof.
  intros k v1 v2 m. induction m as [|[k0 v0] m IH]; simpl; intros Hnd H1 H2; [destruct H1|].
  inversion Hnd as [|x l Hnin Hnd']. subst.
  destruct H1 as [H1|H1]; destruct H2 as [H2|H2].
  - injection H1 as -> ->. injection H2 as ->. reflexivity.
  - injection H1 as -> ->. exfalso. apply Hnin. apply (in_map fst) in H2. exact H2.
  - injection H2 as -> ->. exfalso. apply Hnin. apply (in_map fst) in H1. exact H1.
  - apply IH; assumption.
Qed.

Lemma Qle_bool_false_lt : forall x y, Qle_bool x y = false -> y < x.
Proof.
  intros x y H. apply Qnot_le_lt. intros H'. apply Qle_bool_iff in H'. congruence.
Qed.

Lemma map_set_in : forall k v m k' v', NoDup (map fst m) -> In (k', v') (map_set k v m) ->
  (k' = k /\ v' = v) \/ (k' <> k /\ In (k', v') m).
Proof.
  intros k v m. induction m as [|[k0 v0] m IH]; simpl; intros k' v' Hnd H.
  - destruct H as [H|[]]. injection H as <- <-. left. split; reflexivity.
  - inversion Hnd as [|x l Hnin Hnd']. subst.
    destruct (Store.jsstr_eqb k0 k) eqn:E.
    + apply StoreClaims.jsstr_eqb_eq in E. subst k0.
      destruct H as [H|H].
      * injection H as <- <-. left. split; reflexivity.
      * right. split; [|right; exact H].
        intros ->. apply Hnin. apply (in_map fst) in H. exact H.
    + destruct H as [H|H].
      * injection H as <- <-. right. split.
        -- intros ->. rewrite StoreClaims.jsstr_eqb_refl in E. discriminate.
        -- left. reflexivity.
      * destruct (IH k' v' Hnd' H) as [H'|[H1 H2]]; [left; exact H'|right; split; [exact H1|right; exact H2]].
Qed.

Lemma map_set_nodup : forall k v m, NoDup (map fst m) -> NoDup (map fst (map_set k v m)).
Proof.
  intros k v m Hnd. destruct (in_dec (list_eq_dec Z.eq_dec) k (map fst m)) as [Hi|Hi].
  - rewrite map_set_keys_in by exact Hi. exact Hnd.
  - rewrite map_set_keys_notin by exact Hi.
    apply NoDup_app; [exact Hnd|repeat constructor; simpl; tauto|].
    intros x Hx [Hx'|[]]. subst. contradiction.
Qed.

Lemma map_set_new : forall k v m, In (k, v) (map_set k v m).
Proof.
  intros k v m. induction m as [|[k0 v0] m IH]; simpl; [left; reflexivity|].
  destruct (Store.jsstr_eqb k0 k) eqn:E.
  - apply StoreClaims.jsstr_eqb_eq in E. subst. left. reflexivity.
  - right. exact IH.
Qed.

Lemma map_set_other : forall k v m k' v', k' <> k -> In (k', v') m -> In (k', v') (map_set k v m).
Proof.
  intros k v m. induction m as [|[k0 v0] m IH]; simpl; intros k' v' Hne H; [destruct H|].
  destruct (Store.jsstr_eqb k0 k) eqn:E.
  - apply StoreClaims.jsstr_eqb_eq in E. subst k0. destruct H as [H|H].
    + injection H as -> ->. contradiction.
    + right. exact H.
  - destruct H as [H|H]; [left; exact H|right; apply IH; assumption].
Qed.

(** The invariant of the grouping loop after the rows [P]. *)
Definition entry_ok (P : list VectorSearchResult) (e : jsstr * (VectorSearchResult * Q)) : Prop :=
  let '(k, (r, bd)) := e in
  bd = distance r /\ In r P /\ key r = Some k /\
  forall r', In r' P -> key r' = Some k -> distance r <= distance r'.

Definition seen_inv (P : list VectorSearchResult) (seen : seen_map) : Prop :=
  NoDup (map fst seen) /\ Forall (entry_ok P) seen /\
  forall r' k, In r' P -> key r' = Some k -> In k (map fst seen).

Lemma dedup_step_inv : forall P seen r,
  seen_inv P seen -> seen_inv (P ++ [r]) (dedup_step info seen r).
Proof.
  intros P seen r [Hnd [Hok Hcov]].
  assert (HinP : forall x, In x (P ++ [r]) <-> In x P \/ x = r).
  { intros x. rewrite in_app_iff. simpl. intuition. }
  unfold dedup_step. unfold key in *.
  destruct (info (v_hash r)) as [d|] eqn:Hi.
  - set (fp := filepath d).
    assert (Hkr : key r = Some fp) by (unfold key; rewrite Hi; reflexivity).
    (* entries of other keys are unaffected by [r] *)
    assert (Hother : forall e, In e seen -> fst e <> fp -> entry_ok (P ++ [r]) e).
    { intros [k [r0 bd]] He Hne. rewrite Forall_forall in Hok.
      destruct (Hok _ He) as (H1 & H2 & H3 & H4). simpl in Hne.
      split; [exact H1|split; [apply in_or_app; left; exact H2|split; [exact H3|]]].
      intros r' Hr' Hk. apply HinP in Hr' as [Hr' | ->]; [apply H4; assumption|].
      fold (key r) in Hk. rewrite Hkr in Hk. injection Hk as Hk. congruence. }
    destruct (map_get fp seen) as [[r0 bd]|] eqn:Hg.
    + apply map_get_some in Hg.
      rewrite Forall_forall in Hok. destruct (Hok _ Hg) as (H1 & H2 & H3 & H4).
      destruct (Qle_bool bd (distance r)) eqn:Hq.
      * apply Qle_bool_iff in Hq. split; [exact Hnd|split].
        -- apply Forall_forall. intros [k [r1 bd1]] He.
           destruct (list_eq_dec Z.eq_dec k fp) as [->|Hne]; [|apply (Hother _ He Hne)].
           destruct (Hok _ He) as (G1 & G2 & G3 & G4).
           split; [exact G1|split; [apply in_or_app; left; exact G2|split; [exact G3|]]].
           intros r' Hr' Hk. apply HinP in Hr' as [Hr' | ->]; [apply G4; assumption|].
           (* same key, so the same entry as [(r0, bd)] *)
           assert (Heq : (r1, bd1) = (r0, bd)).
           { destruct (in_map_fst_unique fp _ _ _ Hnd He Hg). reflexivity. }
           injection Heq as -> ->. subst bd. exact Hq.
        -- intros r' k Hr' Hk. apply HinP in Hr' as [Hr' | ->]; [apply (Hcov r'); assumption|].
           fold (key r) in Hk. rewrite Hkr in Hk. injection Hk as <-.
           apply (in_map fst) in Hg. exact Hg.
      * apply Qle_bool_false_lt in Hq. split; [apply map_set_nodup; exact Hnd|split].
        -- apply Forall_forall. intros [k [r1 bd1]] He.
           destruct (map_set_in _ _ _ _ _ Hnd He) as [[-> Hv]|[Hne He']].
           ++ injection Hv as -> ->. split; [reflexivity|].
              split; [apply in_or_app; right; left; reflexivity|split; [exact Hkr|]].
              intros r' Hr' Hk. apply HinP in Hr' as [Hr' | ->]; [|apply Qle_refl].
              apply Qle_trans with (distance r0); [apply Qlt_le_weak; subst bd; exact Hq|].
              apply H4; assumption.
           ++ apply (Hother _ He' Hne).
        -- intros r' k Hr' Hk.
           rewrite map_set_keys_in by (apply (in_map fst) in Hg; exact Hg).
           apply HinP in Hr' as [Hr' | ->]; [apply (Hcov r'); assumption|].
           fold (key r) in Hk. rewrite Hkr in Hk. injection Hk as <-.
           apply (in_map fst) in Hg. exact Hg.
    + apply map_get_none in Hg. split; [apply map_set_nodup; exact Hnd|split].
      * apply Forall_forall. intros [k [r1 bd1]] He.
        destruct (map_set_in _ _ _ _ _ Hnd He) as [[-> Hv]|[Hne He']].
        -- injection Hv as -> ->. split; [reflexivity|].
           split; [apply in_or_app; right; left; reflexivity|split; [exact Hkr|]].
           intros r' Hr' Hk. apply HinP in Hr' as [Hr' | ->]; [|apply Qle_refl].
           exfalso. apply Hg. apply (Hcov r'); assumption.
        -- apply (Hother _ He' Hne).
      * intros r' k Hr' Hk. rewrite map_set_keys_notin by exact Hg.
        apply in_or_app.
        apply HinP in Hr' as [Hr' | ->]; [left; apply (Hcov r'); assumption|].
        fold (key r) in Hk. rewrite Hkr in Hk. injection Hk as <-. right. left. reflexivity.
  - split; [exact Hnd|split].
    + rewrite Forall_forall in *. intros [k [r0 bd]] He. destruct (Hok _ He) as (H1 & H2 & H3 & H4).
      split; [exact H1|split; [apply in_or_app; left; exact H2|split; [exact H3|]]].
      intros r' Hr' Hk. apply HinP in Hr' as [Hr' | ->]; [apply H4; assumption|].
      fold (key r) in Hk. unfold key in Hk. rewrite Hi in Hk. discriminate.
    + intros r' k Hr' Hk. apply HinP in Hr' as [Hr' | ->]; [apply (Hcov r'); assumption|].
      unfold key in Hk. rewrite Hi in Hk. discriminate.
Qed.

Lemma dedup_inv_gen : forall l P seen, seen_inv P seen ->
  seen_inv (P ++ l) (fold_left (dedup_step info) l seen).
Proof.
  induction l as [|r l IH]; intros P seen H; simpl.
  - rewrite app_nil_r. exact H.
  - replace (P ++ r :: l) with ((P ++ [r]) ++ l) by (rewrite <- app_assoc; reflexivity).
    apply IH. apply dedup_step_inv. exact H.
Qed.

Lemma dedup_inv : forall R, seen_inv R (dedup info R).
Proof.
  intros R. apply (dedup_inv_gen R []). split; [constructor|split; [constructor|]].
  intros r' k [].
Qed.

Lemma insert_asc_perm : forall x l, Permutation (insert_asc x l) (x :: l).
Proof.
  intros x l. induction l as [|y l IH]; simpl; [reflexivity|].
  destruct (Qle_bool (snd x) (snd y)); [reflexivity|].
  rewrite IH. apply perm_swap.
Qed.

Lemma sort_asc_perm : forall l, Permutation (sort_asc l) l.
Proof.
  induction l as [|x l IH]; simpl; [reflexivity|].
  rewrite insert_asc_perm. apply perm_skip. exact IH.
Qed.

Definition asc (a b : VectorSearchResult * Q) : Prop := snd a <= snd b.

Lemma insert_asc_sorted : forall x l, Sorted asc l -> Sorted asc (insert_asc x l).
Proof.
  intros x l Hl. induction Hl as [|y l Hl IH Hhd]; simpl.
  - repeat constructor.
  - destruct (Qle_bool (snd x) (snd y)) eqn:Hq.
    + constructor; [constructor; assumption|constructor; apply Qle_bool_iff; exact Hq].
    + apply Qle_bool_false_lt in Hq. constructor; [exact IH|].
      destruct l as [|z l]; simpl.
      * constructor. unfold asc. apply Qlt_le_weak. exact Hq.
      * destruct (Qle_bool (snd x) (snd z)).
        -- constructor. unfold asc. apply Qlt_le_weak. exact Hq.
        -- inversion Hhd. constructor. assumption.
Qed.

Lemma sort_asc_sorted : forall l, Sorted asc (sort_asc l).
Proof.
  induction l as [|x l IH]; simpl; [constructor|]. apply insert_asc_sorted. exact IH.
Qed.

Lemma Sorted_map_transfer {A B} (R1 : A -> A -> Prop) (R2 : B -> B -> Prop) (P : A -> Prop) (f : A -> B) :
  (forall a b, P a -> P b -> R1 a b -> R2 (f a) (f b)) ->
  forall l, Sorted R1 l -> Forall P l -> Sorted R2 (map f l).
Proof.
  intros HR l Hs. induction Hs as [|a l Hs IH Hhd]; intros Hp; simpl; [constructor|].
  inversion Hp as [|x y Pa Pl]. subst. constructor; [apply IH; exact Pl|].
  destruct Hhd as [|b l' Hab]; simpl; constructor.
  inversion Pl. apply HR; assumption.
Qed.

End WithDb.

(** C4: with no vec table the result is empty.  Otherwise there is a list
    [S] of KNN rows, one per addressable document met in the answer (keys
    [qmd://{collection}/{path}] pairwise distinct, every resolvable row's
    document represented), each of the smallest distance of its document,
    sorted by ascending distance, such that the result is, for the first
    [limit] rows of [S], the hit with [score = 1 / (1 + distance)],
    [source = "vec"] and [chunkPos = pos] of that row. *)
Theorem searchVector_spec {E : Type} (info : jsstr -> option DocInfo) (embedding : option E)
    (knn : E -> nat -> list VectorSearchResult) (limit : nat) :
  searchVector info false embedding knn limit = [] /\
  forall e, embedding = Some e ->
  let R := knn e (limit * 3)%nat in
  exists S : list VectorSearchResult,
    Forall2 (fun r h => exists d, info (v_hash r) = Some d /\ h = mkHit d r
               /\ file h = filepath d /\ score h = 1 / (1 + distance r)
               /\ source h = vec_source /\ chunkPos h = Some (v_pos r))
            (firstn limit S) (searchVector info true embedding knn limit) /\
    Sorted (fun a b => distance a <= distance b) S /\
    NoDup (map (key info) S) /\
    Forall (fun r => In r R /\ key info r <> None /\
              forall r', In r' R -> key info r' = key info r -> distance r <= distance r') S /\
    (forall r', In r' R -> key info r' <> None -> exists r, In r S /\ key info r = key info r').
Proof.
  split; [reflexivity|]. intros e He R.
  destruct (dedup_inv info R) as [Hnd [Hok Hcov]].
  set (seen := dedup info R) in *.
  set (T := sort_asc (map snd seen)).
  assert (HT : Permutation T (map snd seen)) by apply sort_asc_perm.
  (* every sorted pair carries [bd = distance r] and an entry of [seen] *)
  assert (Hpair : forall p, In p T -> exists k, In (k, p) seen).
  { intros p Hp. apply (Permutation_in _ HT) in Hp. apply in_map_iff in Hp as [[k p'] [<- Hin]].
    exists k. exact Hin. }
  exists (map fst T). split; [|split; [|split; [|split]]].
  - unfold searchVector. simpl. rewrite He. fold R. fold seen. fold T.
    rewrite firstn_map.
    assert (Hsub : forall p, In p (firstn limit T) -> In p T) by (intros p Hp; rewrite <- (firstn_skipn limit T); apply in_or_app; left; exact Hp).
    induction (firstn limit T) as [|[r bd] l IH]; simpl; constructor.
    + destruct (Hpair (r, bd)) as [k Hk]; [apply Hsub; left; reflexivity|].
      rewrite Forall_forall in Hok. destruct (Hok _ Hk) as (_ & _ & Hkey & _).
      unfold key in Hkey. destruct (info (v_hash r)) as [d|] eqn:Hi; [|discriminate].
      exists d. unfold toHit. rewrite Hi. repeat split; reflexivity.
    + apply IH. intros p Hp. apply Hsub. right. exact Hp.
  - apply (Sorted_map_transfer asc _ (fun p => snd p = distance (fst p))).
    + intros [a da] [b db] Ha Hb Hab. unfold asc in Hab. simpl in *. subst. exact Hab.
    + apply sort_asc_sorted.
    + apply Forall_forall. intros [r bd] Hp. destruct (Hpair _ Hp) as [k Hk].
      rewrite Forall_forall in Hok. destruct (Hok _ Hk) as (H1 & _). exact H1.
  - assert (Hkeys : Permutation (map (key info) (map fst T)) (map (fun e => Some (fst e)) seen)).
    { rewrite map_map. transitivity (map (fun p => key info (fst p)) (map snd seen)).
      - apply Permutation_map. exact HT.
      - rewrite map_map. apply Permutation_refl'. apply map_ext_in.
        intros [k [r bd]] Hin. rewrite Forall_forall in Hok.
        destruct (Hok _ Hin) as (_ & _ & H3 & _). exact H3. }
    apply (Permutation_NoDup (Permutation_sym Hkeys)).
    rewrite <- (map_map fst Some). clear -Hnd. induction Hnd as [|x l Hx _ IH]; simpl; constructor; [|exact IH].
    intros Hin. apply Hx. apply in_map_iff in Hin as [y [Hy Hin]]. injection Hy as ->. exact Hin.
  - apply Forall_forall. intros r Hr. apply in_map_iff in Hr as [[r0 bd] [Heq Hp]]. simpl in Heq. subst r0.
    destruct (Hpair _ Hp) as [k Hk]. rewrite Forall_forall in Hok.
    destruct (Hok _ Hk) as (_ & H2 & H3 & H4).
    split; [exact H2|split; [rewrite H3; discriminate|]].
    intros r' Hr' Hkey. rewrite H3 in Hkey. apply H4; assumption.
  - intros r' Hr' Hne. destruct (key info r') as [k|] eqn:Hk; [|contradiction].
    pose proof (Hcov r' k Hr' Hk) as Hin. apply in_map_iff in Hin as [[k' [r bd]] [Heq Hin]].
    simpl in Heq. subst k'.
    exists r. split.
    + apply in_map_iff. exists (r, bd). split; [reflexivity|].
      apply (Permutation_in _ (Permutation_sym HT)). apply in_map_iff. exists (k, (r, bd)). split; [reflexivity|exact Hin].
    + rewrite Forall_forall in Hok. destruct (Hok _ Hin) as (_ & _ & H3 & _). exact H3.
Qed.

Close Scope Q_scope.
End VectorClaims.

(* ------------------------------------------------------------------ *)
(** ** Reciprocal rank fusion *)

Module RRFClaims.
Import RRF.
Open Scope Q_scope.

Lemma eqb_true : forall a b, Store.jsstr_eqb a b = true -> a = b.
Proof. intros a b H. apply StoreClaims.jsstr_eqb_eq. exact H. Qed.

Lemma eqb_false : forall a b, Store.jsstr_eqb a b = false -> a <> b.
Proof. intros a b H ->. rewrite StoreClaims.jsstr_eqb_refl in H. discriminate. Qed.

Lemma map_get_set : forall m g e f,
  map_get (map_set m g e) f = if Store.jsstr_eqb g f then Some e else map_get m f.
Proof.
  induction m as [|[h x] m IH]; intros g e f; simpl.
  - destruct (Store.jsstr_eqb g f); reflexivity.
  - destruct (Store.jsstr_eqb h g) eqn:Hhg.
    + apply eqb_true in Hhg. subst h. simpl. destruct (Store.jsstr_eqb g f); reflexivity.
    + simpl. rewrite IH. destruct (Store.jsstr_eqb h f) eqn:Hhf; [|reflexivity].
      destruct (Store.jsstr_eqb g f) eqn:Hgf; [|reflexivity].
      apply eqb_true in Hhf, Hgf. apply eqb_false in Hhg. congruence.
Qed.

Lemma map_set_keys : forall m g e f,
  In f (map fst (map_set m g e)) <-> f = g \/ In f (map fst m).
Proof.
  induction m as [|[h x] m IH]; intros g e f; simpl.
  - split; intros [H|[]]; left; congruence.
  - destruct (Store.jsstr_eqb h g) eqn:Hhg.
    + apply eqb_true in Hhg. subst h. simpl. split; [tauto|]. intros [->|H]; tauto.
    + simpl. rewrite IH. tauto.
Qed.

Lemma rrf_map_set_nodup : forall m g e, NoDup (map fst m) -> NoDup (map fst (map_set m g e)).
Proof.
  induction m as [|[h x] m IH]; intros g e Hnd; simpl.
  - repeat constructor. intros [].
  - inversion Hnd as [|? ? Hh Hm]. subst.
    destruct (Store.jsstr_eqb h g) eqn:Hhg; simpl; constructor; try assumption.
    + rewrite map_set_keys. intros [->|H]; [|contradiction].
      apply eqb_false in Hhg. congruence.
    + apply IH. exact Hm.
Qed.

Lemma map_get_In : forall m f e, NoDup (map fst m) -> In (f, e) m -> map_get m f = Some e.
Proof.
  induction m as [|[h x] m IH]; intros f e Hnd Hin; simpl; [destruct Hin|].
  inversion Hnd as [|? ? Hh Hm]. subst.
  destruct Hin as [Heq|Hin].
  - injection Heq as -> ->. rewrite StoreClaims.jsstr_eqb_refl. reflexivity.
  - destruct (Store.jsstr_eqb h f) eqn:Hhf.
    + apply eqb_true in Hhf. subst h. exfalso. apply Hh. apply in_map_iff. exists (f, e). auto.
    + apply IH; assumption.
Qed.

Lemma rrf_map_get_none : forall m f, map_get m f = None <-> ~ In f (map fst m).
Proof.
  induction m as [|[h x] m IH]; intros f; simpl; [tauto|].
  destruct (Store.jsstr_eqb h f) eqn:Hhf.
  - apply eqb_true in Hhf. subst h. split; [discriminate|tauto].
  - apply eqb_false in Hhf. rewrite IH. split; [|tauto]. intros H [H'|H']; [congruence|tauto].
Qed.

Lemma ranks_loop_nodup : forall k w results rank m,
  NoDup (map fst m) -> NoDup (map fst (ranks_loop k w rank results m)).
Proof.
  induction results as [|doc rest IH]; intros rank m Hnd; simpl; [exact Hnd|].
  apply IH. destruct (map_get m (file doc)); apply rrf_map_set_nodup; exact Hnd.
Qed.

Lemma lists_loop_nodup : forall k weights lists idx m,
  NoDup (map fst m) -> NoDup (map fst (lists_loop k weights idx lists m)).
Proof.
  induction lists as [|l ls IH]; intros idx m Hnd; simpl; [exact Hnd|].
  apply IH. apply ranks_loop_nodup. exact Hnd.
Qed.

Lemma weight_at_nth : forall weights i, weight_at weights i = nth i weights 1.
Proof.
  induction weights as [|w ws IH]; intros [|i]; unfold weight_at in *; simpl; auto.
Qed.

Lemma rank_in_none : forall d l, rank_in d l = None <-> ~ In d (map file l).
Proof.
  induction l as [|r l IH]; simpl; [tauto|].
  destruct (Store.jsstr_eqb (file r) d) eqn:Hrd.
  - apply eqb_true in Hrd. split; [discriminate|tauto].
  - apply eqb_false in Hrd. transitivity (rank_in d l = None).
    + destruct (rank_in d l); simpl; split; intros H; congruence.
    + rewrite IH. split; intros H; [intros [H'|H']; [congruence|tauto]|intros H'; apply H; right; exact H'].
Qed.

Lemma min_opt_none : forall a b, min_opt a b = None <-> a = None /\ b = None.
Proof. intros [a|] [b|]; simpl; split; intros H; try discriminate; intuition congruence. Qed.

Lemma min_opt_assoc : forall a b c, min_opt a (min_opt b c) = min_opt (min_opt a b) c.
Proof. intros [a|] [b|] [c|]; simpl; try reflexivity. rewrite Nat.min_assoc. reflexivity. Qed.

Lemma best_rank_none : forall lists d,
  best_rank lists d = None <-> ~ exists l, In l lists /\ In d (map file l).
Proof.
  induction lists as [|l ls IH]; intros d; simpl.
  - split; [intros _ [l [[] _]]|reflexivity].
  - rewrite min_opt_none, rank_in_none, IH. split.
    + intros [H1 H2] [l' [[<-|Hl] Hd]]; [tauto|]. apply H2. exists l'. tauto.
    + intros H. split; [intros Hd; apply H; exists l; tauto|].
      intros [l' [Hl Hd]]. apply H. exists l'. tauto.
Qed.

Lemma rank_in_some : forall d l j, rank_in d l = Some j -> In d (map file l).
Proof.
  induction l as [|r l IH]; intros j H; simpl in *; [discriminate|].
  destruct (Store.jsstr_eqb (file r) d) eqn:Hrd.
  - left. apply eqb_true. exact Hrd.
  - right. destruct (rank_in d l) as [j'|]; [apply (IH j'); reflexivity|discriminate].
Qed.

Lemma best_rank_some : forall lists d j, best_rank lists d = Some j ->
  exists l, In l lists /\ In d (map file l).
Proof.
  induction lists as [|l ls IH]; intros d j H; simpl in H; [discriminate|].
  destruct (rank_in d l) as [a|] eqn:Ha.
  - exists l. split; [left; reflexivity|]. apply (rank_in_some d l a Ha).
  - destruct (IH d j H) as [l' [Hl Hd]]. exists l'. split; [right; exact Hl|exact Hd].
Qed.

Lemma map_get_some_in : forall m d e, map_get m d = Some e -> In (d, e) m.
Proof.
  induction m as [|[h x] m IH]; intros d e H; simpl in H; [discriminate|].
  destruct (Store.jsstr_eqb h d) eqn:Hhd.
  - apply eqb_true in Hhd. injection H as <-. left. congruence.
  - right. apply IH. exact H.
Qed.

Lemma bonus_of_spec : forall b, bonus_of b = spec_bonus (Some b).
Proof. intros [|[|[|b]]]; reflexivity. Qed.

Section Fold.
Variable k : Q.
Variable weights : list Q.

Definition proj (e : Entry) : Q * nat := (e_score e, bestRank e).

Definition step_opt (o : option (Q * nat)) (t : Q) (r : nat) : option (Q * nat) :=
  match o with
  | None => Some (t, r)
  | Some (s, b) => Some (s + t, Nat.min b r)
  end.

(** What the inner loop does to the (score, bestRank) of one file. *)
Fixpoint occ_fold (w : Q) (rank : nat) (results : list RankedResult) (d : jsstr) (o : option (Q * nat))
  : option (Q * nat) :=
  match results with
  | [] => o
  | r :: rest =>
      occ_fold w (S rank) rest d
        (if Store.jsstr_eqb (file r) d then step_opt o (w / (k + Q_of_nat rank + 1)) rank else o)
  end.

Fixpoint lists_fold (idx : nat) (lists : list (list RankedResult)) (d : jsstr) (o : option (Q * nat))
  : option (Q * nat) :=
  match lists with
  | [] => o
  | l :: ls => lists_fold (S idx) ls d (occ_fold (weight_at weights idx) 0 l d o)
  end.

Lemma ranks_loop_get : forall w results rank m d,
  option_map proj (map_get (ranks_loop k w rank results m) d)
  = occ_fold w rank results d (option_map proj (map_get m d)).
Proof.
  induction results as [|doc rest IH]; intros rank m d; simpl; [reflexivity|].
  rewrite IH. f_equal.
  destruct (map_get m (file doc)) as [ex|] eqn:Hex;
    rewrite map_get_set; destruct (Store.jsstr_eqb (file doc) d) eqn:Hd; try reflexivity;
    apply eqb_true in Hd; subst d; rewrite Hex; reflexivity.
Qed.

Lemma lists_loop_get : forall lists idx m d,
  option_map proj (map_get (lists_loop k weights idx lists m) d)
  = lists_fold idx lists d (option_map proj (map_get m d)).
Proof.
  induction lists as [|l ls IH]; intros idx m d; simpl; [reflexivity|].
  rewrite IH, ranks_loop_get. reflexivity.
Qed.

Lemma occ_fold_absent : forall w results rank d o,
  ~ In d (map file results) -> occ_fold w rank results d o = o.
Proof.
  induction results as [|r rest IH]; intros rank d o Hd; simpl; [reflexivity|].
  destruct (Store.jsstr_eqb (file r) d) eqn:Hrd.
  - apply eqb_true in Hrd. exfalso. apply Hd. left. exact Hrd.
  - apply IH. intros H. apply Hd. right. exact H.
Qed.

Lemma occ_fold_nodup : forall w results rank d o, NoDup (map file results) ->
  occ_fold w rank results d o
  = match rank_in d results with
    | Some j => step_opt o (w / (k + Q_of_nat (rank + j) + 1)) (rank + j)
    | None => o
    end.
Proof.
  induction results as [|r rest IH]; intros rank d o Hnd; simpl; [reflexivity|].
  inversion Hnd as [|? ? Hr Hrest]. subst.
  destruct (Store.jsstr_eqb (file r) d) eqn:Hrd.
  - apply eqb_true in Hrd. subst d. rewrite occ_fold_absent by exact Hr.
    rewrite Nat.add_0_r. reflexivity.
  - rewrite IH by exact Hrest. destruct (rank_in d rest) as [j|]; simpl; [|reflexivity].
    rewrite Nat.add_succ_r. reflexivity.
Qed.

Definition inv (o : option (Q * nat)) (acc : Q) (B : option nat) : Prop :=
  match o with
  | None => acc == 0 /\ B = None
  | Some (s, b) => s == acc /\ B = Some b
  end.

Lemma inv_proper : forall o acc acc' B, acc == acc' -> inv o acc B -> inv o acc' B.
Proof.
  intros [[s b]|] acc acc' B HS [H1 H2]; split; try exact H2.
  - rewrite H1. exact HS.
  - rewrite <- HS. exact H1.
Qed.

Lemma lists_fold_inv : forall lists idx d o acc B,
  Forall (fun l => NoDup (map file l)) lists -> inv o acc B ->
  inv (lists_fold idx lists d o) (acc + rrf_sum k weights idx lists d) (min_opt B (best_rank lists d)).
Proof.
  induction lists as [|l ls IH]; intros idx d o acc B Hnd Hinv; simpl.
  - destruct B; apply (inv_proper o acc); try (rewrite Qplus_0_r; reflexivity); exact Hinv.
  - inversion Hnd as [|? ? Hl Hls]. subst.
    rewrite occ_fold_nodup by exact Hl. rewrite weight_at_nth.
    set (t := match rank_in d l with Some r => nth idx weights 1 / (k + Q_of_nat r + 1) | None => 0 end).
    assert (Hstep : inv (match rank_in d l with
                         | Some j => step_opt o (nth idx weights 1 / (k + Q_of_nat (0 + j) + 1)) (0 + j)
                         | None => o end) (acc + t) (min_opt B (rank_in d l))).
    { unfold t. destruct (rank_in d l) as [j|]; destruct o as [[s b]|];
        destruct Hinv as [H1 H2]; subst B; simpl; split; try reflexivity.
      - rewrite H1. reflexivity.
      - rewrite H1. rewrite Qplus_0_l. reflexivity.
      - rewrite Qplus_0_r. exact H1.
      - rewrite Qplus_0_r. exact H1. }
    pose proof (IH (S idx) d _ _ _ Hls Hstep) as H.
    rewrite <- min_opt_assoc in H. apply (inv_proper _ _ _ _ (Qeq_sym _ _ (Qplus_assoc acc t _))) in H.
    exact H.
Qed.

End Fold.

Lemma rrf_insert_desc_perm : forall x l, Permutation (insert_desc x l) (x :: l).
Proof.
  intros x l. induction l as [|y l IH]; simpl; [reflexivity|].
  destruct (Qle_bool (score y) (score x)); [reflexivity|].
  rewrite IH. apply perm_swap.
Qed.

Lemma rrf_sort_desc_perm : forall l, Permutation (sort_desc l) l.
Proof.
  induction l as [|x l IH]; simpl; [reflexivity|].
  rewrite rrf_insert_desc_perm. apply perm_skip. exact IH.
Qed.

Definition desc (a b : RankedResult) : Prop := score b <= score a.

Lemma rrf_insert_desc_sorted : forall x l, Sorted desc l -> Sorted desc (insert_desc x l).
Proof.
  intros x l Hl. induction Hl as [|y l Hl IH Hhd]; simpl.
  - repeat constructor.
  - destruct (Qle_bool (score y) (score x)) eqn:Hq.
    + constructor; [constructor; assumption|constructor; apply Qle_bool_iff; exact Hq].
    + apply VectorClaims.Qle_bool_false_lt in Hq. constructor; [exact IH|].
      destruct l as [|z l]; simpl.
      * constructor. unfold desc. apply Qlt_le_weak. exact Hq.
      * destruct (Qle_bool (score z) (score x)).
        -- constructor. unfold desc. apply Qlt_le_weak. exact Hq.
        -- inversion Hhd. constructor. assumption.
Qed.

Lemma rrf_sort_desc_sorted : forall l, Sorted desc (sort_desc l).
Proof.
  induction l as [|x l IH]; simpl; [constructor|]. apply rrf_insert_desc_sorted. exact IH.
Qed.

Lemma map_file_finish : forall M, map file (map finish M) = map fst M.
Proof. induction M as [|[f e] M IH]; simpl; [reflexivity|]. rewrite IH. reflexivity. Qed.

(** C2: when no file occurs twice in one input list, [reciprocalRankFusion]
    returns each file occurring in some list exactly once, with score
    [sum_i w_i / (k + rank_i + 1)] over the lists containing it
    ([w_i = weights[i]], 1 when absent; [rank_i] 0-based) plus the bonus
    0.05 if its best rank is 0, 0.02 if it is 1 or 2, 0 otherwise, sorted by
    descending score.  Proved for every [k]; the default call has [k = 60]
    ([reciprocalRankFusion_default]). Scores are rationals. *)
Theorem reciprocalRankFusion_spec (lists : list (list RankedResult)) (weights : list Q) (k : Q) :
  Forall (fun l => NoDup (map file l)) lists ->
  let out := reciprocalRankFusion lists weights k in
  NoDup (map file out) /\
  (forall d, In d (map file out) <-> exists l, In l lists /\ In d (map file l)) /\
  Forall (fun r => score r == rrf_sum k weights 0 lists (file r) + spec_bonus (best_rank lists (file r))) out /\
  Sorted (fun a b => score b <= score a) out.
Proof.
  intros Hnd out.
  set (M := lists_loop k weights 0 lists []).
  assert (HM : NoDup (map fst M)) by (apply lists_loop_nodup; constructor).
  assert (Hget : forall d, inv (option_map proj (map_get M d)) (0 + rrf_sum k weights 0 lists d)
                             (best_rank lists d)).
  { intros d. unfold M. rewrite lists_loop_get. simpl.
    apply (lists_fold_inv k weights lists 0 d None 0 None Hnd). split; reflexivity. }
  assert (Hperm : Permutation (map file out) (map fst M)).
  { unfold out, reciprocalRankFusion. fold M. rewrite <- map_file_finish.
    apply Permutation_map. apply rrf_sort_desc_perm. }
  split; [|split; [|split]].
  - apply (Permutation_NoDup (Permutation_sym Hperm)). exact HM.
  - intros d. split.
    + intros Hd. apply (Permutation_in _ Hperm) in Hd.
      destruct (map_get M d) as [e|] eqn:Hg.
      * specialize (Hget d). rewrite Hg in Hget. destruct Hget as [_ Hb].
        apply (best_rank_some _ _ _ Hb).
      * apply rrf_map_get_none in Hg. contradiction.
    + intros Hd. apply (Permutation_in _ (Permutation_sym Hperm)).
      destruct (map_get M d) as [e|] eqn:Hg.
      * apply map_get_some_in in Hg. apply in_map_iff. exists (d, e). auto.
      * specialize (Hget d). rewrite Hg in Hget. destruct Hget as [_ Hb].
        apply best_rank_none in Hb. contradiction.
  - apply Forall_forall. intros r Hr.
    unfold out, reciprocalRankFusion in Hr. fold M in Hr.
    apply (Permutation_in _ (rrf_sort_desc_perm _)) in Hr.
    apply in_map_iff in Hr as [[f e] [<- Hin]].
    specialize (Hget f). rewrite (map_get_In M f e HM Hin) in Hget.
    destruct Hget as [H1 H2]. simpl. rewrite H2, <- bonus_of_spec, H1, Qplus_0_l. reflexivity.
  - apply rrf_sort_desc_sorted.
Qed.

Definition sample_doc (f : string) : RankedResult :=
  mkRanked (of_string f) (of_string f) [] [] 0.

Definition sample_lists : list (list RankedResult) :=
  [[sample_doc "a"; sample_doc "b"]; [sample_doc "b"; sample_doc "c"]].

Lemma reciprocalRankFusion_spec_witness :
  Forall (fun l => NoDup (map file l)) sample_lists /\
  (let out := reciprocalRankFusion sample_lists [2; 1] 60 in
   NoDup (map file out) /\
   (forall d, In d (map file out) <-> exists l, In l sample_lists /\ In d (map file l)) /\
   Forall (fun r => score r == rrf_sum 60 [2; 1] 0 sample_lists (file r)
                               + spec_bonus (best_rank sample_lists (file r))) out /\
   Sorted (fun a b => score b <= score a) out).
Proof.
  assert (H : Forall (fun l => NoDup (map file l)) sample_lists).
  { repeat constructor; simpl; intuition discriminate. }
  split; [exact H|]. apply (reciprocalRankFusion_spec sample_lists [2; 1] 60 H).
Defined.

Close Scope Q_scope.
End RRFClaims.

(* ------------------------------------------------------------------ *)
(** ** Score normalisation *)

Module NormalizeFacts.
Import SearchUtils.
Open Scope Q_scope.

Lemma fold_min_le : forall rest a, fold_left Qmin rest a <= a /\
  Forall (fun x => fold_left Qmin rest a <= x) rest.
Proof.
  induction rest as [|x r IH]; intros a; simpl.
  - split; [apply Qle_refl|constructor].
  - destruct (IH (Qmin a x)) as [H1 H2]. split; [|constructor; [|exact H2]].
    + eapply Qle_trans; [exact H1|apply Q.le_min_l].
    + eapply Qle_trans; [exact H1|apply Q.le_min_r].
Qed.

Lemma fold_max_ge : forall rest a, a <= fold_left Qmax rest a /\
  Forall (fun x => x <= fold_left Qmax rest a) rest.
Proof.
  induction rest as [|x r IH]; intros a; simpl.
  - split; [apply Qle_refl|constructor].
  - destruct (IH (Qmax a x)) as [H1 H2]. split; [|constructor; [|exact H2]].
    + eapply Qle_trans; [apply Q.le_max_l|exact H1].
    + eapply Qle_trans; [apply Q.le_max_r|exact H1].
Qed.

Lemma fold_min_in : forall rest a, exists x, In x (a :: rest) /\ x == fold_left Qmin rest a.
Proof.
  induction rest as [|y r IH]; intros a; simpl.
  - exists a. split; [left; reflexivity|reflexivity].
  - destruct (IH (Qmin a y)) as [x [Hx Heq]]. destruct Hx as [<-|Hx].
    + destruct (Q.min_dec a y) as [E|E]; [exists a|exists y]; (split; [simpl; tauto|]);
        rewrite <- Heq; symmetry; exact E.
    + exists x. split; [simpl; tauto|exact Heq].
Qed.

Lemma fold_max_in : forall rest a, exists x, In x (a :: rest) /\ x == fold_left Qmax rest a.
Proof.
  induction rest as [|y r IH]; intros a; simpl.
  - exists a. split; [left; reflexivity|reflexivity].
  - destruct (IH (Qmax a y)) as [x [Hx Heq]]. destruct Hx as [<-|Hx].
    + destruct (Q.max_dec a y) as [E|E]; [exists a|exists y]; (split; [simpl; tauto|]);
        rewrite <- Heq; symmetry; exact E.
    + exists x. split; [simpl; tauto|exact Heq].
Qed.

(** Every element lies between [list_min] and [list_max]. *)
Lemma min_max_bounds : forall s0 rest x, In x (s0 :: rest) ->
  list_min s0 rest <= x /\ x <= list_max s0 rest.
Proof.
  intros s0 rest x Hx. unfold list_min, list_max.
  destruct (fold_min_le rest s0) as [A1 A2]. destruct (fold_max_ge rest s0) as [B1 B2].
  rewrite Forall_forall in A2, B2.
  destruct Hx as [<-|Hx]; split; auto.
Qed.

Lemma scale_range : forall mn mx a, mn <= a -> a <= mx -> mn < mx ->
  0 <= (a - mn) / (mx - mn) <= 1.
Proof.
  intros mn mx a H1 H2 H3. assert (Hp : 0 < mx - mn) by (apply Qlt_minus_iff in H3; exact H3).
  split.
  - apply Qle_shift_div_l; [exact Hp|]. rewrite Qmult_0_l. apply Qle_minus_iff in H1. exact H1.
  - apply Qle_shift_div_r; [exact Hp|]. rewrite Qmult_1_l.
    apply Qplus_le_l with (z := mn). ring_simplify. exact H2.
Qed.

Lemma scale_mono : forall mn r a b, 0 < r -> a <= b -> (a - mn) / r <= (b - mn) / r.
Proof.
  intros mn r a b Hr Hab. unfold Qdiv. apply Qmult_le_compat_r.
  - apply Qplus_le_l with (z := mn). ring_simplify. exact Hab.
  - apply Qinv_le_0_compat. apply Qlt_le_weak. exact Hr.
Qed.

Lemma Qeq_bool_false_neq : forall x y, Qeq_bool x y = false -> ~ x == y.
Proof. intros x y H E. apply Qeq_bool_iff in E. congruence. Qed.

Lemma nth_error_map_some {A B} (f : A -> B) : forall l i y,
  nth_error (map f l) i = Some y -> exists a, nth_error l i = Some a /\ y = f a.
Proof.
  intros l i y H. rewrite nth_error_map in H.
  destruct (nth_error l i) as [a|]; [|discriminate]. injection H as <-. eauto.
Qed.

(** X1: [normalizeBM25] keeps the length, maps into [0, 1] monotonically,
    sends every score to 1 when all scores are equal, and otherwise reaches
    both 0 (at the minimum) and 1 (at the maximum). *)
Theorem normalizeBM25_spec (scores : list Q) :
  let out := normalizeBM25 scores in
  List.length out = List.length scores /\
  Forall (fun x => 0 <= x <= 1) out /\
  (forall i j a b x y, nth_error scores i = Some a -> nth_error scores j = Some b -> a <= b ->
     nth_error out i = Some x -> nth_error out j = Some y -> x <= y) /\
  ((forall a b, In a scores -> In b scores -> a == b) -> Forall (fun x => x == 1) out) /\
  ((exists a b, In a scores /\ In b scores /\ ~ a == b) ->
     (exists x, In x out /\ x == 0) /\ (exists y, In y out /\ y == 1)).
Proof.
  intros out. unfold out, normalizeBM25. clear out.
  destruct scores as [|s0 rest].
  { simpl. split; [reflexivity|split; [constructor|split; [intros i j a b x y H; destruct i; discriminate|]]].
    split; [constructor|]. intros (a & b & [] & _). }
  set (l := s0 :: rest). set (mn := list_min s0 rest). set (mx := list_max s0 rest).
  assert (Hb : forall x, In x l -> mn <= x /\ x <= mx) by (intros x Hx; apply min_max_bounds; exact Hx).
  destruct (fold_min_in rest s0) as [amn [Hamn Emn]]. fold (list_min s0 rest) in Emn. fold mn in Emn.
  destruct (fold_max_in rest s0) as [amx [Hamx Emx]]. fold (list_max s0 rest) in Emx. fold mx in Emx.
  destruct (Qeq_bool mx mn) eqn:E.
  - apply Qeq_bool_iff in E.
    assert (Hall : forall a, In a l -> a == mn).
    { intros a Ha. destruct (Hb a Ha) as [H1 H2]. apply Qle_antisym; [rewrite <- E; exact H2|exact H1]. }
    split; [apply length_map|split; [|split; [|split]]].
    + apply Forall_forall. intros x Hx. apply in_map_iff in Hx as [? [<- _]].
      split; discriminate.
    + intros i j a b x y _ _ _ Hx Hy.
      apply nth_error_map_some in Hx as [? [_ ->]]. apply nth_error_map_some in Hy as [? [_ ->]].
      apply Qle_refl.
    + intros _. apply Forall_forall. intros x Hx. apply in_map_iff in Hx as [? [<- _]]. reflexivity.
    + intros (a & b & Ha & Hb' & Hne). exfalso. apply Hne.
      rewrite (Hall a Ha), (Hall b Hb'). reflexivity.
  - apply Qeq_bool_false_neq in E.
    assert (Hlt : mn < mx).
    { destruct (Hb s0 (or_introl eq_refl)) as [H1 H2].
      destruct (Qle_lt_or_eq _ _ (Qle_trans _ _ _ H1 H2)) as [H|H]; [exact H|].
      exfalso. apply E. symmetry. exact H. }
    assert (Hr : 0 < mx - mn) by (apply Qlt_minus_iff in Hlt; exact Hlt).
    split; [apply length_map|split; [|split; [|split]]].
    + apply Forall_forall. intros x Hx. apply in_map_iff in Hx as [a [<- Ha]].
      destruct (Hb a Ha). apply scale_range; assumption.
    + intros i j a b x y Ha Hb2 Hab Hx Hy.
      apply nth_error_map_some in Hx as [a' [Ha' ->]]. apply nth_error_map_some in Hy as [b' [Hb' ->]].
      rewrite Ha in Ha'. injection Ha' as <-. rewrite Hb2 in Hb'. injection Hb' as <-.
      apply scale_mono; assumption.
    + intros Hall. exfalso. apply E. rewrite <- Emn, <- Emx. apply Hall; assumption.
    + intros _. split.
      * exists ((amn - mn) / (mx - mn)). split; [apply (in_map (fun s => (s - mn) / (mx - mn))); exact Hamn|].
        rewrite Emn. field. intros H. apply E. apply Qplus_inj_r with (z := - mn). rewrite H.
        ring_simplify. reflexivity.
      * exists ((amx - mn) / (mx - mn)). split; [apply (in_map (fun s => (s - mn) / (mx - mn))); exact Hamx|].
        rewrite Emx. field. intros H. apply E. apply Qplus_inj_r with (z := - mn). rewrite H.
        ring_simplify. reflexivity.
Qed.

Definition fields (r : RRF.RankedResult) : jsstr * jsstr * jsstr * jsstr :=
  (RRF.file r, RRF.displayPath r, RRF.title r, RRF.body r).

(** X2: [normalizeScores] keeps the results, their order and every field
    but the score; the new scores lie in [0, 1] and keep the order of the old
    ones; equal scores all become 0 (the range falls back to 1), and
    otherwise the minimum becomes 0 and the maximum 1. *)
Theorem normalizeScores_spec (results : list RRF.RankedResult) :
  let out := normalizeScores results in
  map fields out = map fields results /\
  Forall (fun r => 0 <= RRF.score r <= 1) out /\
  (forall i j a b x y, nth_error results i = Some a -> nth_error results j = Some b ->
     RRF.score a <= RRF.score b ->
     nth_error out i = Some x -> nth_error out j = Some y -> RRF.score x <= RRF.score y) /\
  ((forall a b, In a results -> In b results -> RRF.score a == RRF.score b) ->
     Forall (fun r => RRF.score r == 0) out) /\
  ((exists a b, In a results /\ In b results /\ ~ RRF.score a == RRF.score b) ->
     (exists x, In x out /\ RRF.score x == 0) /\ (exists y, In y out /\ RRF.score y == 1)).
Proof.
  intros out. unfold out, normalizeScores. clear out.
  destruct (map RRF.score results) as [|s0 rest] eqn:Hs.
  { apply map_eq_nil in Hs. subst results. simpl.
    split; [reflexivity|split; [constructor|split; [intros i j a b x y H; destruct i; discriminate|]]].
    split; [constructor|]. intros (a & b & [] & _). }
  set (mn := list_min s0 rest). set (mx := list_max s0 rest).
  assert (Hb : forall r, In r results -> mn <= RRF.score r /\ RRF.score r <= mx).
  { intros r Hr. apply min_max_bounds. rewrite <- Hs. apply in_map. exact Hr. }
  assert (Hin : forall x, In x (s0 :: rest) -> exists r, In r results /\ RRF.score r = x).
  { intros x Hx. rewrite <- Hs in Hx. apply in_map_iff in Hx as [r [<- Hr]]. eauto. }
  destruct (fold_min_in rest s0) as [amn [Hamn Emn]]. fold (list_min s0 rest) in Emn. fold mn in Emn.
  destruct (fold_max_in rest s0) as [amx [Hamx Emx]]. fold (list_max s0 rest) in Emx. fold mx in Emx.
  destruct (Hin _ Hamn) as [rmn [Hrmn <-]]. destruct (Hin _ Hamx) as [rmx [Hrmx <-]].
  set (f := fun r : RRF.RankedResult => RRF.mkRanked (RRF.file r) (RRF.displayPath r) (RRF.title r) (RRF.body r)
                  ((RRF.score r - mn) / (if Qeq_bool (mx - mn) 0 then 1 else mx - mn))).
  change (map f results) with (map f results).
  assert (Hfields : map fields (map f results) = map fields results).
  { rewrite map_map. apply map_ext. intros r. reflexivity. }
  assert (Hnth : forall i x, nth_error (map f results) i = Some x ->
            exists a, nth_error results i = Some a /\ x = f a) by (intros; apply nth_error_map_some; assumption).
  destruct (Qeq_bool (mx - mn) 0) eqn:E.
  - apply Qeq_bool_iff in E.
    assert (Emm : mx == mn) by (apply Qplus_inj_r with (z := - mn); rewrite E; ring).
    assert (Hall : forall r, In r results -> RRF.score r == mn).
    { intros r Hr. destruct (Hb r Hr) as [H1 H2]. apply Qle_antisym; [rewrite <- Emm; exact H2|exact H1]. }
    assert (Hzero : forall r, In r results -> RRF.score (f r) == 0).
    { intros r Hr. unfold f. simpl. rewrite (Hall r Hr). field. }
    split; [exact Hfields|split; [|split; [|split]]].
    + apply Forall_forall. intros x Hx. apply in_map_iff in Hx as [r [<- Hr]].
      rewrite (Hzero r Hr). split; discriminate.
    + intros i j a b x y Ha Hb2 _ Hx Hy.
      apply Hnth in Hx as [a' [Ha' ->]]. apply Hnth in Hy as [b' [Hb' ->]].
      rewrite (Hzero a' (nth_error_In _ _ Ha')), (Hzero b' (nth_error_In _ _ Hb')). apply Qle_refl.
    + intros _. apply Forall_forall. intros x Hx. apply in_map_iff in Hx as [r [<- Hr]]. apply Hzero; exact Hr.
    + intros (a & b & Ha & Hb' & Hne). exfalso. apply Hne.
      rewrite (Hall a Ha), (Hall b Hb'). reflexivity.
  - apply Qeq_bool_false_neq in E.
    assert (Hlt : mn < mx).
    { destruct (Hb rmn Hrmn) as [H1 H2].
      destruct (Qle_lt_or_eq _ _ (Qle_trans _ _ _ H1 H2)) as [H|H]; [exact H|].
      exfalso. apply E. rewrite H. ring. }
    assert (Hr : 0 < mx - mn) by (apply Qlt_minus_iff in Hlt; exact Hlt).
    split; [exact Hfields|split; [|split; [|split]]].
    + apply Forall_forall. intros x Hx. apply in_map_iff in Hx as [a [<- Ha]].
      destruct (Hb a Ha). unfold f. simpl. apply scale_range; assumption.
    + intros i j a b x y Ha Hb2 Hab Hx Hy.
      apply Hnth in Hx as [a' [Ha' ->]]. apply Hnth in Hy as [b' [Hb' ->]].
      rewrite Ha in Ha'. injection Ha' as <-. rewrite Hb2 in Hb'. injection Hb' as <-.
      unfold f. simpl. apply scale_mono; assumption.
    + intros Hall. exfalso. apply E. rewrite <- Emn, <- Emx. rewrite (Hall rmx rmn Hrmx Hrmn). ring.
    + intros _. split.
      * exists (f rmn). split; [apply in_map; exact Hrmn|].
        unfold f. simpl. rewrite Emn. field. intros H. apply E. exact H.
      * exists (f rmx). split; [apply in_map; exact Hrmx|].
        unfold f. simpl. rewrite Emx. field. intros H. apply E. exact H.
Qed.

Close Scope Q_scope.
End NormalizeFacts.

(* ------------------------------------------------------------------ *)
(** ** Snippets around the best match *)

Module SnippetFacts.
Import SearchUtils.

Lemma js_slice_len : forall s a b, 0 <= a -> 0 <= b -> len (js_slice s a b) <= Z.max 0 (b - a).
Proof.
  intros s a b Ha Hb. unfold js_slice, js_index, len.
  destruct (a <? 0) eqn:E1; [apply Z.ltb_lt in E1; lia|].
  destruct (b <? 0) eqn:E2; [apply Z.ltb_lt in E2; lia|].
  set (L := Z.of_nat (List.length s)).
  destruct (Z.min a L <? Z.min b L) eqn:E3; [|simpl; lia].
  apply Z.ltb_lt in E3. rewrite length_firstn, length_skipn. lia.
Qed.

Lemma trimStart_le : forall s, (List.length (trimStart s) <= List.length s)%nat.
Proof.
  induction s as [|c s IH]; simpl; [lia|]. destruct (FTS.js_is_space c); simpl; lia.
Qed.

Lemma trim_le : forall s, len (trim s) <= len s.
Proof.
  intros s. unfold trim, len. rewrite length_rev.
  pose proof (trimStart_le (rev (trimStart s))) as H1. rewrite length_rev in H1.
  pose proof (trimStart_le s). lia.
Qed.

Lemma len_app : forall a b, len (a ++ b) = len a + len b.
Proof. intros a b. unfold len. rewrite length_app. lia. Qed.

Lemma len_ellipsis : len ellipsis = 3.
Proof. reflexivity. Qed.

Lemma head_snippet_len : forall content maxLength, 0 <= maxLength ->
  len (head_snippet content maxLength) <= maxLength + 3.
Proof.
  intros content maxLength Hm. unfold head_snippet. rewrite len_app.
  pose proof (js_slice_len content 0 maxLength ltac:(lia) Hm).
  destruct (len content >? maxLength); [rewrite len_ellipsis|unfold len at 2; simpl]; lia.
Qed.

Lemma best_step_far : forall contentLower terms,
  (forall t, In t terms -> indexOf contentLower t = -1 \/ 1000 + len t * 10 <= indexOf contentLower t) ->
  fold_left (best_step contentLower) terms (-1, 0) = (-1, 0).
Proof.
  intros cl terms H. induction terms as [|t ts IH]; cbn [fold_left]; [reflexivity|].
  assert (E0 : best_step cl (-1, 0) t = (-1, 0)).
  { unfold best_step. destruct (H t (or_introl eq_refl)) as [E|E]; [rewrite E; reflexivity|].
    destruct (indexOf cl t =? -1); cbn [negb]; [reflexivity|].
    destruct (1000 - indexOf cl t + len t * 10 >? 0) eqn:E2; [apply Z.gtb_lt in E2; lia|reflexivity]. }
  rewrite E0. apply IH. intros t' Ht'. apply H. right. exact Ht'.
Qed.

(** X3: for a non-negative [maxLength] the snippet is at most
    [maxLength + 6] code units long: at most [maxLength] of the content and
    two ellipses. *)
Theorem extractSnippetWithContext_length (toLowerCase : jsstr -> jsstr) (content query : jsstr)
    (maxLength : Z) :
  0 <= maxLength ->
  len (extractSnippetWithContext toLowerCase content query maxLength) <= maxLength + 6.
Proof.
  intros Hm. unfold extractSnippetWithContext.
  destruct content as [|c0 cs]; [unfold len; simpl; lia|].
  destruct query as [|q0 qs]; [unfold len; simpl; lia|].
  set (content := c0 :: cs).
  destruct (filter _ _) as [|t ts]; [pose proof (head_snippet_len content maxLength Hm); lia|].
  destruct (fold_left _ _ _) as [bestPos bs].
  destruct (bestPos =? -1); [pose proof (head_snippet_len content maxLength Hm); lia|].
  eapply Z.le_trans; [apply trim_le|].
  set (start := Z.max 0 (bestPos - 50)). set (end_ := Z.min (len content) (start + maxLength)).
  assert (Hs : len (js_slice content start end_) <= maxLength).
  { eapply Z.le_trans; [apply js_slice_len|]; unfold start, end_, len; lia. }
  destruct (start >? 0); destruct (end_ <? len content); rewrite ?len_app, ?len_ellipsis; lia.
Qed.

Lemma extractSnippetWithContext_length_witness :
  0 <= 10 /\ len (extractSnippetWithContext (fun s => s) (of_string "hello world of snippets")
                    (of_string "world") 10) <= 10 + 6.
Proof.
  split; [lia|]. apply (extractSnippetWithContext_length (fun s => s)). lia.
Defined.

(** X4: a query term counts as a match only if it scores above 0, i.e. at
    a position below [1000 + 10 * length]: when every term of at least 3
    code units is absent from the content or only found at or beyond that
    position, the snippet is the start of the content ([content.slice(0,
    maxLength)] plus "..." if cut), as if nothing matched. *)
Theorem extractSnippetWithContext_far_matches (toLowerCase : jsstr -> jsstr) (content query : jsstr)
    (maxLength : Z) :
  content <> [] -> query <> [] ->
  (forall t, In t (FTS.split_ws (toLowerCase query)) -> (3 <= List.length t)%nat ->
     indexOf (toLowerCase content) t = -1 \/ 1000 + len t * 10 <= indexOf (toLowerCase content) t) ->
  extractSnippetWithContext toLowerCase content query maxLength = head_snippet content maxLength.
Proof.
  intros Hc Hq H. unfold extractSnippetWithContext.
  destruct content as [|c0 cs]; [congruence|]. destruct query as [|q0 qs]; [congruence|].
  destruct (filter _ _) as [|t ts] eqn:Ht; [reflexivity|].
  rewrite best_step_far; [reflexivity|].
  intros t' Ht'. rewrite <- Ht in Ht'. apply filter_In in Ht' as [Hin Hl].
  apply H; [exact Hin|]. apply Nat.leb_le. exact Hl.
Qed.

Definition far_content : jsstr := repeat 120 1100 ++ of_string "foo".

Lemma extractSnippetWithContext_far_matches_witness :
  extractSnippetWithContext (fun s => s) far_content (of_string "foo") 5 = head_snippet far_content 5.
Proof.
  apply (extractSnippetWithContext_far_matches (fun s => s)); [discriminate|discriminate|].
  simpl. intros t [<-|[]] _. right. vm_compute. intros H; discriminate H.
Defined.

End SnippetFacts.

(* ------------------------------------------------------------------ *)
(** ** Virtual paths *)

Module VPathFacts.
Import VPath.

Lemma take_name_split : forall s a b, take_name s = (a, b) ->
  s = a ++ b /\ ~ In 47 a /\ (b = [] \/ exists r, b = 47 :: r).
Proof.
  induction s as [|c r IH]; intros a b H; simpl in H.
  - injection H as <- <-. simpl. split; [reflexivity|split; [tauto|left; reflexivity]].
  - destruct (c =? 47) eqn:Ec.
    + injection H as <- <-. apply Z.eqb_eq in Ec. subst c. simpl.
      split; [reflexivity|split; [tauto|right; eexists; reflexivity]].
    + destruct (take_name r) as [a' b'] eqn:Hr. injection H as <- <-.
      destruct (IH a' b' eq_refl) as [-> [Hn Hb]]. simpl.
      split; [reflexivity|split; [|exact Hb]].
      intros [E|E]; [subst c; rewrite Z.eqb_refl in Ec; discriminate|contradiction].
Qed.

Lemma take_name_app : forall c p, ~ In 47 c -> take_name (c ++ 47 :: p) = (c, 47 :: p).
Proof.
  induction c as [|x c IH]; intros p Hc; simpl; [reflexivity|].
  destruct (x =? 47) eqn:Ex; [apply Z.eqb_eq in Ex; subst x; exfalso; apply Hc; left; reflexivity|].
  rewrite IH; [reflexivity|]. intros H. apply Hc. right. exact H.
Qed.

Lemma prefixb_app : forall p s, prefixb p (p ++ s) = true.
Proof. induction p as [|x p IH]; intros s; simpl; [reflexivity|]. rewrite Z.eqb_refl. apply IH. Qed.

Lemma prefixb_split : forall p s, prefixb p s = true -> s = p ++ skipn (List.length p) s.
Proof.
  induction p as [|x p IH]; intros [|y s] H; simpl in *; try discriminate; [reflexivity|reflexivity|].
  apply andb_true_iff in H as [H1 H2]. apply Z.eqb_eq in H1. subst y. f_equal. apply IH. exact H2.
Qed.

(** X5: [parseVirtualPath] inverts [buildVirtualPath] exactly when the
    collection name is non-empty and holds no [/] and the path is non-empty
    and holds no line terminator. *)
Theorem parse_buildVirtualPath (c p : jsstr) :
  parseVirtualPath (buildVirtualPath c p) = Some (mkVirtualPath c p) <->
  c <> [] /\ ~ In 47 c /\ p <> [] /\ forallb (fun u => negb (is_line_terminator u)) p = true.
Proof.
  unfold parseVirtualPath, buildVirtualPath. rewrite prefixb_app.
  change (skipn 6 (qmd_scheme ++ c ++ [47] ++ p)) with (skipn (List.length qmd_scheme) (qmd_scheme ++ c ++ [47] ++ p)).
  rewrite skipn_app, Nat.sub_diag, skipn_all. simpl skipn. rewrite app_nil_l.
  destruct (take_name (c ++ 47 :: p)) as [a b] eqn:Ht.
  destruct (take_name_split _ _ _ Ht) as [Heq [Hn Hb]].
  split.
  - intros H. destruct a as [|x a]; [discriminate|].
    destruct Hb as [->|[r ->]]; [discriminate|].
    destruct r as [|y r]; [discriminate|].
    destruct (forallb _ (y :: r)) eqn:Hf; [|discriminate].
    injection H as Hc Hp. rewrite <- Hc, <- Hp.
    split; [discriminate|split; [exact Hn|split; [discriminate|exact Hf]]].
  - intros (Hc & Hs & Hp & Hf). rewrite take_name_app in Ht by exact Hs. injection Ht as <- <-.
    destruct c as [|x c]; [congruence|]. destruct p as [|y p]; [congruence|]. rewrite Hf. reflexivity.
Qed.

(** X6: whatever [parseVirtualPath] accepts starts with [qmd://] and is
    rebuilt exactly by [buildVirtualPath] from the parsed parts. *)
Theorem buildVirtualPath_parse (v : jsstr) (vp : VirtualPath) :
  parseVirtualPath v = Some vp ->
  buildVirtualPath (collectionName vp) (path vp) = v /\ isVirtualPath v = true.
Proof.
  unfold parseVirtualPath. destruct (prefixb qmd_scheme v) eqn:Hpre; [|discriminate].
  destruct (take_name (skipn 6 v)) as [a b] eqn:Ht.
  destruct (take_name_split _ _ _ Ht) as [Heq _].
  destruct (take_name_split _ _ _ Ht) as [_ [_ Hb]].
  intros H. destruct a as [|x a]; [discriminate|].
  destruct Hb as [->|[r ->]]; [discriminate|].
  destruct r as [|y r]; [discriminate|].
  destruct (forallb _ (y :: r)); [|discriminate]. injection H as <-; simpl.
  split; [|exact Hpre].
  rewrite (prefixb_split _ _ Hpre). unfold buildVirtualPath. f_equal. simpl List.length.
  rewrite Heq. reflexivity.
Qed.

Lemma buildVirtualPath_parse_witness :
  parseVirtualPath (of_string "qmd://notes/a/b.md") = Some (mkVirtualPath (of_string "notes") (of_string "a/b.md")) /\
  buildVirtualPath (of_string "notes") (of_string "a/b.md") = of_string "qmd://notes/a/b.md" /\
  isVirtualPath (of_string "qmd://notes/a/b.md") = true.
Proof.
  assert (H : parseVirtualPath (of_string "qmd://notes/a/b.md")
              = Some (mkVirtualPath (of_string "notes") (of_string "a/b.md"))) by reflexivity.
  split; [exact H|]. exact (buildVirtualPath_parse _ _ H).
Defined.

End VPathFacts.

(* ------------------------------------------------------------------ *)
(** ** String helpers: [trim], [split] and [join] *)

Module StrFacts.

Lemma trimStart_suffix : forall s, exists p, s = p ++ trimStart s.
Proof.
  induction s as [|c s IH]; simpl; [exists []; reflexivity|].
  destruct (FTS.js_is_space c).
  - destruct IH as [p Hp]. exists (c :: p). simpl. f_equal. exact Hp.
  - exists []. reflexivity.
Qed.

Lemma trimStart_head : forall s c r, trimStart s = c :: r -> FTS.js_is_space c = false.
Proof.
  induction s as [|x s IH]; simpl; intros c r H; [discriminate|].
  destruct (FTS.js_is_space x) eqn:Hx; [exact (IH _ _ H)|]. injection H as <- _. exact Hx.
Qed.

Lemma trimStart_idem : forall s, trimStart (trimStart s) = trimStart s.
Proof.
  induction s as [|c s IH]; simpl; [reflexivity|].
  destruct (FTS.js_is_space c) eqn:Hc; [exact IH|]. simpl. rewrite Hc. reflexivity.
Qed.

Lemma trimStart_fixed : forall s, (forall c r, s = c :: r -> FTS.js_is_space c = false) ->
  trimStart s = s.
Proof.
  intros [|c r] H; simpl; [reflexivity|]. rewrite (H c r eq_refl). reflexivity.
Qed.

Lemma trim_idem : forall s, trim (trim s) = trim s.
Proof.
  intros s. unfold trim. set (t := trimStart s).
  destruct (trimStart_suffix (rev t)) as [p Hp].
  assert (Ht : t = rev (trimStart (rev t)) ++ rev p).
  { rewrite <- (rev_involutive t) at 1. rewrite Hp at 1. rewrite rev_app_distr. reflexivity. }
  rewrite (trimStart_fixed (rev (trimStart (rev t)))).
  - rewrite rev_involutive, trimStart_idem. reflexivity.
  - intros c r Hu. apply (trimStart_head s c (r ++ rev p)). fold t. rewrite Ht, Hu. reflexivity.
Qed.

Lemma trim_incl : forall s x, In x (trim s) -> In x s.
Proof.
  intros s x H. unfold trim in H. apply in_rev in H.
  destruct (trimStart_suffix (rev (trimStart s))) as [p Hp].
  assert (H1 : In x (rev (trimStart s))) by (rewrite Hp; apply in_or_app; right; exact H).
  apply in_rev in H1. destruct (trimStart_suffix s) as [q Hq]. rewrite Hq. apply in_or_app. right. exact H1.
Qed.

Lemma split_on_no_sep : forall sep s w, In w (Store.split_on sep s) -> ~ In sep w.
Proof.
  intros sep. induction s as [|c s IH]; simpl; intros w Hw.
  - destruct Hw as [<-|[]]. intros [].
  - destruct (c =? sep) eqn:Hc.
    + destruct Hw as [<-|Hw]; [intros []|exact (IH _ Hw)].
    + destruct (Store.split_on sep s) as [|w0 ws] eqn:Hs.
      * destruct Hw as [<-|[]]. intros [E|[]]. subst c. rewrite Z.eqb_refl in Hc. discriminate.
      * destruct Hw as [<-|Hw].
        -- intros [E|E]; [subst c; rewrite Z.eqb_refl in Hc; discriminate|].
           apply (IH w0); [left; reflexivity|exact E].
        -- apply IH. right. exact Hw.
Qed.

Lemma split_on_single : forall sep w, ~ In sep w -> Store.split_on sep w = [w].
Proof.
  intros sep. induction w as [|c w IH]; intros H; simpl; [reflexivity|].
  destruct (c =? sep) eqn:Hc; [apply Z.eqb_eq in Hc; subst c; exfalso; apply H; left; reflexivity|].
  rewrite IH; [reflexivity|]. intros E. apply H. right. exact E.
Qed.

Lemma split_on_app : forall sep w r, ~ In sep w ->
  Store.split_on sep (w ++ sep :: r) = w :: Store.split_on sep r.
Proof.
  intros sep. induction w as [|c w IH]; intros r H; simpl.
  - rewrite Z.eqb_refl. reflexivity.
  - destruct (c =? sep) eqn:Hc; [apply Z.eqb_eq in Hc; subst c; exfalso; apply H; left; reflexivity|].
    rewrite IH; [reflexivity|]. intros E. apply H. right. exact E.
Qed.

(** [lines.join(sep).split(sep)] gives the lines back when none holds [sep]. *)
Lemma split_on_join : forall sep L, L <> [] -> Forall (fun w => ~ In sep w) L ->
  Store.split_on sep (FTS.join [sep] L) = L.
Proof.
  intros sep. induction L as [|w L IH]; intros Hne HL; [congruence|].
  inversion HL as [|? ? Hw HL']. subst.
  destruct L as [|w' L'].
  - simpl. apply split_on_single. exact Hw.
  - assert (E : FTS.join [sep] (w :: w' :: L') = w ++ sep :: FTS.join [sep] (w' :: L'))
      by reflexivity.
    rewrite E, split_on_app by exact Hw. f_equal. apply IH; [discriminate|exact HL'].
Qed.

Lemma join_nonempty : forall sep w L, w <> [] -> FTS.join sep (w :: L) <> [].
Proof.
  intros sep w [|w' L] Hw; simpl; [exact Hw|].
  destruct w as [|c w]; [congruence|]. discriminate.
Qed.

End StrFacts.

(* ------------------------------------------------------------------ *)
(** ** Query expansion and its cache *)

Module ExpandFacts.
Import Cache Expand StrFacts.

Lemma line_ok_spec : forall l, line_ok l = true ->
  2 < len l < 100 /\ startsWith l (of_string "<") = false.
Proof.
  intros l H. unfold line_ok in H. apply andb_true_iff in H as [H H3].
  apply andb_true_iff in H as [H1 H2]. apply Z.ltb_lt in H1, H2.
  split; [lia|]. destruct (startsWith l _); [discriminate|reflexivity].
Qed.

Definition good_line (l : jsstr) : Prop :=
  trim l = l /\ ~ In 10 l /\ 2 < len l < 100 /\ startsWith l (of_string "<") = false.

Lemma parse_expansions_good : forall text, Forall good_line (parse_expansions text).
Proof.
  intros text. apply Forall_forall. intros l Hl. unfold parse_expansions in Hl.
  apply filter_In in Hl as [Hl Hok]. apply in_map_iff in Hl as [w [<- Hw]].
  destruct (line_ok_spec _ Hok) as [H1 H2].
  split; [apply trim_idem|split; [|split; assumption]].
  intros E. apply (split_on_no_sep _ _ _ Hw). apply (trim_incl _ _ E).
Qed.

Lemma ollama_expandQuery_lines : forall query n res,
  exists lines, ollama_expandQuery query n res = query :: lines /\
    (List.length lines <= n)%nat /\ (res = None -> lines = []) /\ Forall good_line lines.
Proof.
  intros query n [r|].
  - exists (firstn n (parse_expansions (Rerank.g_text r))). split; [reflexivity|].
    split; [apply firstn_le_length|]. split; [discriminate|].
    apply Forall_forall. intros l Hl.
    apply (proj1 (Forall_forall _ _) (parse_expansions_good (Rerank.g_text r))).
    rewrite <- (firstn_skipn n (parse_expansions _)). apply in_or_app. left. exact Hl.
  - exists []. split; [reflexivity|]. split; [simpl; lia|]. split; [reflexivity|constructor].
Qed.

(** X7: [Ollama.expandQuery] returns the query followed by at most
    [numVariations] lines of the response ([[query]] alone when the call
    fails); every line has no surrounding whitespace, no line feed, between
    3 and 99 code units and does not start with [<]. *)
Theorem ollama_expandQuery_spec (query : jsstr) (numVariations : nat)
    (res : option Rerank.GenerateResult) :
  exists lines, ollama_expandQuery query numVariations res = query :: lines /\
    (List.length lines <= numVariations)%nat /\ (res = None -> lines = []) /\
    Forall (fun l => trim l = l /\ ~ In 10 l /\ 2 < len l < 100 /\
                     startsWith l (of_string "<") = false) lines.
Proof. exact (ollama_expandQuery_lines query numVariations res). Qed.

Lemma get_set : forall c k r now, r <> [] -> get (set c k r now) k = Some r.
Proof.
  intros c k r now Hr. unfold get, set.
  assert (Hf : forall l, find (fun x => Store.jsstr_eqb (hash x) k)
                 (filter (fun x => negb (Store.jsstr_eqb (hash x) k)) l ++ [mkCacheRow k r now])
               = Some (mkCacheRow k r now)).
  { induction l as [|x l IH]; simpl.
    - rewrite StoreClaims.jsstr_eqb_refl. reflexivity.
    - destruct (Store.jsstr_eqb (hash x) k) eqn:E; simpl; [exact IH|]. rewrite E. exact IH. }
  rewrite Hf. simpl. destruct r; [congruence|reflexivity].
Qed.

Lemma cached_lines_join : forall lines, lines <> [] -> Forall good_line lines ->
  cached_lines (FTS.join [10] lines) = lines.
Proof.
  intros lines Hne Hg. unfold cached_lines. rewrite split_on_join.
  - induction lines as [|l ls IH]; [reflexivity|]. inversion Hg as [|? ? [Ht [_ [Hl _]]] Hg']. subst.
    simpl. rewrite Ht. replace (0 <? len l) with true by (symmetry; apply Z.ltb_lt; lia).
    destruct ls as [|l' ls']; [reflexivity|]. rewrite IH; [reflexivity|discriminate|exact Hg'].
  - exact Hne.
  - eapply Forall_impl; [|exact Hg]. intros l [_ [H _]]. exact H.
Qed.

(** X8: after a call of [SearchService.expandQuery] that produced at least
    one variation (and whose random cleanup did not fire), the same query,
    model and count are answered from the cache: the second call returns the
    same list, whatever the model would answer, and leaves the cache as it
    is. *)
Theorem expandQuery_cache_roundtrip (generateKey : jsstr -> jsstr -> jsstr)
    (limitSize : Z -> cache -> cache)
    (generate generate' : jsstr -> jsstr -> nat -> cache -> option Rerank.GenerateResult * cache)
    (c : cache) (query model : jsstr) (count : nat) (now now' : jsstr) (roll' : bool)
    (results : list jsstr) (c' : cache) :
  expandQuery generateKey limitSize generate c query model count now false = (results, c') ->
  (1 < List.length results)%nat ->
  expandQuery generateKey limitSize generate' c' query model count now' roll' = (results, c').
Proof.
  intros H1 Hlen. unfold expandQuery in H1 |- *.
  destruct (get c (generateKey query model)) as [cached|] eqn:Hget.
  - injection H1 as <- <-. rewrite Hget. reflexivity.
  - destruct (generate query model count c) as [res c1] eqn:Hgen.
    destruct (ollama_expandQuery_lines query count res) as [lines [Hq [Hn [_ Hg]]]].
    rewrite Hq in H1. simpl tl in H1.
    destruct (Nat.ltb 1 (List.length (query :: lines))) eqn:Hlt.
    + injection H1 as <- <-. unfold setWithAutoCleanup.
      assert (Hne : lines <> []) by (intros ->; simpl in Hlt; discriminate).
      rewrite get_set.
      * rewrite cached_lines_join by assumption. rewrite firstn_all2 by exact Hn. reflexivity.
      * destruct lines as [|l ls]; [congruence|]. apply join_nonempty.
        inversion Hg as [|? ? [_ [_ [Hl _]]] _]. intros ->. unfold len in Hl. simpl in Hl. lia.
    + injection H1 as <- _. apply Nat.ltb_ge in Hlt. lia.
Qed.

Definition sample_generate (q m : jsstr) (n : nat) (c : cache) : option Rerank.GenerateResult * cache :=
  (Some (Rerank.mkGenerateResult (of_string "<think>x</think>alpha query" ++ [10] ++ of_string " beta query ") None), c).

Definition sample_first : list jsstr * cache :=
  expandQuery (fun q m => q ++ m) (fun _ c => c) sample_generate []
    (of_string "q") (of_string "m") 2 (of_string "t") false.

Lemma expandQuery_cache_roundtrip_witness :
  (1 < List.length (fst sample_first))%nat /\
  expandQuery (fun q m => q ++ m) (fun _ c => c) (fun _ _ _ c => (None, c)) (snd sample_first)
    (of_string "q") (of_string "m") 2 (of_string "t2") true = sample_first.
Proof.
  assert (Hlen : (1 < List.length (fst sample_first))%nat) by (vm_compute; lia).
  split; [exact Hlen|].
  pose proof (expandQuery_cache_roundtrip (fun q m => q ++ m) (fun _ c => c) sample_generate
                (fun _ _ _ c => (None, c)) [] (of_string "q") (of_string "m") 2
                (of_string "t") (of_string "t2") true (fst sample_first) (snd sample_first)
                (surjective_pairing sample_first) Hlen) as H.
  rewrite <- surjective_pairing in H. exact H.
Defined.

End ExpandFacts.

(* ------------------------------------------------------------------ *)
(** ** [SearchService]: snippets, reranking and hybrid search *)

Module ServiceFacts.
Import Service.

Section Runtime.
Variable toLowerCase : jsstr -> jsstr.
Variable trim : jsstr -> jsstr.
Variable generate : Rerank.RerankDocument -> option Rerank.GenerateResult.

(** *** [extractSnippet] *)

Lemma split_on_nonempty : forall sep s, Store.split_on sep s <> [].
Proof.
  intros sep [|c s]; simpl; [discriminate|].
  destruct (c =? sep); [discriminate|]. destruct (Store.split_on sep s); discriminate.
Qed.

Lemma find_line_some : forall q lines i m, find_line toLowerCase q lines i = Some m ->
  (i <= m)%nat /\ exists l, nth_error lines (m - i) = Some l /\
    includes (toLowerCase l) q = true /\
    forall j l', (j < m - i)%nat -> nth_error lines j = Some l' -> includes (toLowerCase l') q = false.
Proof.
  intros q. induction lines as [|l r IH]; intros i m H; simpl in H; [discriminate|].
  destruct (includes (toLowerCase l) q) eqn:Hl.
  - injection H as <-. split; [lia|]. exists l. rewrite Nat.sub_diag. split; [reflexivity|].
    split; [exact Hl|]. intros j l' Hj. lia.
  - destruct (IH _ _ H) as [Hi [l0 [Hn [Hinc Hbefore]]]]. split; [lia|].
    exists l0. replace (m - i)%nat with (S (m - S i)) by lia. split; [exact Hn|]. split; [exact Hinc|].
    intros [|j] l' Hj Hj'; simpl in Hj'.
    + injection Hj' as <-. exact Hl.
    + apply (Hbefore j); [lia|exact Hj'].
Qed.

Lemma find_line_none : forall q lines i, find_line toLowerCase q lines i = None ->
  forall l, In l lines -> includes (toLowerCase l) q = false.
Proof.
  intros q. induction lines as [|l r IH]; intros i H l' Hl'; simpl in H; [destruct Hl'|].
  destruct (includes (toLowerCase l) q) eqn:Hl; [discriminate|].
  destruct Hl' as [<-|Hl']; [exact Hl|exact (IH _ H _ Hl')].
Qed.

(** X9: [extractSnippet] reports a 1-based line number within the lines of
    the body: the first line whose lowercase form contains the lowercased
    query, or line 1 when no line does; for a non-negative [maxLength] the
    snippet has at most [maxLength] code units. *)
Theorem extractSnippet_spec (body query : jsstr) (maxLength : Z) :
  let lines := Store.split_on 10 body in
  let '(line, snippet) := extractSnippet toLowerCase body query maxLength in
  1 <= line <= Z.of_nat (List.length lines) /\
  (0 <= maxLength -> len snippet <= maxLength) /\
  ((exists l, nth_error lines (Z.to_nat (line - 1)) = Some l /\
      includes (toLowerCase l) (toLowerCase query) = true /\
      forall i l', (i < Z.to_nat (line - 1))%nat -> nth_error lines i = Some l' ->
        includes (toLowerCase l') (toLowerCase query) = false) \/
   (line = 1 /\ forall l, In l lines -> includes (toLowerCase l) (toLowerCase query) = false)).
Proof.
  intros lines. unfold extractSnippet. fold lines.
  assert (Hne : lines <> []) by apply split_on_nonempty.
  destruct (find_line toLowerCase (toLowerCase query) lines 0) as [m|] eqn:Hf.
  - destruct (find_line_some _ _ _ _ Hf) as [_ [l [Hn [Hinc Hbefore]]]].
    rewrite Nat.sub_0_r in Hn, Hbefore.
    assert (Hm : (m < List.length lines)%nat) by (apply nth_error_Some; congruence).
    split; [lia|]. split.
    + intros H0. pose proof (SnippetFacts.js_slice_len
        (FTS.join [32] (arr_slice lines (Z.max 0 (Z.of_nat m - 1))
           (Z.min (Z.of_nat (List.length lines)) (Z.of_nat m + 2)))) 0 maxLength) as H. lia.
    + left. exists l. replace (Z.to_nat (Z.of_nat m + 1 - 1)) with m by lia.
      split; [exact Hn|]. split; [exact Hinc|]. exact Hbefore.
  - destruct lines as [|l0 r]; [congruence|]. split; [simpl; lia|]. split.
    + intros H0. pose proof (SnippetFacts.js_slice_len
        (FTS.join [32] (arr_slice (l0 :: r) 0 3)) 0 maxLength) as H. lia.
    + right. split; [reflexivity|]. exact (find_line_none _ _ _ Hf).
Qed.

(** *** [rerank] *)

Definition fields (r : SearchResult) := (file r, displayPath r, title r, body r, source r, chunkPos r).

Definition desc (a b : SearchResult) : Prop := (score b <= score a)%R.

Lemma svc_insert_desc_perm : forall x l, Permutation (insert_desc x l) (x :: l).
Proof.
  intros x l. induction l as [|y l IH]; simpl; [reflexivity|].
  destruct (Rle_dec (score y) (score x)); [reflexivity|].
  rewrite IH. apply perm_swap.
Qed.

Lemma svc_sort_desc_perm : forall l, Permutation (sort_desc l) l.
Proof.
  induction l as [|x l IH]; simpl; [reflexivity|].
  rewrite svc_insert_desc_perm. apply perm_skip. exact IH.
Qed.

Lemma svc_insert_desc_sorted : forall x l, Sorted desc l -> Sorted desc (insert_desc x l).
Proof.
  intros x l Hl. induction Hl as [|y l Hl IH Hhd]; simpl.
  - repeat constructor.
  - destruct (Rle_dec (score y) (score x)) as [Hle|Hgt].
    + constructor; [constructor; assumption|constructor; exact Hle].
    + constructor; [exact IH|].
      destruct l as [|z l]; simpl.
      * constructor. unfold desc. lra.
      * destruct (Rle_dec (score z) (score x)).
        -- constructor. unfold desc. lra.
        -- inversion Hhd. constructor. assumption.
Qed.

Lemma svc_sort_desc_sorted : forall l, Sorted desc (sort_desc l).
Proof.
  induction l as [|x l IH]; simpl; [constructor|]. apply svc_insert_desc_sorted. exact IH.
Qed.

Lemma smap_get_set : forall m k v f,
  smap_get (smap_set m k v) f = if Store.jsstr_eqb k f then Some v else smap_get m f.
Proof.
  induction m as [|[g x] m IH]; intros k v f; simpl.
  - destruct (Store.jsstr_eqb k f); reflexivity.
  - destruct (Store.jsstr_eqb g k) eqn:Hgk.
    + apply RRFClaims.eqb_true in Hgk. subst g. simpl. destruct (Store.jsstr_eqb k f); reflexivity.
    + simpl. rewrite IH. destruct (Store.jsstr_eqb g f) eqn:Hgf; [|reflexivity].
      destruct (Store.jsstr_eqb k f) eqn:Hkf; [|reflexivity].
      apply RRFClaims.eqb_true in Hgf, Hkf. apply RRFClaims.eqb_false in Hgk. congruence.
Qed.

Definition score_step (m : list (jsstr * R)) (r : Rerank.RerankDocumentResult) :=
  smap_set m (Rerank.r_file r) (Rerank.score r).

Lemma score_fold_absent : forall rs m f, ~ In f (map Rerank.r_file rs) ->
  smap_get (fold_left score_step rs m) f = smap_get m f.
Proof.
  induction rs as [|x rs IH]; intros m f Hf; simpl; [reflexivity|].
  rewrite IH by (intros H; apply Hf; right; exact H). unfold score_step. rewrite smap_get_set.
  destruct (Store.jsstr_eqb (Rerank.r_file x) f) eqn:E; [|reflexivity].
  apply RRFClaims.eqb_true in E. exfalso. apply Hf. left. exact E.
Qed.

Lemma score_fold_get : forall rs m x, NoDup (map Rerank.r_file rs) -> In x rs ->
  smap_get (fold_left score_step rs m) (Rerank.r_file x) = Some (Rerank.score x).
Proof.
  induction rs as [|y rs IH]; intros m x Hnd Hx; [destruct Hx|]. simpl.
  inversion Hnd as [|? ? Hy Hnd']. subst.
  destruct Hx as [<-|Hx].
  - rewrite score_fold_absent by exact Hy. unfold score_step. rewrite smap_get_set.
    rewrite StoreClaims.jsstr_eqb_refl. reflexivity.
  - apply IH; assumption.
Qed.

Lemma score_fold_some : forall rs m f s, smap_get (fold_left score_step rs m) f = Some s ->
  (exists x, In x rs /\ Rerank.r_file x = f /\ Rerank.score x = s) \/ smap_get m f = Some s.
Proof.
  induction rs as [|y rs IH]; intros m f s H; simpl in H; [right; exact H|].
  destruct (IH _ _ _ H) as [[x [Hx Hxe]]|Hm].
  - left. exists x. split; [right; exact Hx|exact Hxe].
  - unfold score_step in Hm. rewrite smap_get_set in Hm.
    destruct (Store.jsstr_eqb (Rerank.r_file y) f) eqn:E.
    + apply RRFClaims.eqb_true in E. injection Hm as Hm. left. exists y. split; [left; reflexivity|auto].
    + right. exact Hm.
Qed.

Lemma score_fold_present : forall rs m x, In x rs ->
  smap_get (fold_left score_step rs m) (Rerank.r_file x) <> None.
Proof.
  induction rs as [|y rs IH]; intros m x Hx; [destruct Hx|]. simpl.
  destruct (in_dec (list_eq_dec Z.eq_dec) (Rerank.r_file x) (map Rerank.r_file rs)) as [Hin|Hout].
  - apply in_map_iff in Hin as [x' [Hx' Hin]]. rewrite <- Hx'. apply IH. exact Hin.
  - rewrite score_fold_absent by exact Hout.
    destruct Hx as [<-|Hx]; [|exfalso; apply Hout; apply in_map; exact Hx].
    unfold score_step. rewrite smap_get_set, StoreClaims.jsstr_eqb_refl. discriminate.
Qed.

Lemma rerankSingle_file : forall d,
  Rerank.r_file (Rerank.rerankSingle toLowerCase trim generate d) = Rerank.file d.
Proof.
  intros d. unfold Rerank.rerankSingle. destruct (generate d); [|reflexivity].
  unfold Rerank.parseRerankResponse.
  destruct (Rerank.startsWith _ (of_string "yes")); [reflexivity|].
  destruct (Rerank.startsWith _ (of_string "no")); reflexivity.
Qed.

Definition rr_results (results : list SearchResult) : list Rerank.RerankDocumentResult :=
  Rerank.rerank toLowerCase trim generate (map toRerankDoc results) 5.

Lemma rr_results_perm : forall results, Permutation (rr_results results)
  (map (fun r => Rerank.rerankSingle toLowerCase trim generate (toRerankDoc r)) results).
Proof.
  intros results. unfold rr_results, Rerank.rerank.
  rewrite RerankClaims.sort_desc_perm, RerankClaims.rerankerLogprobsCheck_map, map_map. reflexivity.
Qed.

Lemma rr_results_files : forall results,
  Permutation (map Rerank.r_file (rr_results results)) (map file results).
Proof.
  intros results. rewrite (Permutation_map _ (rr_results_perm results)), map_map.
  apply Permutation_refl'. apply map_ext. intros r. rewrite rerankSingle_file. reflexivity.
Qed.

Lemma rerank_unfold : forall results, rerank toLowerCase trim generate results =
  sort_desc (map (fun r => with_score r (score_or_0
     (smap_get (fold_left score_step (rr_results results) []) (file r)))) results).
Proof. reflexivity. Qed.

Lemma fields_with_score : forall r s, fields (with_score r s) = fields r.
Proof. reflexivity. Qed.

Lemma rerank_fields : forall results,
  Permutation (map fields (rerank toLowerCase trim generate results)) (map fields results).
Proof.
  intros results. rewrite rerank_unfold. rewrite (Permutation_map _ (svc_sort_desc_perm _)).
  rewrite map_map. apply Permutation_refl'. apply map_ext. intros r. apply fields_with_score.
Qed.

Lemma rerank_nodup : forall results, NoDup (map file results) ->
  Permutation (rerank toLowerCase trim generate results)
    (map (fun r => with_score r (Rerank.score (Rerank.rerankSingle toLowerCase trim generate
                                   (toRerankDoc r)))) results).
Proof.
  intros results Hnd. rewrite rerank_unfold, svc_sort_desc_perm.
  apply Permutation_refl'. apply map_ext_in. intros r Hr. f_equal.
  assert (Hx : In (Rerank.rerankSingle toLowerCase trim generate (toRerankDoc r)) (rr_results results)).
  { apply (Permutation_in _ (Permutation_sym (rr_results_perm results))).
    apply (in_map (fun r => Rerank.rerankSingle toLowerCase trim generate (toRerankDoc r))). exact Hr. }
  pose proof (score_fold_get (rr_results results) [] _
    (Permutation_NoDup (Permutation_sym (rr_results_files results)) Hnd) Hx) as H.
  rewrite rerankSingle_file in H. simpl in H. rewrite H. reflexivity.
Qed.

(** X10: [SearchService.rerank] returns the given results, each once, with
    only the score changed, sorted by descending score; every score is the
    reranker's score for a result with the same file, and when no file is
    repeated each result gets the reranker's score of its own document. *)
Theorem rerank_spec (results : list SearchResult) :
  let out := rerank toLowerCase trim generate results in
  Permutation (map fields out) (map fields results) /\
  Sorted desc out /\
  Forall (fun h => exists r, In r results /\ file r = file h /\
           score h = Rerank.score (Rerank.rerankSingle toLowerCase trim generate (toRerankDoc r))) out /\
  (NoDup (map file results) ->
   Permutation out (map (fun r => with_score r (Rerank.score
                      (Rerank.rerankSingle toLowerCase trim generate (toRerankDoc r)))) results)).
Proof.
  intros out. split; [apply rerank_fields|split; [apply svc_sort_desc_sorted|split]].
  - apply Forall_forall. intros h Hh. unfold out in Hh. rewrite rerank_unfold in Hh.
    apply (Permutation_in _ (svc_sort_desc_perm _)) in Hh.
    apply in_map_iff in Hh as [r [<- Hr]]. simpl.
    destruct (smap_get (fold_left score_step (rr_results results) []) (file r)) as [s|] eqn:Hg.
    + destruct (score_fold_some _ _ _ _ Hg) as [[x [Hx [Hxf <-]]]|E]; [|discriminate].
      apply (Permutation_in _ (rr_results_perm results)) in Hx.
      apply in_map_iff in Hx as [r' [<- Hr']]. exists r'. split; [exact Hr'|].
      rewrite rerankSingle_file in Hxf. split; [exact Hxf|reflexivity].
    + exfalso.
      assert (Hx : In (Rerank.rerankSingle toLowerCase trim generate (toRerankDoc r)) (rr_results results)).
      { apply (Permutation_in _ (Permutation_sym (rr_results_perm results))).
        apply (in_map (fun r => Rerank.rerankSingle toLowerCase trim generate (toRerankDoc r))). exact Hr. }
      apply (score_fold_present _ [] _ Hx). rewrite rerankSingle_file. exact Hg.
  - apply rerank_nodup.
Qed.

(** *** [searchHybrid] *)

Lemma ranks_loop_keys : forall k w results rank m f,
  In f (map fst (RRF.ranks_loop k w rank results m)) <->
  In f (map fst m) \/ In f (map RRF.file results).
Proof.
  induction results as [|doc rest IH]; intros rank m f; simpl; [tauto|].
  rewrite IH. destruct (RRF.map_get m (RRF.file doc)); rewrite RRFClaims.map_set_keys;
    (split; [intros [[H|H]|H]; [right; left; symmetry; exact H|left; exact H|right; right; exact H]
            |intros [H|[H|H]]; [left; right; exact H|left; left; symmetry; exact H|right; exact H]]).
Qed.

Lemma lists_loop_keys : forall k ws lists idx m f,
  In f (map fst (RRF.lists_loop k ws idx lists m)) <->
  In f (map fst m) \/ exists l, In l lists /\ In f (map RRF.file l).
Proof.
  induction lists as [|l ls IH]; intros idx m f; simpl.
  - split; [tauto|]. intros [H|[l [[] _]]]. exact H.
  - rewrite IH, ranks_loop_keys. split.
    + intros [[H|H]|[l' [Hl' H]]]; [tauto|right; exists l; tauto|right; exists l'; tauto].
    + intros [H|[l' [[<-|Hl'] H]]]; [tauto|left; right; exact H|right; exists l'; tauto].
Qed.

Lemma rrf_files : forall lists ws k,
  Permutation (map RRF.file (RRF.reciprocalRankFusion lists ws k))
              (map fst (RRF.lists_loop k ws 0 lists [])).
Proof.
  intros lists ws k. unfold RRF.reciprocalRankFusion. rewrite <- RRFClaims.map_file_finish.
  apply Permutation_map. apply RRFClaims.rrf_sort_desc_perm.
Qed.

Lemma of_ranked_files : forall l, map file (map of_ranked l) = map RRF.file l.
Proof. intros l. rewrite map_map. reflexivity. Qed.

(** X11: [searchHybrid] returns each file at most once, only files found by
    the full-text or the vector search; without reranking it returns the
    first [limit] fused results, with reranking it applies no limit: every
    file of both searches is returned, one result per fused result. *)
Theorem searchHybrid_spec (ftsResults vecResults : list RRF.RankedResult) (limit : nat)
    (hybridWeight : Q) (useRerank : bool) :
  let fused := map of_ranked (RRF.reciprocalRankFusion [ftsResults; vecResults]
                                [(1 - hybridWeight)%Q; hybridWeight] 60) in
  let out := searchHybrid toLowerCase trim generate ftsResults vecResults limit hybridWeight useRerank in
  NoDup (map file out) /\
  (forall f, In f (map file out) -> In f (map RRF.file ftsResults) \/ In f (map RRF.file vecResults)) /\
  (useRerank = false -> out = firstn limit fused /\ (List.length out <= limit)%nat) /\
  (useRerank = true ->
     List.length out = List.length fused /\
     forall f, In f (map RRF.file ftsResults) \/ In f (map RRF.file vecResults) -> In f (map file out)).
Proof.
  intros fused out.
  set (M := RRF.lists_loop 60 [(1 - hybridWeight)%Q; hybridWeight] 0 [ftsResults; vecResults] []).
  assert (Hperm : Permutation (map file fused) (map fst M)).
  { unfold fused. rewrite of_ranked_files. apply rrf_files. }
  assert (HndM : NoDup (map fst M)) by (apply RRFClaims.lists_loop_nodup; constructor).
  assert (Hnd : NoDup (map file fused)) by exact (Permutation_NoDup (Permutation_sym Hperm) HndM).
  assert (Hmem : forall f, In f (map file fused) <->
            In f (map RRF.file ftsResults) \/ In f (map RRF.file vecResults)).
  { intros f. split.
    - intros H. apply (Permutation_in _ Hperm) in H. unfold M in H. apply lists_loop_keys in H.
      destruct H as [[]|[l [[<-|[<-|[]]] H]]]; tauto.
    - intros H. apply (Permutation_in _ (Permutation_sym Hperm)). unfold M. apply lists_loop_keys.
      right. destruct H as [H|H]; [exists ftsResults|exists vecResults]; simpl; tauto. }
  assert (Hout : (useRerank = true /\ fused <> [] /\
                  Permutation (map fields out) (map fields fused)) \/
                 out = firstn limit fused /\ (useRerank = false \/ fused = [])).
  { unfold out, searchHybrid. fold fused.
    destruct useRerank; [|right; split; [reflexivity|left; reflexivity]].
    destruct fused as [|r0 rs] eqn:Hf; simpl.
    - right. split; [reflexivity|right; reflexivity].
    - left. split; [reflexivity|split; [discriminate|]]. apply rerank_fields. }
  assert (Hfile : forall l, map file l = map (fun p => fst (fst (fst (fst (fst p))))) (map fields l)).
  { intros l. rewrite map_map. reflexivity. }
  assert (Hfo : forall l, map file (firstn limit l) = firstn limit (map file l)).
  { intros l. rewrite firstn_map. reflexivity. }
  destruct Hout as [[Hu [Hne Hp]]|[Heq Hc]].
  - assert (Hpf : Permutation (map file out) (map file fused)).
    { rewrite !Hfile. apply Permutation_map. exact Hp. }
    split; [exact (Permutation_NoDup (Permutation_sym Hpf) Hnd)|].
    split; [intros f H; apply Hmem; exact (Permutation_in _ Hpf H)|].
    split; [intros E; congruence|].
    intros _. split.
    + rewrite <- (length_map fields out), <- (length_map fields fused). apply Permutation_length. exact Hp.
    + intros f H. apply (Permutation_in _ (Permutation_sym Hpf)). apply Hmem. exact H.
  - rewrite Heq, Hfo. split.
    + rewrite <- (firstn_skipn limit (map file fused)) in Hnd. apply NoDup_app_remove_r in Hnd. exact Hnd.
    + split.
      * intros f H. apply Hmem. rewrite <- (firstn_skipn limit (map file fused)).
        apply in_or_app. left. exact H.
      * split.
        -- intros _. split; [reflexivity|]. rewrite length_firstn. lia.
        -- intros Hu. destruct Hc as [Hc|Hc]; [congruence|]. rewrite Hc, firstn_nil. simpl.
           split; [reflexivity|]. intros f H. apply Hmem in H. rewrite Hc in H. destruct H.
Qed.

End Runtime.
End ServiceFacts.

(* ------------------------------------------------------------------ *)
(** ** Display paths *)

Module DisplayPathFacts.
Import DisplayPath.

Lemma has_false : forall l p, has l p = false <-> ~ In p l.
Proof.
  intros l p. unfold has. split.
  - intros H Hin. assert (E : existsb (Store.jsstr_eqb p) l = true).
    { apply existsb_exists. exists p. split; [exact Hin|apply StoreClaims.jsstr_eqb_refl]. }
    congruence.
  - intros H. destruct (existsb (Store.jsstr_eqb p) l) eqn:E; [|reflexivity].
    apply existsb_exists in E as [x [Hx Hpx]]. apply StoreClaims.jsstr_eqb_eq in Hpx. subst x. contradiction.
Qed.

Lemma has_true : forall l p, has l p = true -> In p l.
Proof.
  intros l p H. destruct (in_dec (list_eq_dec Z.eq_dec) p l) as [Hin|Hout]; [exact Hin|].
  apply has_false in Hout. congruence.
Qed.

Definition cand (parts : list jsstr) (i : nat) : jsstr := FTS.join [47] (skipn i parts).

Lemma candidates_loop_eq : forall parts ex i,
  candidates_loop parts ex i =
  if negb (has ex (cand parts i)) then Some (cand parts i)
  else match i with O => None | S j => candidates_loop parts ex j end.
Proof. intros parts ex [|i]; reflexivity. Qed.

Lemma candidates_loop_some : forall parts ex i c, candidates_loop parts ex i = Some c ->
  exists j, (j <= i)%nat /\ c = cand parts j /\ ~ In c ex /\
    forall j', (j < j' <= i)%nat -> In (cand parts j') ex.
Proof.
  intros parts ex. induction i as [|i IH]; intros c H; rewrite candidates_loop_eq in H.
  - destruct (has ex (cand parts 0)) eqn:Hh; simpl in H; [discriminate|].
    injection H as <-. exists 0%nat. split; [lia|]. split; [reflexivity|].
    split; [apply has_false; exact Hh|]. intros j' Hj'. lia.
  - destruct (has ex (cand parts (S i))) eqn:Hh; simpl in H.
    + destruct (IH c H) as [j [Hj [Hc [Hn Hb]]]]. exists j. split; [lia|].
      split; [exact Hc|]. split; [exact Hn|]. intros j' Hj'.
      destruct (Nat.eq_dec j' (S i)) as [->|Hne]; [apply has_true; exact Hh|]. apply Hb. lia.
    + injection H as <-. exists (S i). split; [lia|]. split; [reflexivity|].
      split; [apply has_false; exact Hh|]. intros j' Hj'. lia.
Qed.

Lemma candidates_loop_none : forall parts ex i, candidates_loop parts ex i = None ->
  forall j, (j <= i)%nat -> In (cand parts j) ex.
Proof.
  intros parts ex. induction i as [|i IH]; intros H j Hj; rewrite candidates_loop_eq in H.
  - destruct (has ex (cand parts 0)) eqn:Hh; simpl in H; [|discriminate].
    replace j with 0%nat by lia. apply has_true. exact Hh.
  - destruct (has ex (cand parts (S i))) eqn:Hh; simpl in H; [|discriminate].
    destruct (Nat.eq_dec j (S i)) as [->|Hne]; [apply has_true; exact Hh|]. apply IH; [exact H|lia].
Qed.

(** X12: [computeDisplayPath] returns the shortest tail [parts.slice(i).join("/")]
    of the path parts, with at least [min(2, parts.length)] parts, that is
    not in [existingPaths]; when every such tail is taken it returns
    [filepath] itself. *)
Theorem computeDisplayPath_spec (filepath collectionPath : jsstr) (existingPaths : list jsstr) :
  let parts := display_parts filepath collectionPath in
  let top := (List.length parts - Nat.min 2 (List.length parts))%nat in
  let r := computeDisplayPath filepath collectionPath existingPaths in
  (exists i, (i <= top)%nat /\ (Nat.min 2 (List.length parts) <= List.length (skipn i parts))%nat /\
     r = FTS.join [47] (skipn i parts) /\ ~ In r existingPaths /\
     forall j, (i < j <= top)%nat -> In (FTS.join [47] (skipn j parts)) existingPaths) \/
  (r = filepath /\ forall i, (i <= top)%nat -> In (FTS.join [47] (skipn i parts)) existingPaths).
Proof.
  intros parts top r. unfold r, computeDisplayPath. fold parts. fold top.
  destruct (candidates_loop parts existingPaths top) as [c|] eqn:Hc.
  - left. destruct (candidates_loop_some _ _ _ _ Hc) as [j [Hj [-> [Hn Hb]]]].
    exists j. split; [exact Hj|]. split; [rewrite length_skipn; unfold top in Hj; lia|].
    split; [reflexivity|]. split; [exact Hn|]. exact Hb.
  - right. split; [reflexivity|]. exact (candidates_loop_none _ _ _ Hc).
Qed.

End DisplayPathFacts.

(* ------------------------------------------------------------------ *)
(** ** Collections *)

Module CollectionFacts.
Import Store Collections.

Lemma getByName_none : forall cols n, getByName cols n = None -> ~ In n (map name cols).
Proof.
  intros cols n H Hin. apply in_map_iff in Hin as [c [Hc Hin]].
  pose proof (find_none _ _ H c Hin) as E. simpl in E. rewrite Hc, StoreClaims.jsstr_eqb_refl in E.
  discriminate.
Qed.

Lemma getByName_some : forall cols n c, getByName cols n = Some c -> In c cols /\ name c = n.
Proof.
  intros cols n c H. destruct (find_some _ _ H) as [Hin E].
  apply StoreClaims.jsstr_eqb_eq in E. split; assumption.
Qed.

Lemma getByName_in : forall cols n, In n (map name cols) -> exists c, getByName cols n = Some c.
Proof.
  intros cols n Hin. destruct (getByName cols n) as [c|] eqn:E; [exists c; reflexivity|].
  apply getByName_none in E. contradiction.
Qed.

Definition pg (c : CollectionRow) := (pwd c, glob_pattern c).

Lemma getByPwdAndGlob_none : forall cols p g, getByPwdAndGlob cols p g = None ->
  ~ In (p, g) (map pg cols).
Proof.
  intros cols p g H Hin. apply in_map_iff in Hin as [c [Hc Hin]].
  pose proof (find_none _ _ H c Hin) as E. simpl in E. unfold pg in Hc. injection Hc as E1 E2. subst p g.
  rewrite !StoreClaims.jsstr_eqb_refl in E. discriminate.
Qed.

Lemma getByPwdAndGlob_some : forall cols p g c, getByPwdAndGlob cols p g = Some c ->
  In c cols /\ pwd c = p /\ glob_pattern c = g.
Proof.
  intros cols p g c H. destruct (find_some _ _ H) as [Hin E].
  apply andb_true_iff in E as [E1 E2]. apply StoreClaims.jsstr_eqb_eq in E1, E2. auto.
Qed.

Lemma getByPwdAndGlob_app : forall cols row p g, getByPwdAndGlob cols p g = None ->
  pwd row = p -> glob_pattern row = g -> getByPwdAndGlob (cols ++ [row]) p g = Some row.
Proof.
  intros cols row p g H Hp Hg. unfold getByPwdAndGlob in *.
  induction cols as [|c cols IH]; simpl in *.
  - rewrite Hp, Hg, !StoreClaims.jsstr_eqb_refl. reflexivity.
  - destruct (jsstr_eqb (pwd c) p && jsstr_eqb (glob_pattern c) g); [discriminate|]. exact (IH H).
Qed.

Lemma next_id_fresh : forall cols c, In c cols -> coll_id c < next_id cols.
Proof.
  unfold next_id. induction cols as [|x cols IH]; intros c Hc; [destruct Hc|]. simpl.
  destruct Hc as [<-|Hc]; [lia|]. specialize (IH c Hc). lia.
Qed.

Lemma next_id_not_in : forall cols, ~ In (next_id cols) (map coll_id cols).
Proof.
  intros cols Hin. apply in_map_iff in Hin as [c [Hc Hin]]. apply next_id_fresh in Hin. lia.
Qed.

Lemma NoDup_snoc {A} : forall (l : list A) x, NoDup l -> ~ In x l -> NoDup (l ++ [x]).
Proof.
  intros l x Hl Hx. apply Permutation_NoDup with (x :: l); [apply Permutation_cons_append|].
  constructor; assumption.
Qed.

Lemma NoDup_map_inj {A B} (f : A -> B) : (forall x y, f x = f y -> x = y) ->
  forall l, NoDup l -> NoDup (map f l).
Proof.
  intros Hf l Hl. induction Hl as [|x l Hx Hl IH]; simpl; constructor; [|exact IH].
  intros Hin. apply in_map_iff in Hin as [y [Hy Hin]]. apply Hf in Hy. subst y. contradiction.
Qed.

(** *** Decimal digits *)

Lemma digits_go_app : forall f n acc, digits_go f n acc = digits_go f n [] ++ acc.
Proof.
  induction f as [|f IH]; intros n acc; [reflexivity|]. cbn [digits_go].
  destruct (Nat.ltb n 10); [reflexivity|].
  rewrite IH, (IH (n / 10)%nat [_]), <- app_assoc. reflexivity.
Qed.

Lemma digits_go_fuel : forall f1 f2 n acc, (n < f1)%nat -> (n < f2)%nat ->
  digits_go f1 n acc = digits_go f2 n acc.
Proof.
  induction f1 as [|f1 IH]; intros [|f2] n acc H1 H2; try lia. cbn [digits_go].
  destruct (Nat.ltb n 10) eqn:Hn; [reflexivity|]. apply Nat.ltb_ge in Hn.
  assert (Hd : (n / 10 < n)%nat) by (apply Nat.div_lt; lia).
  apply IH; lia.
Qed.

Lemma nat_to_jsstr_small : forall n, (n < 10)%nat -> nat_to_jsstr n = [48 + Z.of_nat n].
Proof.
  intros n Hn. unfold nat_to_jsstr. cbn [digits_go].
  replace (Nat.ltb n 10) with true by (symmetry; apply Nat.ltb_lt; exact Hn).
  rewrite Nat.mod_small by exact Hn. reflexivity.
Qed.

Lemma nat_to_jsstr_big : forall n, (10 <= n)%nat ->
  nat_to_jsstr n = nat_to_jsstr (n / 10)%nat ++ [48 + Z.of_nat (n mod 10)%nat].
Proof.
  intros n Hn. unfold nat_to_jsstr at 1. cbn [digits_go].
  replace (Nat.ltb n 10) with false by (symmetry; apply Nat.ltb_ge; exact Hn).
  rewrite digits_go_app. f_equal. unfold nat_to_jsstr.
  assert (Hd : (n / 10 < n)%nat) by (apply Nat.div_lt; lia).
  apply digits_go_fuel; lia.
Qed.

Lemma nat_to_jsstr_length : forall n, (1 <= List.length (nat_to_jsstr n))%nat.
Proof.
  intros n. induction n as [n IH] using lt_wf_ind.
  destruct (Nat.lt_ge_cases n 10) as [Hn|Hn].
  - rewrite nat_to_jsstr_small by exact Hn. simpl. lia.
  - rewrite nat_to_jsstr_big by exact Hn. rewrite length_app. simpl. lia.
Qed.

Lemma nat_to_jsstr_inj : forall a b, nat_to_jsstr a = nat_to_jsstr b -> a = b.
Proof.
  intros a. induction a as [a IH] using lt_wf_ind. intros b H.
  destruct (Nat.lt_ge_cases a 10) as [Ha|Ha]; destruct (Nat.lt_ge_cases b 10) as [Hb|Hb].
  - rewrite (nat_to_jsstr_small a Ha), (nat_to_jsstr_small b Hb) in H. apply (f_equal (@hd Z 0)) in H. cbn [hd] in H. lia.
  - rewrite (nat_to_jsstr_small a Ha), (nat_to_jsstr_big b Hb) in H.
    apply (f_equal (@List.length Z)) in H. rewrite length_app in H. cbn [List.length] in H.
    pose proof (nat_to_jsstr_length (b / 10)%nat). lia.
  - rewrite (nat_to_jsstr_small b Hb), (nat_to_jsstr_big a Ha) in H.
    apply (f_equal (@List.length Z)) in H. rewrite length_app in H. cbn [List.length] in H.
    pose proof (nat_to_jsstr_length (a / 10)%nat). lia.
  - rewrite (nat_to_jsstr_big a Ha), (nat_to_jsstr_big b Hb) in H. apply app_inj_tail in H as [H1 H2].
    apply IH in H1; [|apply Nat.div_lt; lia].
    rewrite (Nat.div_mod a 10), (Nat.div_mod b 10) by lia. rewrite H1. f_equal. lia.
Qed.

(** *** The suffix loop *)

Definition suffixed (n : jsstr) (k : nat) : jsstr := n ++ [45] ++ nat_to_jsstr k.

Lemma suffix_loop_eq : forall f taken n s,
  suffix_loop (S f) taken n s =
  if existsb (jsstr_eqb (suffixed n s)) taken then suffix_loop f taken n (S s) else suffixed n s.
Proof. reflexivity. Qed.

Lemma suffix_loop_form : forall f taken n s, exists k, suffix_loop f taken n s = suffixed n k.
Proof.
  induction f as [|f IH]; intros taken n s; [exists s; reflexivity|].
  rewrite suffix_loop_eq. destruct (existsb _ _); [apply IH|exists s; reflexivity].
Qed.

Lemma suffix_loop_taken : forall f taken n s, In (suffix_loop f taken n s) taken ->
  forall k, (k <= f)%nat -> In (suffixed n (s + k)) taken.
Proof.
  induction f as [|f IH]; intros taken n s H k Hk.
  - replace k with 0%nat by lia. rewrite Nat.add_0_r. exact H.
  - rewrite suffix_loop_eq in H. destruct (existsb (jsstr_eqb (suffixed n s)) taken) eqn:E.
    + destruct k as [|k].
      * rewrite Nat.add_0_r. exact (DisplayPathFacts.has_true taken _ E).
      * replace (s + S k)%nat with (S s + k)%nat by lia. apply IH; [exact H|lia].
    + exfalso. apply (proj1 (DisplayPathFacts.has_false taken _) E). exact H.
Qed.

Lemma suffix_loop_fresh : forall taken n s,
  ~ In (suffix_loop (S (List.length taken)) taken n s) taken.
Proof.
  intros taken n s H.
  pose proof (suffix_loop_taken _ _ _ _ H) as Hall.
  assert (Hnd : NoDup (map (fun k => suffixed n (s + k)) (seq 0 (S (S (List.length taken)))))).
  { apply NoDup_map_inj; [|apply seq_NoDup].
    intros x y Hxy. unfold suffixed in Hxy. apply app_inv_head in Hxy. injection Hxy as Hxy.
    apply nat_to_jsstr_inj in Hxy. lia. }
  assert (Hincl : incl (map (fun k => suffixed n (s + k)) (seq 0 (S (S (List.length taken))))) taken).
  { intros x Hx. apply in_map_iff in Hx as [k [<- Hk]]. apply in_seq in Hk. apply Hall. lia. }
  pose proof (NoDup_incl_length Hnd Hincl) as Hlen. rewrite length_map, length_seq in Hlen. lia.
Qed.

(** [LIKE n || '%'] accepts every string starting with [n]. *)
Lemma like_any_nil : forall r, like [37] r = true.
Proof. induction r as [|c r IH]; simpl in *; [reflexivity|]. exact IH. Qed.

Lemma like_pct_nil : forall pat, like (37 :: pat) [] = like pat [].
Proof. intros pat. simpl. apply orb_false_r. Qed.

Lemma like_pct_cons : forall pat c s, like (37 :: pat) (c :: s) = like pat (c :: s) || like (37 :: pat) s.
Proof. reflexivity. Qed.

Lemma like_pct_here : forall pat s, like pat s = true -> like (37 :: pat) s = true.
Proof.
  intros pat [|c s] H; [rewrite like_pct_nil; exact H|]. rewrite like_pct_cons, H. reflexivity.
Qed.

Lemma like_prefix : forall n r, like (n ++ [37]) (n ++ r) = true.
Proof.
  induction n as [|p n IH]; intros r; [apply like_any_nil|].
  simpl app. destruct (Z.eq_dec p 37) as [->|Hp].
  - rewrite like_pct_cons. apply orb_true_iff. right. apply like_pct_here. apply IH.
  - cbn [like]. replace (p =? 37) with false by (symmetry; apply Z.eqb_neq; exact Hp).
    rewrite Z.eqb_refl, orb_true_r. simpl. apply IH.
Qed.

Lemma NoDup_map_inj_in {A B} (f : A -> B) : forall l,
  (forall x y, In x l -> In y l -> f x = f y -> x = y) -> NoDup l -> NoDup (map f l).
Proof.
  intros l Hf Hl. induction Hl as [|x l Hx Hl IH]; simpl; constructor.
  - intros Hin. apply in_map_iff in Hin as [y [Hy Hin]].
    assert (y = x) by (apply Hf; [right; exact Hin|left; reflexivity|exact Hy]). subst y. contradiction.
  - apply IH. intros a b Ha Hb. apply Hf; right; assumption.
Qed.

Lemma NoDup_map_eq {A B} (f : A -> B) : forall l x y,
  NoDup (map f l) -> In x l -> In y l -> f x = f y -> x = y.
Proof.
  induction l as [|z l IH]; intros x y Hnd Hx Hy Hxy; [destruct Hx|].
  simpl in Hnd. inversion Hnd as [|? ? Hz Hnd']. subst.
  destruct Hx as [<-|Hx]; destruct Hy as [<-|Hy]; [reflexivity| | |].
  - exfalso. apply Hz. rewrite Hxy. apply in_map. exact Hy.
  - exfalso. apply Hz. rewrite <- Hxy. apply in_map. exact Hx.
  - apply IH; assumption.
Qed.

Lemma map_snoc {A B} (f : A -> B) : forall l x, map f (l ++ [x]) = map f l ++ [f x].
Proof. intros l x. rewrite map_app. reflexivity. Qed.

(** X13: started on a table whose ids, names and (pwd, glob_pattern) pairs
    are unique, [getOrCreateCollection] keeps every row and keeps the three
    unique, and the id it returns is that of a row for the given pwd and
    glob pattern; a generated [name-N] is never a name already taken. *)
Theorem getOrCreateCollection_keeps_unique (cols : list CollectionRow) (p g name0 : jsstr) :
  NoDup (map coll_id cols) -> NoDup (map name cols) -> NoDup (map pg cols) ->
  let '(id, cols') := getOrCreateCollection cols p g name0 in
  incl cols cols' /\ NoDup (map coll_id cols') /\ NoDup (map name cols') /\ NoDup (map pg cols') /\
  exists row, In row cols' /\ coll_id row = id /\ pwd row = p /\ glob_pattern row = g.
Proof.
  intros Hid Hnm Hpg. unfold getOrCreateCollection.
  set (n := match name0 with [] => default_name p | _ => name0 end).
  destruct (getByPwdAndGlob cols p g) as [e|] eqn:Hfind.
  - destruct (getByPwdAndGlob_some _ _ _ _ Hfind) as [He [Hp Hg]].
    split; [apply incl_refl|]. split; [exact Hid|]. split; [exact Hnm|]. split; [exact Hpg|].
    exists e. auto.
  - assert (Hpg' : NoDup (map pg (cols ++ [mkCollection (next_id cols) n p g]))).
    { rewrite map_snoc. apply NoDup_snoc; [exact Hpg|]. apply getByPwdAndGlob_none. exact Hfind. }
    assert (Hgen : forall nm, ~ In nm (map name cols) ->
      incl cols (cols ++ [mkCollection (next_id cols) nm p g]) /\
      NoDup (map coll_id (cols ++ [mkCollection (next_id cols) nm p g])) /\
      NoDup (map name (cols ++ [mkCollection (next_id cols) nm p g])) /\
      NoDup (map pg (cols ++ [mkCollection (next_id cols) nm p g])) /\
      exists row, In row (cols ++ [mkCollection (next_id cols) nm p g]) /\
        coll_id row = coll_id (mkCollection (next_id cols) nm p g) /\ pwd row = p /\ glob_pattern row = g).
    { intros nm Hfresh. split; [intros x Hx; apply in_or_app; left; exact Hx|].
      split; [rewrite map_snoc; apply NoDup_snoc; [exact Hid|apply next_id_not_in]|].
      split; [rewrite map_snoc; apply NoDup_snoc; assumption|].
      split; [rewrite map_snoc; apply NoDup_snoc; [exact Hpg|]; apply getByPwdAndGlob_none; exact Hfind|].
      exists (mkCollection (next_id cols) nm p g). split; [apply in_or_app; right; left; reflexivity|].
      auto. }
    destruct (getByName cols n) as [c|] eqn:Hn.
    + apply Hgen. intros Hin.
      pose (allC := map name (filter (fun c => like (n ++ [37]) (name c)) cols)).
      pose proof (suffix_loop_fresh allC n 2) as Hf.
      destruct (suffix_loop_form (S (List.length allC)) allC n 2) as [k Hk].
      change (In (suffix_loop (S (List.length allC)) allC n 2) (map name cols)) in Hin.
      rewrite Hk in Hin, Hf. apply Hf.
      apply in_map_iff in Hin as [c' [Hc' Hin]]. rewrite <- Hc'. unfold allC. apply in_map.
      apply filter_In. split; [exact Hin|]. rewrite Hc'. unfold suffixed. apply like_prefix.
    + apply Hgen. apply getByName_none. exact Hn.
Qed.

Definition sample_cols : list CollectionRow :=
  [mkCollection 1 (of_string "notes") (of_string "/a/notes") (of_string "**/*.md");
   mkCollection 2 (of_string "notes-2") (of_string "/c/notes") (of_string "**/*.md")].

Lemma getOrCreateCollection_keeps_unique_witness :
  NoDup (map coll_id sample_cols) /\ NoDup (map name sample_cols) /\ NoDup (map pg sample_cols) /\
  let '(id, cols') := getOrCreateCollection sample_cols (of_string "/b/notes") (of_string "**/*.md") [] in
  incl sample_cols cols' /\ NoDup (map coll_id cols') /\ NoDup (map name cols') /\ NoDup (map pg cols') /\
  exists row, In row cols' /\ coll_id row = id /\ pwd row = of_string "/b/notes" /\
              glob_pattern row = of_string "**/*.md".
Proof.
  assert (H1 : NoDup (map coll_id sample_cols)).
  { constructor; [simpl; intros [H|[]]; discriminate|constructor; [intros []|constructor]]. }
  assert (H2 : NoDup (map name sample_cols)).
  { constructor; [simpl; intros [H|[]]; discriminate|constructor; [intros []|constructor]]. }
  assert (H3 : NoDup (map pg sample_cols)).
  { constructor; [simpl; intros [H|[]]; discriminate|constructor; [intros []|constructor]]. }
  split; [exact H1|]. split; [exact H2|]. split; [exact H3|].
  exact (getOrCreateCollection_keeps_unique sample_cols (of_string "/b/notes") (of_string "**/*.md") [] H1 H2 H3).
Defined.

Lemma create_ok : forall cols p g name0 row cols', create cols p g name0 = Ok (row, cols') ->
  getByPwdAndGlob cols p g = None /\ cols' = cols ++ [row] /\ pwd row = p /\ glob_pattern row = g.
Proof.
  intros cols p g name0 row cols' H. unfold create in H.
  destruct (getByName _ _); [discriminate|].
  destruct (getByPwdAndGlob cols p g) eqn:Hpg; [discriminate|].
  injection H as <- <-. auto.
Qed.

(** X14: both get-or-create functions are idempotent: once [getOrCreateCollection]
    (or [CollectionManager.getOrCreate], when it succeeds) has returned for a
    pwd and glob pattern, a second call with the same pwd and pattern, and
    any name, returns the same id (row) and changes nothing. *)
Theorem getOrCreate_idempotent (cols : list CollectionRow) (p g name0 name1 : jsstr) :
  (let '(id, cols') := getOrCreateCollection cols p g name0 in
   getOrCreateCollection cols' p g name1 = (id, cols')) /\
  (forall row cols', Collections.getOrCreate cols p g name0 = Ok (row, cols') ->
   Collections.getOrCreate cols' p g name1 = Ok (row, cols')).
Proof.
  split.
  - unfold getOrCreateCollection at 1.
    destruct (getByPwdAndGlob cols p g) as [e|] eqn:Hfind.
    + unfold getOrCreateCollection. rewrite Hfind. reflexivity.
    + destruct (getByName _ _).
      * unfold getOrCreateCollection at 1. rewrite getByPwdAndGlob_app; reflexivity || exact Hfind.
      * unfold getOrCreateCollection at 1. rewrite getByPwdAndGlob_app; reflexivity || exact Hfind.
  - intros row cols' H. unfold Collections.getOrCreate in H.
    destruct (getByPwdAndGlob cols p g) as [e|] eqn:Hfind.
    + injection H as <- <-. unfold Collections.getOrCreate. rewrite Hfind. reflexivity.
    + destruct (create_ok _ _ _ _ _ _ H) as [_ [-> [Hp Hg]]].
      unfold Collections.getOrCreate. rewrite getByPwdAndGlob_app by assumption. reflexivity.
Qed.

(** X15: [CollectionManager.rename] fails exactly when [oldName] is no
    collection's name or [newName] already is one (so renaming a collection
    to its own name always fails); on success, with unique ids and names, it
    replaces [oldName] by [newName] in the name column, keeps every id, pwd
    and glob pattern, and the names stay unique. *)
Theorem rename_spec (cols : list CollectionRow) (oldName newName : jsstr) :
  NoDup (map coll_id cols) -> NoDup (map name cols) ->
  match Collections.rename cols oldName newName with
  | Ok cols' =>
      In oldName (map name cols) /\ ~ In newName (map name cols) /\
      map name cols' = map (fun n => if jsstr_eqb n oldName then newName else n) (map name cols) /\
      map coll_id cols' = map coll_id cols /\ map pg cols' = map pg cols /\
      NoDup (map name cols')
  | Err _ => ~ In oldName (map name cols) \/ In newName (map name cols)
  end.
Proof.
  intros Hid Hnm. unfold Collections.rename.
  destruct (getByName cols oldName) as [coll|] eqn:Ho; [|left; apply getByName_none; exact Ho].
  destruct (getByName_some _ _ _ Ho) as [Hc Hcn].
  destruct (getByName cols newName) as [c2|] eqn:Hn.
  - right. destruct (getByName_some _ _ _ Hn) as [H1 H2]. rewrite <- H2. apply in_map. exact H1.
  - assert (Hnew := getByName_none _ _ Hn).
    assert (Heqv : forall c, In c cols -> (coll_id c =? coll_id coll) = jsstr_eqb (name c) oldName).
    { intros c Hin.
      destruct (coll_id c =? coll_id coll) eqn:E1; destruct (jsstr_eqb (name c) oldName) eqn:E2;
        try reflexivity.
      - apply Z.eqb_eq in E1.
        assert (c = coll) by (apply (NoDup_map_eq coll_id cols); assumption). subst c.
        rewrite Hcn, StoreClaims.jsstr_eqb_refl in E2. discriminate.
      - apply StoreClaims.jsstr_eqb_eq in E2.
        assert (c = coll) by (apply (NoDup_map_eq name cols); try assumption; congruence). subst c.
        rewrite Z.eqb_refl in E1. discriminate. }
    assert (Hmap : map name (Collections.repo_rename cols (coll_id coll) newName) =
                   map (fun n => if jsstr_eqb n oldName then newName else n) (map name cols)).
    { unfold Collections.repo_rename. rewrite !map_map. apply map_ext_in. intros c Hin.
      rewrite <- (Heqv c Hin). destruct (coll_id c =? coll_id coll); reflexivity. }
    split; [rewrite <- Hcn; apply in_map; exact Hc|]. split; [exact Hnew|]. split; [exact Hmap|].
    split.
    { unfold Collections.repo_rename. rewrite map_map. apply map_ext. intros c.
      destruct (coll_id c =? coll_id coll); reflexivity. }
    split.
    { unfold Collections.repo_rename. rewrite map_map. apply map_ext. intros c.
      destruct (coll_id c =? coll_id coll); reflexivity. }
    rewrite Hmap. apply NoDup_map_inj_in; [|exact Hnm]. intros x y Hx Hy.
    destruct (jsstr_eqb x oldName) eqn:Ex; destruct (jsstr_eqb y oldName) eqn:Ey; intros E.
    + apply StoreClaims.jsstr_eqb_eq in Ex, Ey. congruence.
    + exfalso. apply Hnew. rewrite E. exact Hy.
    + exfalso. apply Hnew. rewrite <- E. exact Hx.
    + exact E.
Qed.

Lemma rename_spec_witness :
  NoDup (map coll_id sample_cols) /\ NoDup (map name sample_cols) /\
  match Collections.rename sample_cols (of_string "notes") (of_string "docs") with
  | Ok cols' =>
      In (of_string "notes") (map name sample_cols) /\ ~ In (of_string "docs") (map name sample_cols) /\
      map name cols' = map (fun n => if jsstr_eqb n (of_string "notes") then of_string "docs" else n)
                           (map name sample_cols) /\
      map coll_id cols' = map coll_id sample_cols /\ map pg cols' = map pg sample_cols /\
      NoDup (map name cols')
  | Err _ => ~ In (of_string "notes") (map name sample_cols) \/ In (of_string "docs") (map name sample_cols)
  end.
Proof.
  assert (H1 : NoDup (map coll_id sample_cols)).
  { constructor; [simpl; intros [H|[]]; discriminate|constructor; [intros []|constructor]]. }
  assert (H2 : NoDup (map name sample_cols)).
  { constructor; [simpl; intros [H|[]]; discriminate|constructor; [intros []|constructor]]. }
  split; [exact H1|]. split; [exact H2|].
  exact (rename_spec sample_cols (of_string "notes") (of_string "docs") H1 H2).
Defined.

Lemma referenced_ext : forall d1 d2 h,
  filter (fun d => active d =? 1) d1 = filter (fun d => active d =? 1) d2 ->
  referenced d1 h = referenced d2 h.
Proof. intros d1 d2 h E. unfold referenced, active_hashes. rewrite E. reflexivity. Qed.

Lemma cleanup_docs_sub : forall tc st d,
  In d (documents (snd (cleanupOrphanedContent tc st))) -> In d (documents st).
Proof. intros tc [cs ds] d H. simpl in H. apply filter_In in H. apply H. Qed.

Lemma cleanup_content : forall tc st,
  content (snd (cleanupOrphanedContent tc st)) =
  filter (fun r => referenced (documents st) (c_hash r)) (content st).
Proof. intros tc [cs ds]. reflexivity. Qed.

Lemma cleanup_documents : forall tc st,
  documents (snd (cleanupOrphanedContent tc st)) =
  filter (fun d => negb (existsb (fun r => jsstr_eqb (c_hash r) (d_hash d))
                           (filter (fun r => negb (referenced (documents st) (c_hash r))) (content st))))
         (documents st).
Proof. intros tc [cs ds]. reflexivity. Qed.

Lemma cleanup_count : forall tc st,
  fst (cleanupOrphanedContent tc st) =
  (List.length (filter (fun r => negb (referenced (documents st) (c_hash r))) (content st)) +
   list_sum (map (fun d => S (tc d))
     (filter (fun d => existsb (fun r => jsstr_eqb (c_hash r) (d_hash d))
                         (filter (fun r => negb (referenced (documents st) (c_hash r))) (content st)))
             (documents st))))%nat.
Proof. intros tc [cs ds]. reflexivity. Qed.

(** X16: [CollectionManager.remove] fails exactly when no collection has the
    name; otherwise it deletes that collection (so, names being unique, the
    name is free again), leaves no document and no path context of its id,
    reports as [deletedDocs] its number of active documents, keeps every
    active document of the other collections, and leaves only content some
    remaining active document references.  The content rows it deletes take
    with them, through the cascade, the (inactive) documents of the other
    collections on their hashes, and [cleanedHashes] is the [changes] of
    that statement: the number of deleted content rows plus, for each such
    document, 1 and the rows its FTS trigger changes; it is the number of
    deleted content rows exactly when no such document exists. *)
Theorem remove_spec (trigger_changes : DocumentRow -> nat) (st : Collections.tables) (nm : jsstr) :
  NoDup (map name (Collections.t_collections st)) ->
  match Collections.remove trigger_changes st nm with
  | Err _ => ~ In nm (map name (Collections.t_collections st))
  | Ok (deletedDocs, cleanedHashes, st') =>
      exists coll, In coll (Collections.t_collections st) /\ name coll = nm /\
      let deleted := filter (fun r => negb (referenced (Collections.t_documents st') (c_hash r)))
                            (Collections.t_content st) in
      let cascaded := filter (fun d => existsb (fun r => jsstr_eqb (c_hash r) (d_hash d)) deleted &&
                                       negb (d_collection_id d =? coll_id coll))
                             (Collections.t_documents st) in
      ~ In nm (map name (Collections.t_collections st')) /\
      Collections.t_collections st' =
        filter (fun c => negb (coll_id c =? coll_id coll)) (Collections.t_collections st) /\
      Forall (fun d => d_collection_id d <> coll_id coll) (Collections.t_documents st') /\
      Forall (fun r => pc_collection_id r <> coll_id coll) (Collections.t_path_contexts st') /\
      deletedDocs = Collections.countDocuments (Collections.t_documents st) (coll_id coll) /\
      filter (fun d => active d =? 1) (Collections.t_documents st') =
        filter (fun d => (active d =? 1) && negb (d_collection_id d =? coll_id coll))
               (Collections.t_documents st) /\
      Forall (fun r => referenced (Collections.t_documents st') (c_hash r) = true)
             (Collections.t_content st') /\
      (forall d, In d (Collections.t_documents st') <->
                 In d (Collections.t_documents st) /\ d_collection_id d <> coll_id coll /\
                 ~ In d cascaded) /\
      Forall (fun d => active d <> 1) cascaded /\
      cleanedHashes = (List.length deleted + list_sum (map (fun d => S (trigger_changes d)) cascaded))%nat /\
      (cleanedHashes = List.length deleted <-> cascaded = [])
  end.
Proof.
  intros Hnm. unfold Collections.remove.
  destruct (getByName (Collections.t_collections st) nm) as [coll|] eqn:Hg;
    [|apply getByName_none; exact Hg].
  destruct (getByName_some _ _ _ Hg) as [Hc Hcn].
  set (docs1 := filter (fun d => negb (d_collection_id d =? coll_id coll)) (Collections.t_documents st)).
  assert (Hact := StoreClaims.cleanup_active_docs trigger_changes (mkDb (Collections.t_content st) docs1)).
  assert (Hsub := cleanup_docs_sub trigger_changes (mkDb (Collections.t_content st) docs1)).
  assert (Hcon := cleanup_content trigger_changes (mkDb (Collections.t_content st) docs1)).
  assert (Hdocs := cleanup_documents trigger_changes (mkDb (Collections.t_content st) docs1)).
  assert (Hcnt := cleanup_count trigger_changes (mkDb (Collections.t_content st) docs1)).
  assert (Hinact : forall d, In d docs1 ->
     existsb (fun r => jsstr_eqb (c_hash r) (d_hash d))
       (filter (fun r => negb (referenced docs1 (c_hash r))) (Collections.t_content st)) = true ->
     active d <> 1)
    by (intros d; exact (StoreClaims.cleanup_cascaded_inactive (mkDb (Collections.t_content st) docs1) d)).
  destruct (cleanupOrphanedContent trigger_changes (mkDb (Collections.t_content st) docs1)) as [cleaned st2].
  cbn [snd fst documents content] in Hact, Hsub, Hcon, Hdocs, Hcnt.
  assert (Href : forall h, referenced (documents st2) h = referenced docs1 h)
    by (intros h; apply referenced_ext; exact Hact).
  cbn beta iota zeta. cbn [Collections.t_collections Collections.t_documents
                           Collections.t_content Collections.t_path_contexts].
  set (del := filter (fun r => negb (referenced docs1 (c_hash r))) (Collections.t_content st)) in *.
  assert (Hdel : filter (fun r => negb (referenced (documents st2) (c_hash r))) (Collections.t_content st)
                 = del) by (apply filter_ext; intros r; rewrite Href; reflexivity).
  rewrite Hdel.
  assert (Hcas : filter (fun d => existsb (fun r => jsstr_eqb (c_hash r) (d_hash d)) del) docs1 =
                 filter (fun d => existsb (fun r => jsstr_eqb (c_hash r) (d_hash d)) del &&
                                  negb (d_collection_id d =? coll_id coll)) (Collections.t_documents st))
    by (unfold docs1; apply StoreClaims.filter_filter_comm).
  exists coll. split; [exact Hc|]. split; [exact Hcn|]. split.
  { intros Hin. apply in_map_iff in Hin as [c [Hcnm Hin]]. apply filter_In in Hin as [Hin Hneq].
    assert (c = coll) by (apply (NoDup_map_eq name _ _ _ Hnm); congruence). subst c.
    rewrite Z.eqb_refl in Hneq. discriminate. }
  split; [reflexivity|]. split.
  { apply Forall_forall. intros d Hd. apply Hsub in Hd. unfold docs1 in Hd.
    apply filter_In in Hd as [_ Hd]. intros E. rewrite E, Z.eqb_refl in Hd. discriminate. }
  split.
  { apply Forall_forall. intros r Hr. apply filter_In in Hr as [_ Hr]. intros E.
    rewrite E, Z.eqb_refl in Hr. discriminate. }
  split; [reflexivity|]. split.
  { rewrite Hact. unfold docs1. rewrite StoreClaims.filter_filter_comm. apply filter_ext. intros d.
    destruct (active d =? 1); reflexivity. }
  split.
  { apply Forall_forall. intros r Hr. rewrite Hcon in Hr. apply filter_In in Hr as [_ Hr].
    rewrite Href. exact Hr. }
  split.
  { intros d. rewrite Hdocs. unfold docs1. rewrite !filter_In. split.
    - intros [[Hd Hn] Hx]. split; [exact Hd|]. split.
      + intros E. rewrite E, Z.eqb_refl in Hn. discriminate.
      + intros [_ Hx']. apply andb_true_iff in Hx' as [Hx' _]. rewrite Hx' in Hx. discriminate.
    - intros [Hd [Hn Hx]]. split; [split; [exact Hd|]|].
      + apply negb_true_iff, Z.eqb_neq. exact Hn.
      + destruct (existsb _ del) eqn:Ex; [|reflexivity]. exfalso. apply Hx. split; [exact Hd|].
        simpl. apply negb_true_iff, Z.eqb_neq. exact Hn. }
  split.
  { rewrite <- Hcas. apply Forall_forall. intros d Hd. apply filter_In in Hd as [Hd Hx].
    exact (Hinact d Hd Hx). }
  rewrite Hcnt, Hcas. split; [reflexivity|].
  rewrite <- (StoreClaims.list_sum_map_S_zero trigger_changes). lia.
Qed.

Definition sample_tables : Collections.tables :=
  Collections.mkTables sample_cols
    [mkDocument 1 1 (of_string "a.md") (of_string "h1") 1;
     mkDocument 2 1 (of_string "b.md") (of_string "h2") 0;
     mkDocument 3 2 (of_string "c.md") (of_string "h1") 1;
     mkDocument 4 2 (of_string "d.md") (of_string "h2") 0]
    [mkContent (of_string "h1") (of_string "A"); mkContent (of_string "h2") (of_string "B")]
    [mkPathContext 1 1 (of_string "/") (of_string "notes")].

Definition sample_trigger_changes (d : DocumentRow) : nat := 1.

Lemma remove_spec_witness :
  NoDup (map name (Collections.t_collections sample_tables)) /\
  match Collections.remove sample_trigger_changes sample_tables (of_string "notes") with
  | Err _ => ~ In (of_string "notes") (map name (Collections.t_collections sample_tables))
  | Ok (deletedDocs, cleanedHashes, st') =>
      exists coll, In coll (Collections.t_collections sample_tables) /\ name coll = of_string "notes" /\
      let deleted := filter (fun r => negb (referenced (Collections.t_documents st') (c_hash r)))
                            (Collections.t_content sample_tables) in
      let cascaded := filter (fun d => existsb (fun r => jsstr_eqb (c_hash r) (d_hash d)) deleted &&
                                       negb (d_collection_id d =? coll_id coll))
                             (Collections.t_documents sample_tables) in
      ~ In (of_string "notes") (map name (Collections.t_collections st')) /\
      Collections.t_collections st' =
        filter (fun c => negb (coll_id c =? coll_id coll)) (Collections.t_collections sample_tables) /\
      Forall (fun d => d_collection_id d <> coll_id coll) (Collections.t_documents st') /\
      Forall (fun r => pc_collection_id r <> coll_id coll) (Collections.t_path_contexts st') /\
      deletedDocs = Collections.countDocuments (Collections.t_documents sample_tables) (coll_id coll) /\
      filter (fun d => active d =? 1) (Collections.t_documents st') =
        filter (fun d => (active d =? 1) && negb (d_collection_id d =? coll_id coll))
               (Collections.t_documents sample_tables) /\
      Forall (fun r => referenced (Collections.t_documents st') (c_hash r) = true)
             (Collections.t_content st') /\
      (forall d, In d (Collections.t_documents st') <->
                 In d (Collections.t_documents sample_tables) /\ d_collection_id d <> coll_id coll /\
                 ~ In d cascaded) /\
      Forall (fun d => active d <> 1) cascaded /\
      cleanedHashes = (List.length deleted + list_sum (map (fun d => S (sample_trigger_changes d)) cascaded))%nat /\
      (cleanedHashes = List.length deleted <-> cascaded = [])
  end.
Proof.
  assert (H : NoDup (map name (Collections.t_collections sample_tables))).
  { constructor; [simpl; intros [H|[]]; discriminate|constructor; [intros []|constructor]]. }
  split; [exact H|]. exact (remove_spec sample_trigger_changes sample_tables (of_string "notes") H).
Defined.

End CollectionFacts.

(* ------------------------------------------------------------------ *)
(** ** Path contexts: upsert, delete and lookup *)
Module ContextFacts.
Import Store Contexts.

Definition pkey (r : PathContextRow) : Z * jsstr := (pc_collection_id r, path_prefix r).

Lemma key_is_spec : forall cid p r, key_is cid p r = true <-> pkey r = (cid, p).
Proof.
  intros cid p r. unfold key_is, pkey. rewrite andb_true_iff, Z.eqb_eq, StoreClaims.jsstr_eqb_eq.
  split; [intros [-> ->]; reflexivity|intros E; injection E as E1 E2; auto].
Qed.

Lemma find_map_id {A} (f : A -> A) (q : A -> bool) : forall l,
  (forall x, In x l -> q (f x) = q x /\ (q x = true -> f x = x)) ->
  find q (map f l) = find q l.
Proof.
  induction l as [|x l IH]; intros H; [reflexivity|]. simpl.
  destruct (H x (or_introl eq_refl)) as [E1 E2]. rewrite E1.
  destruct (q x) eqn:Eq; [rewrite E2; reflexivity|]. apply IH. intros y Hy. apply H. right. exact Hy.
Qed.

Lemma find_snoc {A} (q : A -> bool) : forall l x, find q l = None ->
  find q (l ++ [x]) = if q x then Some x else None.
Proof.
  induction l as [|y l IH]; intros x H; [reflexivity|]. simpl in *.
  destruct (q y); [discriminate|]. apply IH. exact H.
Qed.

Lemma find_snoc_other {A} (q : A -> bool) : forall l x, q x = false ->
  find q (l ++ [x]) = find q l.
Proof.
  induction l as [|y l IH]; intros x H; simpl; [rewrite H; reflexivity|].
  destruct (q y); [reflexivity|]. apply IH. exact H.
Qed.

Lemma key_is_other : forall cid p cid' p' r, (cid', p') <> (cid, p) ->
  key_is cid p r = true -> key_is cid' p' r = false.
Proof.
  intros cid p cid' p' r Hne H. apply key_is_spec in H.
  destruct (key_is cid' p' r) eqn:E; [|reflexivity]. apply key_is_spec in E. congruence.
Qed.

Lemma upsert_keys : forall ctxs newId cid p ctx,
  getByCollectionAndPrefix ctxs cid p <> None ->
  map pkey (upsert ctxs newId cid p ctx) = map pkey ctxs.
Proof.
  intros ctxs newId cid p ctx H. unfold upsert.
  destruct (getByCollectionAndPrefix ctxs cid p); [|congruence].
  rewrite map_map. apply map_ext. intros r. destruct (key_is cid p r); reflexivity.
Qed.

Lemma upsert_NoDup : forall ctxs newId cid p ctx,
  NoDup (map pkey ctxs) -> NoDup (map pkey (upsert ctxs newId cid p ctx)).
Proof.
  intros ctxs newId cid p ctx Hnd.
  destruct (getByCollectionAndPrefix ctxs cid p) eqn:Hg.
  - rewrite upsert_keys by congruence. exact Hnd.
  - unfold upsert. rewrite Hg. rewrite CollectionFacts.map_snoc.
    apply CollectionFacts.NoDup_snoc; [exact Hnd|]. intros Hin.
    apply in_map_iff in Hin as [r [Hr Hin]].
    unfold getByCollectionAndPrefix in Hg. pose proof (find_none _ _ Hg r Hin) as E.
    assert (Hk : key_is cid p r = true) by (apply key_is_spec; exact Hr).
    rewrite Hk in E. discriminate.
Qed.

Lemma upsert_lookup : forall ctxs newId cid p ctx,
  NoDup (map pkey ctxs) ->
  exists r, getByCollectionAndPrefix (upsert ctxs newId cid p ctx) cid p = Some r /\
            In r (upsert ctxs newId cid p ctx) /\
            pc_collection_id r = cid /\ path_prefix r = p /\ context r = ctx.
Proof.
  intros ctxs newId cid p ctx Hnd. unfold upsert.
  destruct (getByCollectionAndPrefix ctxs cid p) as [r0|] eqn:Hg.
  - unfold getByCollectionAndPrefix in Hg |- *.
    induction ctxs as [|x l IH]; [discriminate|]. cbn [find map] in Hg |- *.
    destruct (key_is cid p x) eqn:Ex.
    + assert (Ek : key_is cid p (mkPathContext (pc_id x) (pc_collection_id x) (path_prefix x) ctx)
                   = true) by exact Ex.
      rewrite Ek. eexists. split; [reflexivity|]. split; [left; reflexivity|].
      apply key_is_spec in Ex. unfold pkey in Ex. injection Ex as E1 E2. simpl. auto.
    + simpl in Hnd. inversion Hnd. subst.
      destruct (IH ltac:(assumption) Hg) as [r [R1 [R2 R3]]].
      rewrite Ex. cbv beta iota. try rewrite Ex.
      exists r. split; [exact R1|]. split; [right; exact R2|exact R3].
  - exists (mkPathContext newId cid p ctx).
    split; [|split; [apply in_or_app; right; left; reflexivity|simpl; auto]].
    unfold getByCollectionAndPrefix in *. rewrite find_snoc by exact Hg.
    unfold key_is. simpl. rewrite Z.eqb_refl, StoreClaims.jsstr_eqb_refl. reflexivity.
Qed.

Lemma upsert_other : forall ctxs newId cid p ctx cid' p', (cid', p') <> (cid, p) ->
  getByCollectionAndPrefix (upsert ctxs newId cid p ctx) cid' p' =
  getByCollectionAndPrefix ctxs cid' p'.
Proof.
  intros ctxs newId cid p ctx cid' p' Hne. unfold upsert.
  destruct (getByCollectionAndPrefix ctxs cid p) eqn:Hg; unfold getByCollectionAndPrefix.
  - apply find_map_id. intros x _. destruct (key_is cid p x) eqn:Ex; [|auto].
    rewrite (key_is_other cid p cid' p' x Hne Ex).
    split; [|discriminate].
    apply (key_is_other cid p); [exact Hne|]. unfold key_is in *. exact Ex.
  - apply find_snoc_other. apply (key_is_other cid p); [exact Hne|].
    unfold key_is. simpl. rewrite Z.eqb_refl, StoreClaims.jsstr_eqb_refl. reflexivity.
Qed.

Lemma delete_lookup : forall ctxs cid p cid' p',
  getByCollectionAndPrefix (deleteByCollectionAndPrefix ctxs cid p) cid' p' =
  if Z.eqb cid' cid && jsstr_eqb p' p then None else getByCollectionAndPrefix ctxs cid' p'.
Proof.
  intros ctxs cid p cid' p'. unfold getByCollectionAndPrefix, deleteByCollectionAndPrefix.
  destruct (Z.eqb cid' cid && jsstr_eqb p' p) eqn:Ek.
  - apply andb_true_iff in Ek as [E1 E2]. apply Z.eqb_eq in E1. apply StoreClaims.jsstr_eqb_eq in E2.
    subst. induction ctxs as [|x l IH]; [reflexivity|]. simpl.
    destruct (key_is cid p x) eqn:Ex; simpl; [exact IH|]. rewrite Ex. exact IH.
  - induction ctxs as [|x l IH]; [reflexivity|]. simpl.
    destruct (key_is cid p x) eqn:Ex; simpl.
    + rewrite IH. assert (Hne : (cid', p') <> (cid, p)).
      { intros E. injection E as -> ->. rewrite Z.eqb_refl, StoreClaims.jsstr_eqb_refl in Ek.
        discriminate. }
      rewrite (key_is_other cid p cid' p' x Hne Ex). reflexivity.
    + destruct (key_is cid' p' x); [reflexivity|exact IH].
Qed.

(** X17: [ContextRepository.upsert] keeps (collection, prefix) keys unique
    and is read back by [getByCollectionAndPrefix]: afterwards the key maps
    to a row with the new context, and every other key maps to what it did
    before; [deleteByCollectionAndPrefix] makes the key map to nothing and
    leaves every other key as it was. *)
Theorem upsert_delete_lookup (ctxs : list PathContextRow) (newId cid : Z) (p ctx : jsstr) :
  NoDup (map pkey ctxs) ->
  NoDup (map pkey (upsert ctxs newId cid p ctx)) /\
  (exists r, getByCollectionAndPrefix (upsert ctxs newId cid p ctx) cid p = Some r /\
             pc_collection_id r = cid /\ path_prefix r = p /\ context r = ctx) /\
  (forall cid' p', (cid', p') <> (cid, p) ->
     getByCollectionAndPrefix (upsert ctxs newId cid p ctx) cid' p' =
     getByCollectionAndPrefix ctxs cid' p') /\
  getByCollectionAndPrefix (deleteByCollectionAndPrefix ctxs cid p) cid p = None /\
  (forall cid' p', (cid', p') <> (cid, p) ->
     getByCollectionAndPrefix (deleteByCollectionAndPrefix ctxs cid p) cid' p' =
     getByCollectionAndPrefix ctxs cid' p').
Proof.
  intros Hnd. split; [apply upsert_NoDup; exact Hnd|]. split.
  { destruct (upsert_lookup ctxs newId cid p ctx Hnd) as [r [H1 [_ H2]]]. exists r. auto. }
  split; [apply upsert_other|]. split.
  - rewrite delete_lookup, Z.eqb_refl, StoreClaims.jsstr_eqb_refl. reflexivity.
  - intros cid' p' Hne. rewrite delete_lookup.
    destruct (Z.eqb cid' cid && jsstr_eqb p' p) eqn:Ek; [|reflexivity].
    apply andb_true_iff in Ek as [E1 E2]. apply Z.eqb_eq in E1. apply StoreClaims.jsstr_eqb_eq in E2.
    subst. contradiction.
Qed.

Definition sample_ctxs : list PathContextRow :=
  [mkPathContext 1 1 [] (of_string "notes root");
   mkPathContext 2 1 (of_string "work") (of_string "work notes")].

Lemma upsert_delete_lookup_witness :
  NoDup (map pkey sample_ctxs) /\
  NoDup (map pkey (upsert sample_ctxs 3 1 (of_string "work") (of_string "job"))) /\
  (exists r, getByCollectionAndPrefix (upsert sample_ctxs 3 1 (of_string "work") (of_string "job"))
               1 (of_string "work") = Some r /\
             pc_collection_id r = 1 /\ path_prefix r = of_string "work" /\ context r = of_string "job") /\
  (forall cid' p', (cid', p') <> (1, of_string "work") ->
     getByCollectionAndPrefix (upsert sample_ctxs 3 1 (of_string "work") (of_string "job")) cid' p' =
     getByCollectionAndPrefix sample_ctxs cid' p') /\
  getByCollectionAndPrefix (deleteByCollectionAndPrefix sample_ctxs 1 (of_string "work"))
    1 (of_string "work") = None /\
  (forall cid' p', (cid', p') <> (1, of_string "work") ->
     getByCollectionAndPrefix (deleteByCollectionAndPrefix sample_ctxs 1 (of_string "work")) cid' p' =
     getByCollectionAndPrefix sample_ctxs cid' p').
Proof.
  assert (H : NoDup (map pkey sample_ctxs)).
  { constructor; [simpl; intros [H|[]]; discriminate|constructor; [intros []|constructor]]. }
  split; [exact H|].
  exact (upsert_delete_lookup sample_ctxs 3 1 (of_string "work") (of_string "job") H).
Defined.

Lemma like_prefix_slash_length : forall pre rest s, ~ In 37 pre ->
  like (pre ++ 47 :: rest) s = true -> (List.length pre < List.length s)%nat.
Proof.
  induction pre as [|a pre IH]; intros rest s Hn H.
  - destruct s as [|c s]; [discriminate|]. simpl. lia.
  - cbn [app like] in H. destruct (Z.eqb_spec a 37) as [->|Ha].
    + exfalso. apply Hn. left. reflexivity.
    + destruct s as [|c s]; [discriminate|]. apply andb_true_iff in H as [_ H].
      apply IH in H; [simpl; lia|]. intros Hin. apply Hn. right. exact Hin.
Qed.

Lemma in_insert_by_len : forall r l y, In y (insert_by_len r l) -> y = r \/ In y l.
Proof.
  intros r l y. induction l as [|x l IH]; simpl; [intros [H|[]]; auto|].
  destruct (Nat.leb _ _); simpl; [intros [H|H]; auto|].
  intros [H|H]; [auto|]. destruct (IH H); auto.
Qed.

Lemma in_order_by_len_desc : forall l y, In y (order_by_len_desc l) -> In y l.
Proof.
  induction l as [|x l IH]; simpl; [auto|]. intros y H.
  apply in_insert_by_len in H as [H|H]; auto.
Qed.

Lemma order_by_len_desc_head : forall l r, In r l ->
  (forall r', In r' l -> r' = r \/ (List.length (path_prefix r') < List.length (path_prefix r))%nat) ->
  exists rest, order_by_len_desc l = r :: rest.
Proof.
  induction l as [|x l IH]; intros r Hr Hmax; [destruct Hr|].
  unfold order_by_len_desc. cbn [fold_right]. fold (order_by_len_desc l).
  destruct (Hmax x (or_introl eq_refl)) as [->|Hx].
  - destruct (order_by_len_desc l) as [|y l'] eqn:E; [exists []; reflexivity|].
    cbn [insert_by_len].
    assert (Hy : In y l) by (apply in_order_by_len_desc; rewrite E; left; reflexivity).
    destruct (Nat.leb_spec (List.length (path_prefix y)) (List.length (path_prefix r))) as [_|Hlt];
      [eexists; reflexivity|].
    exfalso. destruct (Hmax y (or_intror Hy)) as [->|H]; lia.
  - destruct Hr as [->|Hr]; [lia|].
    destruct (IH r Hr) as [rest E]; [intros r' H'; apply Hmax; right; exact H'|].
    rewrite E. cbn [insert_by_len].
    destruct (Nat.leb_spec (List.length (path_prefix r)) (List.length (path_prefix x))); [lia|].
    eexists; reflexivity.
Qed.

Lemma upsert_prefixes : forall ctxs newId cid p ctx,
  Forall (fun r => ~ In 37 (path_prefix r)) ctxs -> ~ In 37 p ->
  Forall (fun r => ~ In 37 (path_prefix r)) (upsert ctxs newId cid p ctx).
Proof.
  intros ctxs newId cid p ctx H Hp. unfold upsert.
  destruct (getByCollectionAndPrefix ctxs cid p).
  - apply Forall_map. apply (Forall_impl _ (P := fun r => ~ In 37 (path_prefix r))); [|exact H].
    intros r Hr. destruct (key_is cid p r); exact Hr.
  - apply Forall_app. split; [exact H|]. constructor; [exact Hp|constructor].
Qed.

(** X18: setting a context and reading it back: [ContextService.setContext]
    fails only for an unknown collection; otherwise, when no stored prefix
    and not [pathPrefix] itself contains the LIKE wildcard [%], reading the
    context of exactly [pathPrefix] in that collection gives the context just
    set ([null] when it is empty), whatever the contexts of parent
    directories or of the root; the (collection, prefix) keys stay unique. *)
Theorem setContext_getContextForPath (cols : list CollectionRow) (ctxs : list PathContextRow)
    (newId : Z) (cname p ctx : jsstr) :
  NoDup (map pkey ctxs) -> Forall (fun r => ~ In 37 (path_prefix r)) ctxs -> ~ In 37 p ->
  match ContextService.setContext cols ctxs newId cname p ctx with
  | Err _ => ~ In cname (map name cols)
  | Ok ctxs' =>
      NoDup (map pkey ctxs') /\
      ContextService.getContextForPath cols ctxs' cname p = match ctx with [] => None | _ => Some ctx end
  end.
Proof.
  intros Hnd Hpct Hp. unfold ContextService.setContext.
  destruct (getByName cols cname) as [c|] eqn:Hc; [|apply CollectionFacts.getByName_none; exact Hc].
  split; [apply upsert_NoDup; exact Hnd|].
  unfold ContextService.getContextForPath. rewrite Hc. unfold Store.getContextForPath.
  destruct (upsert_lookup ctxs newId (coll_id c) p ctx Hnd) as [r [_ [Hin [Hcid [Hpp Hctx]]]]].
  assert (Hnd' := upsert_NoDup ctxs newId (coll_id c) p ctx Hnd).
  assert (Hpct' := upsert_prefixes ctxs newId (coll_id c) p ctx Hpct Hp).
  destruct (order_by_len_desc_head
              (filter (context_where (coll_id c) p) (upsert ctxs newId (coll_id c) p ctx)) r)
    as [rest E].
  - apply filter_In. split; [exact Hin|]. unfold context_where.
    rewrite Hcid, Hpp, Z.eqb_refl, StoreClaims.jsstr_eqb_refl. rewrite orb_true_r. reflexivity.
  - intros r' Hr'. apply filter_In in Hr' as [Hr' Hw]. unfold context_where in Hw.
    apply andb_true_iff in Hw as [Hcid' Hw]. apply Z.eqb_eq in Hcid'.
    destruct (list_eq_dec Z.eq_dec (path_prefix r') p) as [Epp|Npp].
    + left. apply (CollectionFacts.NoDup_map_eq pkey _ _ _ Hnd' Hr' Hin).
      unfold pkey. rewrite Hcid, Hpp, Hcid', Epp. reflexivity.
    + right. rewrite Hpp. apply orb_true_iff in Hw as [Hw|Hw]; [apply orb_true_iff in Hw as [Hw|Hw]|].
      * apply (like_prefix_slash_length _ [37]); [|exact Hw].
        rewrite Forall_forall in Hpct'. apply Hpct'. exact Hr'.
      * apply StoreClaims.jsstr_eqb_eq in Hw. congruence.
      * apply StoreClaims.jsstr_eqb_eq in Hw. rewrite Hw in Npp |- *.
        destruct p; [congruence|]. simpl. lia.
  - rewrite E, Hctx. destruct ctx; reflexivity.
Qed.

Ltac not_in_tac := let H := fresh in intros H; repeat (destruct H as [H|H]; [discriminate|]); exact H.

Lemma setContext_getContextForPath_witness :
  NoDup (map pkey sample_ctxs) /\ Forall (fun r => ~ In 37 (path_prefix r)) sample_ctxs /\
  ~ In 37 (of_string "work") /\
  match ContextService.setContext CollectionFacts.sample_cols sample_ctxs 3 (of_string "notes")
          (of_string "work") (of_string "job") with
  | Err _ => ~ In (of_string "notes") (map name CollectionFacts.sample_cols)
  | Ok ctxs' =>
      NoDup (map pkey ctxs') /\
      ContextService.getContextForPath CollectionFacts.sample_cols ctxs' (of_string "notes")
        (of_string "work") = match of_string "job" with [] => None | _ => Some (of_string "job") end
  end.
Proof.
  assert (H1 : NoDup (map pkey sample_ctxs)).
  { constructor; [simpl; intros [H|[]]; discriminate|constructor; [intros []|constructor]]. }
  assert (H2 : Forall (fun r => ~ In 37 (path_prefix r)) sample_ctxs).
  { constructor; [simpl; not_in_tac|constructor; [simpl; not_in_tac|constructor]]. }
  assert (H3 : ~ In 37 (of_string "work")) by (simpl; not_in_tac).
  split; [exact H1|]. split; [exact H2|]. split; [exact H3|].
  exact (setContext_getContextForPath CollectionFacts.sample_cols sample_ctxs 3 (of_string "notes")
           (of_string "work") (of_string "job") H1 H2 H3).
Defined.

End ContextFacts.

(* ------------------------------------------------------------------ *)
(** ** Title extraction *)
Module TitleFacts.
Import Store JSMore Title.

Definition nonterm (c : Z) : Prop := is_line_terminator c = false.
Definition space (c : Z) : Prop := FTS.js_is_space c = true.

(** What may follow a heading's text: the end, or a line break. *)
Definition line_end (rest : jsstr) : Prop :=
  rest = [] \/ exists c r, rest = c :: r /\ is_line_terminator c = true.

Lemma dot_run_app : forall T rest, Forall nonterm T -> line_end rest -> dot_run (T ++ rest) = T.
Proof.
  induction T as [|c T IH]; intros rest HT Hr.
  - destruct Hr as [->|[c [r [-> Hc]]]]; simpl; [reflexivity|]. rewrite Hc. reflexivity.
  - inversion HT as [|? ? Hc HT']. subst. simpl. unfold nonterm in Hc. rewrite Hc. f_equal. auto.
Qed.

Lemma ws_star_dot_text : forall W c T rest, Forall space W -> FTS.js_is_space c = false ->
  Forall nonterm (c :: T) -> line_end rest ->
  ws_star_dot (W ++ c :: T ++ rest) = Some (c :: T).
Proof.
  induction W as [|w W IH]; intros c T rest HW Hc HT Hr.
  - simpl. rewrite Hc. unfold dotplus_eol. change (c :: T ++ rest) with ((c :: T) ++ rest).
    rewrite dot_run_app by assumption. reflexivity.
  - inversion HW as [|? ? Hw HW']. subst. simpl. unfold space in Hw. rewrite Hw.
    rewrite IH by assumption. reflexivity.
Qed.

Lemma space_not_hash : forall c, FTS.js_is_space c = true -> (c =? 35) = false.
Proof.
  intros c H. destruct (Z.eqb_spec c 35) as [->|]; [discriminate|reflexivity].
Qed.

Lemma heading12_text : forall h W c T rest, (h = [35] \/ h = [35; 35]) -> W <> [] ->
  Forall space W -> FTS.js_is_space c = false -> Forall nonterm (c :: T) -> line_end rest ->
  heading12 (h ++ W ++ c :: T ++ rest) = Some (c :: T).
Proof.
  intros h W c T rest Hh HW Hs Hc HT Hr.
  destruct W as [|w W]; [congruence|]. inversion Hs as [|? ? Hw Hs']. subst.
  destruct Hh as [ -> | -> ]; cbn [app heading12].
  - unfold space in Hw. rewrite (space_not_hash w Hw). unfold ws_plus_dot. rewrite Hw.
    apply ws_star_dot_text; assumption.
  - rewrite Z.eqb_refl. unfold ws_plus_dot at 1. rewrite Hw.
    rewrite ws_star_dot_text by assumption. reflexivity.
Qed.

Lemma search_lines_here : forall m s r, m s = Some r -> search_lines m s true = Some r.
Proof. intros m [|c s] r H; simpl; rewrite H; reflexivity. Qed.

Lemma search_lines_skip : forall m P s, Forall nonterm P ->
  search_lines m (P ++ s) false = search_lines m s false.
Proof.
  intros m. induction P as [|p P IH]; intros s HP; [reflexivity|].
  inversion HP as [|? ? Hp HP']. subst. cbn [app search_lines]. unfold nonterm in Hp. rewrite Hp.
  apply IH. exact HP'.
Qed.

Lemma search_lines_break : forall m c s, is_line_terminator c = true ->
  search_lines m (c :: s) false = search_lines m s true.
Proof. intros m c s H. simpl. rewrite H. reflexivity. Qed.

Lemma Forall_trim_nil : forall s, Forall space s -> trim s = [].
Proof.
  intros s H. unfold trim. assert (E : trimStart s = []).
  { induction H as [|c s Hc H IH]; [reflexivity|]. simpl. unfold space in Hc. rewrite Hc. exact IH. }
  rewrite E. reflexivity.
Qed.

Lemma notes_shape : forall N, N = of_string "Notes" \/ N = notes_emoji ->
  exists c T, N = c :: T /\ FTS.js_is_space c = false /\ Forall nonterm (c :: T) /\ trim N = N /\
              (jsstr_eqb N notes_emoji || jsstr_eqb N (of_string "Notes")) = true.
Proof.
  intros N [ -> | -> ].
  - exists 78, (of_string "otes").
    split; [reflexivity|]. split; [reflexivity|]. split; [repeat constructor|]. split; reflexivity.
  - exists 0xD83D, ([0xDCDD] ++ of_string " Notes").
    split; [reflexivity|]. split; [reflexivity|]. split; [repeat constructor|]. split; reflexivity.
Qed.

(** X19: when [content] starts with a heading, [#] or [##] then a
    whitespace run (which may span line breaks, so a bare [#] line takes the
    next line as title) and a text that starts with no whitespace and holds
    no line break, the title is the trimmed text, unless that text is one of
    the two Notes titles. *)
Theorem extractTitle_heading (h W T rest filename : jsstr) (c : Z) :
  (h = [35] \/ h = [35; 35]) -> W <> [] -> Forall space W ->
  FTS.js_is_space c = false -> Forall nonterm (c :: T) -> line_end rest ->
  trim (c :: T) <> of_string "Notes" -> trim (c :: T) <> notes_emoji ->
  extractTitle (h ++ W ++ c :: T ++ rest) filename = trim (c :: T).
Proof.
  intros Hh HW Hs Hc HT Hr Hn1 Hn2. unfold extractTitle, match_m.
  rewrite (search_lines_here _ _ _ (heading12_text h W c T rest Hh HW Hs Hc HT Hr)).
  destruct (jsstr_eqb (trim (c :: T)) notes_emoji) eqn:E1;
    [apply StoreClaims.jsstr_eqb_eq in E1; contradiction|].
  destruct (jsstr_eqb (trim (c :: T)) (of_string "Notes")) eqn:E2;
    [apply StoreClaims.jsstr_eqb_eq in E2; contradiction|].
  reflexivity.
Qed.

Lemma extractTitle_heading_witness :
  ([35] = [35] \/ [35] = [35; 35]) /\ [32] <> [] /\ Forall space [32] /\
  FTS.js_is_space 72 = false /\ Forall nonterm (72 :: of_string "i ") /\ line_end (of_string "") /\
  trim (72 :: of_string "i ") <> of_string "Notes" /\ trim (72 :: of_string "i ") <> notes_emoji /\
  extractTitle ([35] ++ [32] ++ 72 :: of_string "i " ++ of_string "") (of_string "a.md")
    = trim (72 :: of_string "i ").
Proof.
  assert (H1 : [35] = [35] \/ [35] = [35; 35]) by (left; reflexivity).
  assert (H2 : [32] <> []) by discriminate.
  assert (H3 : Forall space [32]) by (repeat constructor).
  assert (H4 : FTS.js_is_space 72 = false) by reflexivity.
  assert (H5 : Forall nonterm (72 :: of_string "i ")) by (repeat constructor).
  assert (H6 : line_end (of_string "")) by (left; reflexivity).
  assert (H7 : trim (72 :: of_string "i ") <> of_string "Notes") by (vm_compute; discriminate).
  assert (H8 : trim (72 :: of_string "i ") <> notes_emoji) by (vm_compute; discriminate).
  split; [exact H1|]. split; [exact H2|]. split; [exact H3|]. split; [exact H4|].
  split; [exact H5|]. split; [exact H6|]. split; [exact H7|]. split; [exact H8|].
  exact (extractTitle_heading [35] [32] (of_string "i ") (of_string "") (of_string "a.md") 72
           H1 H2 H3 H4 H5 H6 H7 H8).
Defined.

(** X20: the Notes skip never fires for a [##] heading: when the first
    heading is [## Notes] (or [## ] and the memo emoji and [Notes]), the
    second search for a [##] heading finds that same line, and the title is
    [Notes] (or the emoji one) whatever follows. *)
Theorem extractTitle_h2_notes (W N rest filename : jsstr) :
  (N = of_string "Notes" \/ N = notes_emoji) -> W <> [] -> Forall space W -> line_end rest ->
  extractTitle ([35; 35] ++ W ++ N ++ rest) filename = N.
Proof.
  intros HN HW Hs Hr. destruct (notes_shape N HN) as [c [T [-> [Hc [HT [Htr Heq]]]]]].
  unfold extractTitle, match_m. change ((c :: T) ++ rest) with (c :: T ++ rest).
  rewrite (search_lines_here _ _ _ (heading12_text [35; 35] W c T rest (or_intror eq_refl)
                                           HW Hs Hc HT Hr)).
  rewrite Htr, Heq.
  destruct W as [|w W]; [congruence|]. inversion Hs as [|? ? Hw Hs']. subst.
  rewrite (search_lines_here heading2 _ (c :: T)).
  - exact Htr.
  - cbn [app heading2]. rewrite Z.eqb_refl. cbn [andb]. unfold ws_plus_dot. unfold space in Hw.
    rewrite Hw. apply ws_star_dot_text; assumption.
Qed.

Lemma extractTitle_h2_notes_witness :
  (of_string "Notes" = of_string "Notes" \/ of_string "Notes" = notes_emoji) /\ [32] <> [] /\
  Forall space [32] /\ line_end (of_string "
## Real") /\
  extractTitle ([35; 35] ++ [32] ++ of_string "Notes" ++ of_string "
## Real") (of_string "a.md") = of_string "Notes".
Proof.
  assert (H1 : of_string "Notes" = of_string "Notes" \/ of_string "Notes" = notes_emoji)
    by (left; reflexivity).
  assert (H2 : [32] <> []) by discriminate.
  assert (H3 : Forall space [32]) by (repeat constructor).
  assert (H4 : line_end (of_string "
## Real")) by (right; do 2 eexists; split; reflexivity).
  split; [exact H1|]. split; [exact H2|]. split; [exact H3|]. split; [exact H4|].
  exact (extractTitle_h2_notes [32] (of_string "Notes") _ (of_string "a.md") H1 H2 H3 H4).
Defined.

(** X21: a [#] heading titled [Notes] (or the emoji one) on the first line
    defers to the next line when that line is a [##] heading: the title is
    that heading's trimmed text, Notes or not. *)
Theorem extractTitle_h1_notes_next (W1 N W2 T rest filename : jsstr) (c : Z) :
  (N = of_string "Notes" \/ N = notes_emoji) ->
  W1 <> [] -> Forall (fun w => space w /\ nonterm w) W1 ->
  W2 <> [] -> Forall space W2 ->
  FTS.js_is_space c = false -> Forall nonterm (c :: T) -> line_end rest ->
  extractTitle ([35] ++ W1 ++ N ++ [10] ++ [35; 35] ++ W2 ++ c :: T ++ rest) filename = trim (c :: T).
Proof.
  intros HN HW1 Hs1 HW2 Hs2 Hc HT Hr.
  destruct (notes_shape N HN) as [d [D [-> [Hd [HD [Htr Heq]]]]]].
  assert (Hs1' : Forall space W1) by (eapply Forall_impl; [|exact Hs1]; intros w [H _]; exact H).
  assert (Hn1 : Forall nonterm W1) by (eapply Forall_impl; [|exact Hs1]; intros w [_ H]; exact H).
  unfold extractTitle, match_m.
  change ((d :: D) ++ [10] ++ [35; 35] ++ W2 ++ c :: T ++ rest)
    with (d :: D ++ [10] ++ [35; 35] ++ W2 ++ c :: T ++ rest).
  rewrite (search_lines_here _ _ (d :: D)).
  2: { rewrite (heading12_text [35] W1 d D ([10] ++ [35; 35] ++ W2 ++ c :: T ++ rest)
                  (or_introl eq_refl)); try assumption; [reflexivity|].
       right. eexists; eexists; split; reflexivity. }
  rewrite Htr, Heq.
  destruct W1 as [|w1 W1]; [congruence|]. inversion Hs1 as [|? ? [Hw1 Hnw1] Hs1'']. subst.
  assert (Hskip : search_lines heading2 ([35] ++ (w1 :: W1) ++ d :: D ++ [10] ++ [35; 35] ++ W2 ++ c :: T ++ rest) true
                  = search_lines heading2 ([35; 35] ++ W2 ++ c :: T ++ rest) true).
  { cbn [app search_lines]. unfold heading2. rewrite Z.eqb_refl, (space_not_hash w1 Hw1). cbn [andb].
    cbn [is_line_terminator]. change (is_line_terminator 35) with false.
    unfold nonterm in Hnw1. rewrite Hnw1.
    inversion Hn1 as [|? ? _ HnW1]. subst.
    rewrite (search_lines_skip heading2 W1 _ HnW1).
    inversion HD as [|? ? Hd' HD']. subst. cbn [app search_lines]. unfold nonterm in Hd'. rewrite Hd'.
    rewrite (search_lines_skip heading2 D _ HD').
    apply search_lines_break. reflexivity. }
  rewrite Hskip.
  rewrite (search_lines_here heading2 _ (c :: T)); [reflexivity|].
  destruct W2 as [|w2 W2]; [congruence|]. inversion Hs2 as [|? ? Hw2 Hs2']. subst.
  cbn [app heading2]. rewrite Z.eqb_refl. cbn [andb]. unfold ws_plus_dot. unfold space in Hw2.
  rewrite Hw2. apply ws_star_dot_text; assumption.
Qed.

Lemma extractTitle_h1_notes_next_witness :
  (of_string "Notes" = of_string "Notes" \/ of_string "Notes" = notes_emoji) /\
  [32] <> [] /\ Forall (fun w => space w /\ nonterm w) [32] /\ [32] <> [] /\ Forall space [32] /\
  FTS.js_is_space 82 = false /\ Forall nonterm (82 :: of_string "eal") /\ line_end (of_string "") /\
  extractTitle ([35] ++ [32] ++ of_string "Notes" ++ [10] ++ [35; 35] ++ [32] ++ 82 :: of_string "eal"
                  ++ of_string "") (of_string "a.md") = trim (82 :: of_string "eal").
Proof.
  assert (H1 : of_string "Notes" = of_string "Notes" \/ of_string "Notes" = notes_emoji)
    by (left; reflexivity).
  assert (H2 : [32] <> []) by discriminate.
  assert (H3 : Forall (fun w => space w /\ nonterm w) [32]) by (constructor; [split; reflexivity|constructor]).
  assert (H4 : Forall space [32]) by (repeat constructor).
  assert (H5 : FTS.js_is_space 82 = false) by reflexivity.
  assert (H6 : Forall nonterm (82 :: of_string "eal")) by (repeat constructor).
  assert (H7 : line_end (of_string "")) by (left; reflexivity).
  split; [exact H1|]. split; [exact H2|]. split; [exact H3|]. split; [exact H2|].
  split; [exact H4|]. split; [exact H5|]. split; [exact H6|]. split; [exact H7|].
  exact (extractTitle_h1_notes_next [32] (of_string "Notes") [32] (of_string "eal") (of_string "")
           (of_string "a.md") 82 H1 H2 H3 H2 H4 H5 H6 H7).
Defined.

Lemma dot_run_forall : forall (P : Z -> Prop) s, Forall P s -> Forall P (dot_run s).
Proof.
  intros P. induction s as [|c s IH]; intros H; simpl; [constructor|].
  inversion H. subst. destruct (is_line_terminator c); [constructor|constructor; auto].
Qed.

Lemma ws_star_dot_forall : forall (P : Z -> Prop) s r, ws_star_dot s = Some r -> Forall P s -> Forall P r.
Proof.
  intros P. induction s as [|c s IH]; intros r H HP; [discriminate|].
  cbn [ws_star_dot] in H. inversion HP. subst.
  destruct (FTS.js_is_space c).
  - destruct (ws_star_dot s) as [r0|] eqn:E.
    + injection H as <-. apply IH; [reflexivity|assumption].
    + unfold dotplus_eol in H. destruct (dot_run (c :: s)) eqn:Ed; [discriminate|].
      injection H as <-. rewrite <- Ed. apply dot_run_forall. exact HP.
  - unfold dotplus_eol in H. destruct (dot_run (c :: s)) eqn:Ed; [discriminate|].
    injection H as <-. rewrite <- Ed. apply dot_run_forall. exact HP.
Qed.

Lemma ws_star_dot_blank : forall W, Forall space W -> Exists nonterm W ->
  exists r, ws_star_dot W = Some r /\ Forall space r.
Proof.
  induction W as [|c W IH]; intros HW HE; [inversion HE|].
  inversion HW as [|? ? Hc HW']. subst. unfold space in Hc.
  assert (Hsome : ws_star_dot (c :: W) <> None).
  { cbn [ws_star_dot]. rewrite Hc. inversion HE as [? ? Hn|? ? HE']; subst.
    - destruct (ws_star_dot W); [discriminate|]. unfold dotplus_eol. cbn [dot_run].
      unfold nonterm in Hn. rewrite Hn. discriminate.
    - destruct (IH HW' HE') as [r [Hr _]]. rewrite Hr. discriminate. }
  destruct (ws_star_dot (c :: W)) as [r|] eqn:E; [|congruence].
  exists r. split; [reflexivity|]. apply (ws_star_dot_forall space (c :: W)); [exact E|exact HW].
Qed.

(** X22: a [#] heading line holding nothing but whitespace at the end of
    the content (at least two whitespace code units, one of them after the
    first not a line break) gives the empty title, not the file name. *)
Theorem extractTitle_blank_heading (w : Z) (W filename : jsstr) :
  space w -> Forall space W -> Exists nonterm W -> extractTitle (35 :: w :: W) filename = [].
Proof.
  intros Hw HW HE. destruct (ws_star_dot_blank W HW HE) as [r [Hr Hsp]].
  assert (Hh : heading12 (35 :: w :: W) = Some r).
  { cbn [heading12 Z.eqb Pos.eqb]. unfold space in Hw. rewrite (space_not_hash w Hw).
    unfold ws_plus_dot. rewrite Hw. exact Hr. }
  unfold extractTitle, match_m. rewrite (search_lines_here _ _ _ Hh).
  rewrite (Forall_trim_nil r Hsp). reflexivity.
Qed.

Lemma extractTitle_blank_heading_witness :
  space 32 /\ Forall space [9] /\ Exists nonterm [9] /\
  extractTitle (35 :: 32 :: [9]) (of_string "notes/a.md") = [].
Proof.
  assert (H1 : space 32) by reflexivity.
  assert (H2 : Forall space [9]) by (repeat constructor).
  assert (H3 : Exists nonterm [9]) by (apply Exists_cons_hd; reflexivity).
  split; [exact H1|]. split; [exact H2|]. split; [exact H3|].
  exact (extractTitle_blank_heading 32 [9] (of_string "notes/a.md") H1 H2 H3).
Defined.

Lemma search_lines_no_hash : forall s b, ~ In 35 s -> search_lines heading12 s b = None.
Proof.
  induction s as [|c s IH]; intros b H; [destruct b; reflexivity|].
  assert (Hc : (c =? 35) = false) by (apply Z.eqb_neq; intros ->; apply H; left; reflexivity).
  cbn [search_lines]. unfold heading12. rewrite Hc.
  assert (E : (if b then None else None) = @None jsstr) by (destruct b; reflexivity).
  rewrite E. apply IH. intros Hin. apply H. right. exact Hin.
Qed.

Lemma join_split : forall sep s, FTS.join [sep] (split_on sep s) = s.
Proof.
  intros sep. induction s as [|c s IH]; [reflexivity|]. cbn [split_on].
  destruct (Z.eqb_spec c sep) as [->|Hc].
  - pose proof (ServiceFacts.split_on_nonempty sep s) as Hne.
    destruct (split_on sep s) as [|w ws] eqn:E; [congruence|].
    cbn [FTS.join]. rewrite <- IH. reflexivity.
  - pose proof (ServiceFacts.split_on_nonempty sep s) as Hne.
    destruct (split_on sep s) as [|w ws] eqn:E; [congruence|].
    destruct ws as [|w2 ws]; cbn [FTS.join] in IH |- *; rewrite <- IH; reflexivity.
Qed.

Lemma join_cons2 : forall sep a b r, FTS.join sep (a :: b :: r) = a ++ sep ++ FTS.join sep (b :: r).
Proof. reflexivity. Qed.

Lemma join_snoc : forall sep init w,
  FTS.join [sep] (init ++ [w]) =
  match init with [] => w | _ => FTS.join [sep] init ++ [sep] ++ w end.
Proof.
  intros sep. induction init as [|x init IH]; intros w; [reflexivity|].
  destruct init as [|y init]; [reflexivity|].
  specialize (IH w).
  change ((x :: y :: init) ++ [w]) with (x :: y :: (init ++ [w])).
  change ((y :: init) ++ [w]) with (y :: (init ++ [w])) in IH.
  rewrite join_cons2, IH, join_cons2. rewrite <- !app_assoc. reflexivity.
Qed.

Lemma split_last : forall sep s,
  ~ In sep (last (split_on sep s) []) /\
  exists pre, s = pre ++ last (split_on sep s) [] /\ (pre = [] \/ exists pre', pre = pre' ++ [sep]).
Proof.
  intros sep s. pose proof (ServiceFacts.split_on_nonempty sep s) as Hne.
  destruct (exists_last Hne) as [init [w E]]. rewrite E, last_last.
  split.
  { apply (StrFacts.split_on_no_sep sep s). rewrite E. apply in_or_app. right. left. reflexivity. }
  pose proof (join_split sep s) as J. rewrite E, join_snoc in J.
  destruct init as [|x init].
  - exists []. split; [symmetry; exact J|left; reflexivity].
  - exists (FTS.join [sep] (x :: init) ++ [sep]). split.
    + rewrite <- app_assoc. symmetry. exact J.
    + right. eexists. reflexivity.
Qed.

Lemma prefixb_true_app : forall p l, prefixb p l = true -> exists t, l = p ++ t.
Proof.
  induction p as [|a p IH]; intros [|b l] H; simpl in H; try discriminate.
  - exists []. reflexivity.
  - exists (b :: l). reflexivity.
  - apply andb_true_iff in H as [Hab H]. apply Z.eqb_eq in Hab. subst.
    destruct (IH l H) as [t ->]. exists t. reflexivity.
Qed.

Lemma prefixb_app_self : forall p t, prefixb p (p ++ t) = true.
Proof. induction p as [|a p IH]; intros t; simpl; [reflexivity|]. rewrite Z.eqb_refl, IH. reflexivity. Qed.

Lemma strip_md_spec : forall f,
  (exists base, f = base ++ of_string ".md" /\ strip_md f = base) \/
  ((forall base, f <> base ++ of_string ".md") /\ strip_md f = f).
Proof.
  intros f. unfold strip_md. destruct (prefixb _ _) eqn:E.
  - left. destruct (prefixb_true_app _ _ E) as [t Et].
    exists (rev t). split.
    + rewrite <- (rev_involutive f), Et, rev_app_distr, rev_involutive. reflexivity.
    + rewrite Et. reflexivity.
  - right. split; [|reflexivity]. intros base Eb. subst f.
    rewrite rev_app_distr, prefixb_app_self in E. discriminate.
Qed.

(** X23: for content with no [#] at all, the title is the last [/] part of
    the file name with a trailing [.md] removed (exactly one, and only when
    the name ends in [.md]) when that part is not empty;
    when it is empty (the name, less [.md], is empty or ends in [/]), the
    title is the whole file name. *)
Theorem extractTitle_no_heading (content filename : jsstr) :
  ~ In 35 content ->
  ((exists base, filename = base ++ of_string ".md" /\ strip_md filename = base) \/
   ((forall base, filename <> base ++ of_string ".md") /\ strip_md filename = filename)) /\
  let t := extractTitle content filename in
  (t <> [] /\ ~ In 47 t /\
   exists pre, strip_md filename = pre ++ t /\ (pre = [] \/ exists pre', pre = pre' ++ [47])) \/
  (t = filename /\ (strip_md filename = [] \/ exists pre', strip_md filename = pre' ++ [47])).
Proof.
  intros H. split; [apply strip_md_spec|]. cbv zeta.
  unfold extractTitle, match_m. rewrite (search_lines_no_hash content true H).
  destruct (split_last 47 (strip_md filename)) as [Hno [pre [Es Hpre]]].
  destruct (last (split_on 47 (strip_md filename)) []) as [|c w] eqn:Ew.
  - right. split; [reflexivity|]. rewrite app_nil_r in Es. rewrite Es.
    destruct Hpre as [->|[pre' ->]]; [left; reflexivity|right; exists pre'; reflexivity].
  - left. split; [discriminate|]. split; [exact Hno|]. exists pre. split; assumption.
Qed.

Lemma extractTitle_no_heading_witness :
  ~ In 35 (of_string "plain text") /\
  ((exists base, of_string "dir/file.md" = base ++ of_string ".md" /\
                 strip_md (of_string "dir/file.md") = base) \/
   ((forall base, of_string "dir/file.md" <> base ++ of_string ".md") /\
    strip_md (of_string "dir/file.md") = of_string "dir/file.md")) /\
  let t := extractTitle (of_string "plain text") (of_string "dir/file.md") in
  (t <> [] /\ ~ In 47 t /\
   exists pre, strip_md (of_string "dir/file.md") = pre ++ t /\ (pre = [] \/ exists pre', pre = pre' ++ [47])) \/
  (t = of_string "dir/file.md" /\
   (strip_md (of_string "dir/file.md") = [] \/ exists pre', strip_md (of_string "dir/file.md") = pre' ++ [47])).
Proof.
  assert (H : ~ In 35 (of_string "plain text")).
  { simpl. intros H. repeat (destruct H as [H|H]; [discriminate|]). exact H. }
  split; [exact H|]. exact (extractTitle_no_heading (of_string "plain text") (of_string "dir/file.md") H).
Defined.

End TitleFacts.

(* ------------------------------------------------------------------ *)
(** ** The Ollama cache table *)
Module CacheFacts.
Import Cache.

Lemma find_filter_other : forall (c : cache) k k', k' <> k ->
  find (fun r => Store.jsstr_eqb (hash r) k') (filter (fun r => negb (Store.jsstr_eqb (hash r) k)) c) =
  find (fun r => Store.jsstr_eqb (hash r) k') c.
Proof.
  intros c k k' Hne. induction c as [|x c IH]; [reflexivity|]. simpl.
  destruct (Store.jsstr_eqb (hash x) k) eqn:E; simpl.
  - apply StoreClaims.jsstr_eqb_eq in E. rewrite IH.
    destruct (Store.jsstr_eqb (hash x) k') eqn:E'; [|reflexivity].
    apply StoreClaims.jsstr_eqb_eq in E'. congruence.
  - rewrite IH. reflexivity.
Qed.

Lemma filter_filter_other : forall (c : cache) k k', k' <> k ->
  filter (fun r => Store.jsstr_eqb (hash r) k') (filter (fun r => negb (Store.jsstr_eqb (hash r) k)) c) =
  filter (fun r => Store.jsstr_eqb (hash r) k') c.
Proof.
  intros c k k' Hne. induction c as [|x c IH]; [reflexivity|]. simpl.
  destruct (Store.jsstr_eqb (hash x) k) eqn:E; simpl.
  - apply StoreClaims.jsstr_eqb_eq in E. rewrite IH.
    destruct (Store.jsstr_eqb (hash x) k') eqn:E'; [|reflexivity].
    apply StoreClaims.jsstr_eqb_eq in E'. congruence.
  - rewrite IH. reflexivity.
Qed.

Lemma filter_key_removed : forall (c : cache) k,
  filter (fun r => Store.jsstr_eqb (hash r) k) (filter (fun r => negb (Store.jsstr_eqb (hash r) k)) c) = [].
Proof.
  intros c k. induction c as [|x c IH]; [reflexivity|]. simpl.
  destruct (Store.jsstr_eqb (hash x) k) eqn:E; simpl; [exact IH|]. rewrite E. exact IH.
Qed.

Lemma find_key_removed : forall (c : cache) k,
  find (fun r => Store.jsstr_eqb (hash r) k) (filter (fun r => negb (Store.jsstr_eqb (hash r) k)) c) = None.
Proof.
  intros c k. induction c as [|x c IH]; [reflexivity|]. simpl.
  destruct (Store.jsstr_eqb (hash x) k) eqn:E; simpl; [exact IH|]. rewrite E. exact IH.
Qed.

Lemma filter_absent : forall (c : cache) k, ~ In k (map hash c) ->
  filter (fun r => Store.jsstr_eqb (hash r) k) c = [].
Proof.
  intros c k H. induction c as [|x c IH]; [reflexivity|]. simpl.
  destruct (Store.jsstr_eqb (hash x) k) eqn:E.
  - apply StoreClaims.jsstr_eqb_eq in E. exfalso. apply H. left. exact E.
  - apply IH. intros Hin. apply H. right. exact Hin.
Qed.

Lemma filter_split_length {A} (f : A -> bool) : forall l,
  (List.length (filter f l) + List.length (filter (fun x => negb (f x)) l))%nat = List.length l.
Proof.
  induction l as [|x l IH]; [reflexivity|]. simpl. destruct (f x); simpl; lia.
Qed.

Lemma filter_neg_NoDup : forall (c : cache) k, NoDup (map hash c) ->
  NoDup (map hash (filter (fun r => negb (Store.jsstr_eqb (hash r) k)) c)).
Proof.
  intros c k. induction c as [|x c IH]; intros Hnd; simpl; [constructor|].
  inversion Hnd as [|? ? Hx Hnd']. subst.
  destruct (Store.jsstr_eqb (hash x) k); simpl; [apply IH; exact Hnd'|].
  constructor; [|apply IH; exact Hnd'].
  intros Hin. apply Hx. apply in_map_iff in Hin as [y [Hy Hin]]. apply filter_In in Hin as [Hin _].
  rewrite <- Hy. apply in_map. exact Hin.
Qed.

Lemma find_app_opt {A} (f : A -> bool) : forall l1 l2,
  find f (l1 ++ l2) = match find f l1 with Some x => Some x | None => find f l2 end.
Proof.
  induction l1 as [|x l1 IH]; intros l2; [reflexivity|]. simpl. destruct (f x); [reflexivity|apply IH].
Qed.

Lemma count_key_unique : forall (c : cache) k, NoDup (map hash c) ->
  (List.length (filter (fun r => Store.jsstr_eqb (hash r) k) c) <= 1)%nat.
Proof.
  intros c k. induction c as [|x c IH]; intros Hnd; simpl; [lia|].
  inversion Hnd as [|? ? Hx Hnd']. subst.
  destruct (Store.jsstr_eqb (hash x) k) eqn:E; [|apply IH; exact Hnd'].
  apply StoreClaims.jsstr_eqb_eq in E. subst k.
  rewrite (filter_absent c (hash x) Hx). simpl. lia.
Qed.

(** X24: the cache table keeps its keys unique ([hash] is the primary
    key) under [set], and [get], [exists], [delete] and [count] agree with
    [set] and [delete]: after [set c k r], [get] of [k] is [r] ([null] for the
    empty string), [exists] of [k] holds, every other key reads as before,
    and the count grows by one exactly when [k] was new; after [delete c k],
    [k] neither exists nor reads, and every other key reads as before. *)
Theorem cache_set_delete (c : cache) (k r now : jsstr) :
  NoDup (map hash c) ->
  NoDup (map hash (set c k r now)) /\
  get (set c k r now) k = match r with [] => None | _ => Some r end /\
  cache_exists (set c k r now) k = true /\
  (forall k', k' <> k ->
     get (set c k r now) k' = get c k' /\ cache_exists (set c k r now) k' = cache_exists c k') /\
  count (set c k r now) = (if cache_exists c k then count c else S (count c)) /\
  cache_exists (delete c k) k = false /\ get (delete c k) k = None /\
  (forall k', k' <> k -> get (delete c k) k' = get c k' /\ cache_exists (delete c k) k' = cache_exists c k').
Proof.
  intros Hnd.
  assert (Hrow : Store.jsstr_eqb (hash (mkCacheRow k r now)) k = true)
    by (apply StoreClaims.jsstr_eqb_refl).
  split.
  { unfold set. rewrite CollectionFacts.map_snoc. apply CollectionFacts.NoDup_snoc.
    - apply filter_neg_NoDup. exact Hnd.
    - intros Hin. apply in_map_iff in Hin as [y [Hy Hin]]. apply filter_In in Hin as [_ Hin].
      simpl in Hy. rewrite Hy, StoreClaims.jsstr_eqb_refl in Hin. discriminate. }
  split.
  { unfold get, set. rewrite find_app_opt, find_key_removed. simpl.
    rewrite StoreClaims.jsstr_eqb_refl. destruct r; reflexivity. }
  split.
  { unfold cache_exists, set. rewrite filter_app, filter_key_removed. simpl.
    rewrite StoreClaims.jsstr_eqb_refl. reflexivity. }
  assert (Hk : forall k', k' <> k -> Store.jsstr_eqb k k' = false).
  { intros k' Hne. destruct (Store.jsstr_eqb k k') eqn:E; [|reflexivity].
    apply StoreClaims.jsstr_eqb_eq in E. congruence. }
  split.
  { intros k' Hne. split.
    - unfold get, set. rewrite find_app_opt, (find_filter_other c k k' Hne).
      destruct (find _ c); [reflexivity|]. simpl. rewrite (Hk k' Hne). reflexivity.
    - unfold cache_exists, set. rewrite filter_app, (filter_filter_other c k k' Hne). simpl.
      rewrite (Hk k' Hne), app_nil_r. reflexivity. }
  split.
  { unfold count, cache_exists, set. rewrite length_app. cbn [List.length].
    pose proof (filter_split_length (fun r => Store.jsstr_eqb (hash r) k) c) as L. cbv beta in L.
    pose proof (count_key_unique c k Hnd) as U.
    destruct (Nat.ltb_spec 0 (List.length (filter (fun r => Store.jsstr_eqb (hash r) k) c))); lia. }
  split.
  { unfold cache_exists, delete. rewrite filter_key_removed. reflexivity. }
  split.
  { unfold get, delete. rewrite find_key_removed. reflexivity. }
  intros k' Hne. split.
  - unfold get, delete. rewrite (find_filter_other c k k' Hne). reflexivity.
  - unfold cache_exists, delete. rewrite (filter_filter_other c k k' Hne). reflexivity.
Qed.

Definition sample_cache : cache :=
  [mkCacheRow (of_string "k1") (of_string "alpha") (of_string "2024-01-01");
   mkCacheRow (of_string "k2") (of_string "beta") (of_string "2024-01-02")].

Lemma cache_set_delete_witness :
  NoDup (map hash sample_cache) /\
  NoDup (map hash (set sample_cache (of_string "k1") (of_string "gamma") (of_string "2024-02-01"))) /\
  get (set sample_cache (of_string "k1") (of_string "gamma") (of_string "2024-02-01")) (of_string "k1")
    = match of_string "gamma" with [] => None | _ => Some (of_string "gamma") end /\
  cache_exists (set sample_cache (of_string "k1") (of_string "gamma") (of_string "2024-02-01"))
    (of_string "k1") = true /\
  (forall k', k' <> of_string "k1" ->
     get (set sample_cache (of_string "k1") (of_string "gamma") (of_string "2024-02-01")) k'
       = get sample_cache k' /\
     cache_exists (set sample_cache (of_string "k1") (of_string "gamma") (of_string "2024-02-01")) k'
       = cache_exists sample_cache k') /\
  count (set sample_cache (of_string "k1") (of_string "gamma") (of_string "2024-02-01"))
    = (if cache_exists sample_cache (of_string "k1") then count sample_cache else S (count sample_cache)) /\
  cache_exists (delete sample_cache (of_string "k1")) (of_string "k1") = false /\
  get (delete sample_cache (of_string "k1")) (of_string "k1") = None /\
  (forall k', k' <> of_string "k1" ->
     get (delete sample_cache (of_string "k1")) k' = get sample_cache k' /\
     cache_exists (delete sample_cache (of_string "k1")) k' = cache_exists sample_cache k').
Proof.
  assert (H : NoDup (map hash sample_cache)).
  { constructor; [simpl; intros [H|[]]; discriminate|constructor; [intros []|constructor]]. }
  split; [exact H|].
  exact (cache_set_delete sample_cache (of_string "k1") (of_string "gamma") (of_string "2024-02-01") H).
Defined.

End CacheFacts.
